(** * AlphaImaging: the [alpha_core] batch engine

    A shallow embedding of the headless core of the repository
    (src/alpha_core: io.py, naming.py, ops_split.py, ops_combine.py,
    ops_generate.py, ops_validate.py) and the properties its
    specification states about it.

    Conventions of the embedding.
    - An 8-bit sample is a [Z]; [wf_image] says that every sample of an
      image lies in [0, 255].  numpy's int16 arithmetic is written out
      with its wrap-around ([int16]).
    - A Python exception is a value of [Exception]; a call that may raise
      returns a [result]; code that touches the file system is a function
      from the file system to the new file system and a [result].
    - A Python [dict] is an association list in insertion order.
    - The image codec (Pillow) and the array library (numpy) are outside
      the repository.  Their operations are modelled by the definitions of
      [Module PIL] and [Module np], for the modes L, LA, P, RGB and
      RGBA; resizing is kept as a parameter.
    - Python floats are kept behind the interface [FloatOps].  Its
      instance [binary64] (IEEE 754 doubles) runs the code; [rounded] is
      the same arithmetic on the real numbers the doubles are, every
      operation rounded to the nearest double, and is what the properties
      of the statistics are proved of; [exact] (real numbers, no
      rounding) only serves where the floats play no part.
    - A path is the list of its parts; joining a name to a directory
      parses the name as [pathlib] does. *)

From Stdlib Require Import ZArith String Ascii List Bool Arith Lia Permutation Sorted.
From Stdlib Require Import Reals Lra.
From Stdlib Require PrimFloat Uint63 FloatOps SpecFloat.
Import ListNotations.

Set Implicit Arguments.

(* ------------------------------------------------------------------ *)
(** ** Python strings and [pathlib] paths *)

Module pystr.

Fixpoint rev_acc (s acc : string) : string :=
  match s with
  | EmptyString => acc
  | String c t => rev_acc t (String c acc)
  end.

Definition rev (s : string) : string := rev_acc s EmptyString.

(** [s.endswith(suf)] *)
Definition endswith (s suf : string) : bool := String.prefix (rev suf) (rev s).

(** [s[:-n]] for [0 < n] *)
Definition drop_last (n : nat) (s : string) : string :=
  String.substring 0 (String.length s - n) s.

Definition lower_ascii (c : ascii) : ascii :=
  let n := nat_of_ascii c in
  if (65 <=? n)%nat && (n <=? 90)%nat then ascii_of_nat (n + 32) else c.

(** [s.lower()], on ASCII letters: a string is a sequence of bytes here,
    and the letters outside ASCII, which Python folds too, are left as
    they are *)
Fixpoint lower (s : string) : string :=
  match s with
  | EmptyString => EmptyString
  | String c t => String (lower_ascii c) (lower t)
  end.

(** [s.rfind(c)]; [None] stands for -1 *)
Fixpoint rfind (c : ascii) (s : string) : option nat :=
  match s with
  | EmptyString => None
  | String a t =>
      match rfind c t with
      | Some i => Some (S i)
      | None => if Ascii.eqb a c then Some 0%nat else None
      end
  end.

(** [bool(s)] : a string is truthy when it is not empty *)
Definition truthy (s : string) : bool :=
  match s with EmptyString => false | _ => true end.

(** [c in s] *)
Fixpoint contains (c : ascii) (s : string) : bool :=
  match s with
  | EmptyString => false
  | String a t => Ascii.eqb a c || contains c t
  end.

(** [s.split(sep)] *)
Fixpoint split (sep : ascii) (s : string) : list string :=
  match s with
  | EmptyString => [EmptyString]
  | String a t =>
      if Ascii.eqb a sep then EmptyString :: split sep t
      else match split sep t with
           | w :: ws => String a w :: ws
           | [] => [String a EmptyString]
           end
  end.

End pystr.

Module pathlib.

(** A path is the tuple [p.parts]; an absolute path starts with the
    part ["/"]. *)
Definition Path := list string.

Definition Path_eq_dec : forall p q : Path, {p = q} + {p <> q} :=
  list_eq_dec string_dec.

Definition Path_eqb (p q : Path) : bool :=
  if Path_eq_dec p q then true else false.

Definition str (p : Path) : string :=
  match p with
  | [] => "."
  | "/"%string :: rest => String.append "/" (String.concat "/" rest)
  | _ => String.concat "/" p
  end.

Definition name (p : Path) : string :=
  match p with
  | [] => ""
  | ["/"%string] => ""
  | _ => last p ""%string
  end.

(** position of the dot that starts the suffix, when there is one:
    [0 < i < len(name) - 1] *)
Definition suffix_start (n : string) : option nat :=
  match pystr.rfind "."%char n with
  | Some i =>
      if (0 <? i)%nat && (i <? String.length n - 1)%nat then Some i else None
  | None => None
  end.

Definition suffix (p : Path) : string :=
  let n := name p in
  match suffix_start n with
  | Some i => String.substring i (String.length n - i) n
  | None => ""
  end.

Definition stem (p : Path) : string :=
  let n := name p in
  match suffix_start n with
  | Some i => String.substring 0 i n
  | None => n
  end.

Definition parent (p : Path) : Path :=
  match p with
  | [] => []
  | ["/"%string] => p
  | _ => removelast p
  end.

(** [p.with_suffix("")]; [None] is the ValueError of a path with an
    empty name *)
Definition with_suffix_empty (p : Path) : option Path :=
  if pystr.truthy (name p) then Some (removelast p ++ [stem p]) else None.

(** the root a string starts with: [//] for exactly two slashes, [/]
    for one or for more than two *)
Definition root_of (n : string) : option string :=
  match n with
  | String "/" (String "/" (String "/" _)) => Some "/"%string
  | String "/" (String "/" _) => Some "//"%string
  | String "/" _ => Some "/"%string
  | _ => None
  end.

(** the parts of a string between its slashes; empty parts and [.] are
    dropped *)
Definition parse_parts (n : string) : list string :=
  filter (fun x => negb (String.eqb x "" || String.eqb x "."))
         (pystr.split "/" n).

(** [out_dir / name], as on POSIX: the name is parsed, so a [/] in it
    starts a further part, and a name that starts with [/] replaces
    [out_dir] *)
Definition joinpath (d : Path) (n : string) : Path :=
  match root_of n with
  | Some r => r :: parse_parts n
  | None => d ++ parse_parts n
  end.

(** [q] lies strictly below [d] *)
Fixpoint below (d q : Path) : bool :=
  match d, q with
  | [], [] => false
  | [], _ :: _ => true
  | _ :: _, [] => false
  | a :: d', b :: q' => String.eqb a b && below d' q'
  end.

(** the order of [sorted] on paths: parts compared lexicographically *)
Fixpoint leb (p q : Path) : bool :=
  match p, q with
  | [], _ => true
  | _ :: _, [] => false
  | a :: p', b :: q' =>
      match String.compare a b with
      | Lt => true
      | Gt => false
      | Eq => leb p' q'
      end
  end.

End pathlib.

Abbreviation Path := pathlib.Path.

(* ------------------------------------------------------------------ *)
(** ** Python's stable sort *)

Section Sorting.
Variable A : Type.
Variable le : A -> A -> bool.

(** insertion after the elements that are not greater: stable *)
Fixpoint insert_sorted (x : A) (l : list A) : list A :=
  match l with
  | [] => [x]
  | y :: t => if le y x then y :: insert_sorted x t else x :: l
  end.

Fixpoint sort_acc (l acc : list A) : list A :=
  match l with
  | [] => acc
  | x :: t => sort_acc t (insert_sorted x acc)
  end.

Definition sorted (l : list A) : list A := sort_acc l [].
End Sorting.

(** [l.sort(key=lambda x: str(f x))] *)
Definition sort_by_str (A : Type) (f : A -> Path) (l : list A) : list A :=
  sorted (fun x y => String.leb (pathlib.str (f x)) (pathlib.str (f y))) l.

(* ------------------------------------------------------------------ *)
(** ** Exceptions and results *)

(** [img.size]: (width, height) *)
Definition Size := (nat * nat)%type.

Definition Size_eqb (a b : Size) : bool :=
  Nat.eqb (fst a) (fst b) && Nat.eqb (snd a) (snd b).

(** The messages of the [AlphaIOError]s the core raises, one per raise
    site of the source. *)
Inductive AlphaIOErrorMsg :=
| Failed_to_load_image (path : Path)
| Refusing_to_overwrite (path : Path)
| Failed_to_save_PNG (path : Path)
| Image_has_no_alpha_channel
| Mask_size_does_not_match (mask_size rgb_size : Size)
| threshold_must_be_between_0_and_255
| tolerance_must_be_between_0_and_255
| Unknown_generation_kind (kind : string).

Inductive Exception :=
| AlphaIOError (msg : AlphaIOErrorMsg)
| ValueError
| IndexError
| OverflowError
| OSError.

Inductive result (A : Type) :=
| Ok (a : A)
| Raise (e : Exception).

Arguments Ok {A} a.
Arguments Raise {A} e.

Definition bind (A B : Type) (r : result A) (k : A -> result B) : result B :=
  match r with
  | Ok a => k a
  | Raise e => Raise e
  end.

Declare Scope result_scope.
Delimit Scope result_scope with result.
Notation "x <- r ;; k" := (bind r (fun x => k))
  (at level 61, r at next level, right associativity) : result_scope.

(* ------------------------------------------------------------------ *)
(** ** The image codec (Pillow), as far as the core uses it *)

Module PIL.

Definition RGBpx := (Z * Z * Z)%type.
Definition RGBApx := (Z * Z * Z * Z)%type.

(** A decoded raster, by mode.  A palette entry is an RGBA colour;
    a P image holds palette indices. *)
Inductive Image :=
| ImgL (size : Size) (px : list Z)
| ImgLA (size : Size) (px : list (Z * Z))
| ImgP (size : Size) (palette : list RGBApx) (px : list nat)
| ImgRGB (size : Size) (px : list RGBpx)
| ImgRGBA (size : Size) (px : list RGBApx).

Definition mode (img : Image) : string :=
  match img with
  | ImgL _ _ => "L"
  | ImgLA _ _ => "LA"
  | ImgP _ _ _ => "P"
  | ImgRGB _ _ => "RGB"
  | ImgRGBA _ _ => "RGBA"
  end.

Definition getbands (img : Image) : list string :=
  match img with
  | ImgL _ _ => ["L"]
  | ImgLA _ _ => ["L"; "A"]
  | ImgP _ _ _ => ["P"]
  | ImgRGB _ _ => ["R"; "G"; "B"]
  | ImgRGBA _ _ => ["R"; "G"; "B"; "A"]
  end%string.

Definition size (img : Image) : Size :=
  match img with
  | ImgL s _ | ImgLA s _ | ImgP s _ _ | ImgRGB s _ | ImgRGBA s _ => s
  end.

(** ITU-R 601-2 luma, in the codec's fixed-point form *)
Definition luma (c : RGBpx) : Z :=
  let '(r, g, b) := c in
  Z.shiftr (r * 19595 + g * 38470 + b * 7471 + 32768) 16.

Definition drop_alpha (c : RGBApx) : RGBpx :=
  let '(r, g, b, _) := c in (r, g, b).

Definition opaque (c : RGBpx) : RGBApx :=
  let '(r, g, b) := c in (r, g, b, 255%Z).

Definition grey (l : Z) : RGBpx := (l, l, l).

Definition lookup (palette : list RGBApx) (i : nat) : RGBApx :=
  nth i palette (0, 0, 0, 255)%Z.

(** [img.convert("RGBA")]: alpha is kept where the mode has one and
    set to 255 where it has none.  An image of mode L or RGB carries no
    transparent colour here ([info["transparency"]], the tRNS chunk of a
    PNG), which the codec would turn into alpha 0. *)
Definition convert_RGBA (img : Image) : Image :=
  match img with
  | ImgL s px => ImgRGBA s (map (fun l => opaque (grey l)) px)
  | ImgLA s px => ImgRGBA s (map (fun la => (fst la, fst la, fst la, snd la)) px)
  | ImgP s pal px => ImgRGBA s (map (lookup pal) px)
  | ImgRGB s px => ImgRGBA s (map opaque px)
  | ImgRGBA s px => ImgRGBA s px
  end.

(** [img.convert("RGB")]: alpha is dropped *)
Definition convert_RGB (img : Image) : Image :=
  match img with
  | ImgL s px => ImgRGB s (map grey px)
  | ImgLA s px => ImgRGB s (map (fun la => grey (fst la)) px)
  | ImgP s pal px => ImgRGB s (map (fun i => drop_alpha (lookup pal i)) px)
  | ImgRGB s px => ImgRGB s px
  | ImgRGBA s px => ImgRGB s (map drop_alpha px)
  end.

(** [img.convert("L")]: luma of the colour channels *)
Definition convert_L (img : Image) : Image :=
  match img with
  | ImgL s px => ImgL s px
  | ImgLA s px => ImgL s (map fst px)
  | ImgP s pal px => ImgL s (map (fun i => luma (drop_alpha (lookup pal i))) px)
  | ImgRGB s px => ImgL s (map luma px)
  | ImgRGBA s px => ImgL s (map (fun c => luma (drop_alpha c)) px)
  end.

(** [img.split()]: one single-band image per band *)
Definition split (img : Image) : list Image :=
  match img with
  | ImgL s px => [ImgL s px]
  | ImgLA s px => [ImgL s (map fst px); ImgL s (map snd px)]
  | ImgP s pal px => [ImgP s pal px]
  | ImgRGB s px =>
      [ImgL s (map (fun c => fst (fst c)) px);
       ImgL s (map (fun c => snd (fst c)) px);
       ImgL s (map (fun c => snd c) px)]
  | ImgRGBA s px =>
      [ImgL s (map (fun c => fst (fst (fst c))) px);
       ImgL s (map (fun c => snd (fst (fst c))) px);
       ImgL s (map (fun c => snd (fst c)) px);
       ImgL s (map (fun c => snd c) px)]
  end.

Fixpoint zip3 (r g b : list Z) : list RGBpx :=
  match r, g, b with
  | x :: r', y :: g', z :: b' => (x, y, z) :: zip3 r' g' b'
  | _, _, _ => []
  end.

Fixpoint zip4 (r g b a : list Z) : list RGBApx :=
  match r, g, b, a with
  | x :: r', y :: g', z :: b', w :: a' => (x, y, z, w) :: zip4 r' g' b' a'
  | _, _, _, _ => []
  end.

(** [Image.merge("RGB", bands)]: three L bands of one size *)
Definition merge_RGB (bands : list Image) : result Image :=
  match bands with
  | [ImgL s r; ImgL sg g; ImgL sb b] =>
      if Size_eqb sg s && Size_eqb sb s then Ok (ImgRGB s (zip3 r g b))
      else Raise ValueError
  | _ => Raise ValueError
  end.

(** [Image.merge("RGBA", bands)]: four L bands of one size *)
Definition merge_RGBA (bands : list Image) : result Image :=
  match bands with
  | [ImgL s r; ImgL sg g; ImgL sb b; ImgL sa a] =>
      if Size_eqb sg s && Size_eqb sb s && Size_eqb sa s
      then Ok (ImgRGBA s (zip4 r g b a))
      else Raise ValueError
  | _ => Raise ValueError
  end.

(** [Image.new("L", size, color)] *)
Definition new_L (s : Size) (color : Z) : Image :=
  ImgL s (repeat color (fst s * snd s)).

(** [Image.eval(img, f)]: [f] on every sample of every band *)
Definition eval (img : Image) (f : Z -> Z) : Image :=
  match img with
  | ImgL s px => ImgL s (map f px)
  | ImgLA s px => ImgLA s (map (fun la => (f (fst la), f (snd la))) px)
  | ImgP s pal px => ImgP s pal (map (fun i => Z.to_nat (f (Z.of_nat i))) px)
  | ImgRGB s px => ImgRGB s (map (fun '(r, g, b) => (f r, f g, f b)) px)
  | ImgRGBA s px => ImgRGBA s (map (fun '(r, g, b, a) => (f r, f g, f b, f a)) px)
  end.

(** the channel vector of every pixel, row-major *)
Definition pixels (img : Image) : list (list Z) :=
  match img with
  | ImgL _ px => map (fun l => [l]) px
  | ImgLA _ px => map (fun la => [fst la; snd la]) px
  | ImgP _ _ px => map (fun i => [Z.of_nat i]) px
  | ImgRGB _ px => map (fun '(r, g, b) => [r; g; b]) px
  | ImgRGBA _ px => map (fun '(r, g, b, a) => [r; g; b; a]) px
  end.

Inductive Resampling := NEAREST | BILINEAR.

(** An 8-bit sample *)
Definition u8 (z : Z) : Prop := (0 <= z <= 255)%Z.

Definition u8_rgb (c : RGBpx) : Prop :=
  let '(r, g, b) := c in u8 r /\ u8 g /\ u8 b.

Definition u8_rgba (c : RGBApx) : Prop :=
  let '(r, g, b, a) := c in u8 r /\ u8 g /\ u8 b /\ u8 a.

(** every sample of the image (and of its palette) is a byte *)
Definition wf_image (img : Image) : Prop :=
  match img with
  | ImgL _ px => Forall u8 px
  | ImgLA _ px => Forall (fun la => u8 (fst la) /\ u8 (snd la)) px
  | ImgP _ pal _ => Forall u8_rgba pal
  | ImgRGB _ px => Forall u8_rgb px
  | ImgRGBA _ px => Forall u8_rgba px
  end.

End PIL.

Abbreviation Image := PIL.Image.


(* ------------------------------------------------------------------ *)
(** ** The array library (numpy), as far as the core uses it *)

(** Python's [float] and its operations.  The rules of the validate
    engine only compare floats; the statistics divide and take a square
    root.  Nothing is assumed of an instance. *)
Class FloatOps (F : Type) := {
  of_int : Z -> F;
  fadd : F -> F -> F;
  fsub : F -> F -> F;
  fmul : F -> F -> F;
  fdiv : F -> F -> F;
  fsqrt : F -> F;
  fleb : F -> F -> bool;
  fltb : F -> F -> bool
}.

(** Exact real arithmetic, without rounding: not what a run computes *)
#[export] Instance exact : FloatOps R := {
  of_int := IZR;
  fadd := Rplus;
  fsub := Rminus;
  fmul := Rmult;
  fdiv := Rdiv;
  fsqrt := sqrt;
  fleb := fun a b => if Rle_dec a b then true else false;
  fltb := fun a b => if Rlt_dec a b then true else false
}.

(** IEEE 754 binary64, the floats of a run *)
Definition float_of_Z (z : Z) : PrimFloat.float :=
  match z with
  | Zneg p => PrimFloat.opp (PrimFloat.of_uint63 (Uint63.of_Z (Zpos p)))
  | _ => PrimFloat.of_uint63 (Uint63.of_Z z)
  end.

#[export] Instance binary64 : FloatOps PrimFloat.float := {
  of_int := float_of_Z;
  fadd := PrimFloat.add;
  fsub := PrimFloat.sub;
  fmul := PrimFloat.mul;
  fdiv := PrimFloat.div;
  fsqrt := PrimFloat.sqrt;
  fleb := PrimFloat.leb;
  fltb := PrimFloat.ltb
}.

(** The same floats, seen as the real numbers they are: every operation
    returns the double nearest to the exact result (a significand of 53
    bits, ties to even).  The exponent range of binary64 is left out: the
    statistics of an image stay far from overflow and underflow. *)
Module fp.

(** [2 ^ e] *)
Definition bpow (e : Z) : R := powerRZ 2 e.

(** the exponent of [x]: [2 ^ (mag x - 1) <= |x| < 2 ^ mag x] *)
Definition mag (x : R) : Z := up (ln (Rabs x) / ln 2).

(** the integer nearest to [m], the even one of two equally near *)
Definition rint (m : R) : Z :=
  let f := Zfloor m in
  if Rlt_dec (m - IZR f) (/ 2) then f
  else if Rlt_dec (/ 2) (m - IZR f) then (f + 1)%Z
  else if Z.even f then f else (f + 1)%Z.

(** the double nearest to [x] *)
Definition rnd (x : R) : R :=
  (IZR (rint (x * bpow (53 - mag x))) * bpow (mag x - 53))%R.

End fp.

Definition rounded : FloatOps R := {|
  of_int := fun z => fp.rnd (IZR z);
  fadd := fun a b => fp.rnd (a + b);
  fsub := fun a b => fp.rnd (a - b);
  fmul := fun a b => fp.rnd (a * b);
  fdiv := fun a b => fp.rnd (a / b);
  fsqrt := fun a => fp.rnd (sqrt a);
  fleb := fun a b => if Rle_dec a b then true else false;
  fltb := fun a b => if Rlt_dec a b then true else false
|}.

(** the real number a double is (0 for the infinities and NaN) *)
Definition to_R (f : PrimFloat.float) : R :=
  match FloatOps.Prim2SF f with
  | SpecFloat.S754_finite s m e =>
      ((if s then - IZR (Zpos m) else IZR (Zpos m)) * fp.bpow e)%R
  | _ => 0%R
  end.

Module np.

(** an h x w array of uint8: [shape2] is (rows, columns), [data2] the
    elements in row-major order *)
Record array2 := mk_array2 { shape2 : nat * nat; data2 : list Z }.

(** an h x w x c array of int16: one channel vector per pixel *)
Record array3 := mk_array3 { shape3 : nat * nat * nat; vecs : list (list Z) }.

(** two's-complement wrap-around of a 16-bit integer *)
Definition int16 (z : Z) : Z := ((z + 32768) mod 65536 - 32768)%Z.

Definition uint8 (z : Z) : Z := (z mod 256)%Z.

(** [np.asarray(img, dtype=np.uint8)] of a single-band image: its
    samples, as bytes *)
Definition asarray_uint8 (img : Image) : array2 :=
  {| shape2 := (snd (PIL.size img), fst (PIL.size img));
     data2 := map uint8 (concat (PIL.pixels img)) |}.

(** [np.asarray(img, dtype=np.int16)] of a multi-band image *)
Definition asarray_int16 (img : Image) : array3 :=
  {| shape3 := (snd (PIL.size img), fst (PIL.size img), length (PIL.getbands img));
     vecs := map (map int16) (PIL.pixels img) |}.

(** [np.array(key_rgb, dtype=np.int16)]: a Python int that does not fit
    is refused *)
Definition array_int16 (key_rgb : Z * Z * Z) : result (list Z) :=
  let '(r, g, b) := key_rgb in
  if forallb (fun k => (-32768 <=? k)%Z && (k <=? 32767)%Z) [r; g; b]
  then Ok [r; g; b]
  else Raise OverflowError.

Fixpoint zip_with (f : Z -> Z -> Z) (u v : list Z) : list Z :=
  match u, v with
  | x :: u', y :: v' => f x y :: zip_with f u' v'
  | _, _ => []
  end.

(** [arr - key], [key] broadcast along the last axis, in int16 *)
Definition sub_key (arr : array3) (key : list Z) : array3 :=
  {| shape3 := shape3 arr;
     vecs := map (fun v => zip_with (fun a k => int16 (a - k)) v key) (vecs arr) |}.

(** [np.abs(arr)], in int16 *)
Definition abs (arr : array3) : array3 :=
  {| shape3 := shape3 arr;
     vecs := map (map (fun d => int16 (Z.abs d))) (vecs arr) |}.

Definition max_list (v : list Z) : Z :=
  match v with
  | [] => 0%Z
  | x :: t => fold_left Z.max t x
  end.

(** [arr.max(axis=2)] *)
Definition max_axis2 (arr : array3) : array2 :=
  {| shape2 := fst (shape3 arr); data2 := map max_list (vecs arr) |}.

(** [np.where(cond(arr), a, b).astype(np.uint8)] *)
Definition where_ (cond : Z -> bool) (arr : array2) (a b : Z) : array2 :=
  {| shape2 := shape2 arr;
     data2 := map (fun v => uint8 (if cond v then a else b)) (data2 arr) |}.

(** [Image.fromarray(arr, mode="L")] *)
Definition fromarray_L (arr : array2) : Image :=
  PIL.ImgL (snd (shape2 arr), fst (shape2 arr)) (data2 arr).

(** [arr.size] *)
Definition size (arr : array2) : nat := length (data2 arr).

(** [arr.min()], [arr.max()]: a zero-size array has none *)
Definition min (arr : array2) : result Z :=
  match data2 arr with
  | [] => Raise ValueError
  | x :: t => Ok (fold_left Z.min t x)
  end.

Definition max (arr : array2) : result Z :=
  match data2 arr with
  | [] => Raise ValueError
  | x :: t => Ok (fold_left Z.max t x)
  end.

(** [(cond(arr)).sum()]: the number of elements that satisfy [cond] *)
Definition count (cond : Z -> bool) (arr : array2) : Z :=
  Z.of_nat (length (filter cond (data2 arr))).

Definition sum (l : list Z) : Z := fold_left Z.add l 0%Z.

Section Reductions.
Context {F : Type} {fl : FloatOps F}.

Definition fsum (l : list F) : F := fold_left fadd l (of_int 0).

(** [arr.mean()]: the sum, accumulated in float64, over the count.  The
    sum of fewer than 2^45 bytes is below 2^53, so every partial sum is a
    double and the order of the additions does not matter. *)
Definition mean (arr : array2) : F :=
  fdiv (of_int (sum (data2 arr))) (of_int (Z.of_nat (size arr))).

(** [arr.std()]: the population standard deviation.  The squares are
    added from left to right; numpy adds them pairwise, which can differ
    in the last bit. *)
Definition std (arr : array2) : F :=
  let m := mean arr in
  let sq := map (fun x => let d := fsub (of_int x) m in fmul d d) (data2 arr) in
  fsqrt (fdiv (fsum sq) (of_int (Z.of_nat (size arr)))).

End Reductions.

End np.

(* ------------------------------------------------------------------ *)
(** ** The file system *)

Module fs.

Inductive Content :=
| Encoded (img : Image)     (* a file the codec decodes to [img] *)
| Undecodable.              (* any other file *)

Inductive Node :=
| Dir
| File (c : Content).

(** [nodes]: what exists, one entry per path; [resolve]: the canonical
    absolute form of a path, as [str(p.resolve())] gives it.  A file is
    read and written under the path as given: links are not modelled. *)
Record FileSystem := mkFS {
  nodes : list (Path * Node);
  resolve : Path -> string
}.

Fixpoint assoc (l : list (Path * Node)) (p : Path) : option Node :=
  match l with
  | [] => None
  | (q, n) :: t => if pathlib.Path_eqb q p then Some n else assoc t p
  end.

Definition lookup (s : FileSystem) (p : Path) : option Node := assoc (nodes s) p.

(** [p.exists()], [p.is_file()], [p.is_dir()].  The file system answers
    for every path: an [OSError] other than "not found", which these
    calls let through (a name too long, say), is not modelled. *)
Definition exists_ (s : FileSystem) (p : Path) : bool :=
  match lookup s p with Some _ => true | None => false end.

Definition is_file (s : FileSystem) (p : Path) : bool :=
  match lookup s p with Some (File _) => true | _ => false end.

Definition is_dir (s : FileSystem) (p : Path) : bool :=
  match lookup s p with Some Dir => true | _ => false end.

(** [p.rglob("*")]: everything below [p] *)
Definition rglob (s : FileSystem) (p : Path) : list Path :=
  filter (pathlib.below p) (map fst (nodes s)).

Definition put (s : FileSystem) (p : Path) (n : Node) : FileSystem :=
  {| nodes := (p, n) :: filter (fun e => negb (pathlib.Path_eqb (fst e) p)) (nodes s);
     resolve := resolve s |}.

(** [p], its parent, its parent's parent, ... from the top down *)
Definition ancestors_and_self (p : Path) : list Path :=
  map (fun n => firstn n p) (seq 1 (length p)).

(** [path.mkdir(parents=True, exist_ok=True)] *)
Fixpoint mkdir_each (qs : list Path) (s : FileSystem) : FileSystem * result unit :=
  match qs with
  | [] => (s, Ok tt)
  | q :: rest =>
      match lookup s q with
      | Some Dir => mkdir_each rest s
      | Some (File _) => (s, Raise OSError)
      | None => mkdir_each rest (put s q Dir)
      end
  end.

Definition mkdir_parents (p : Path) (s : FileSystem) : FileSystem * result unit :=
  mkdir_each (ancestors_and_self p) s.

(** [Image.open(path)] and [img.load()] *)
Definition open_image (s : FileSystem) (p : Path) : option Image :=
  match lookup s p with
  | Some (File (Encoded img)) => Some img
  | _ => None
  end.

(** [img.save(path, format="PNG")]: [None] when the path cannot be
    written as a file.  An encoder that fails after it has opened the
    file (an image without pixels, a full disk) is not modelled. *)
Definition write_png (img : Image) (p : Path) (s : FileSystem) : option FileSystem :=
  if is_dir s p then None else Some (put s p (File (Encoded img))).

End fs.

Abbreviation FileSystem := fs.FileSystem.

(** A computation on the file system: the new file system comes back
    also when the computation raises. *)
Definition IO (A : Type) : Type := FileSystem -> FileSystem * result A.

Definition ret (A : Type) (a : A) : IO A := fun s => (s, Ok a).

Definition raise (A : Type) (e : Exception) : IO A := fun s => (s, Raise e).

Definition bindIO (A B : Type) (m : IO A) (k : A -> IO B) : IO B :=
  fun s =>
    match m s with
    | (s', Ok a) => k a s'
    | (s', Raise e) => (s', Raise e)
    end.

Definition lift (A : Type) (r : result A) : IO A := fun s => (s, r).

Declare Scope io_scope.
Delimit Scope io_scope with io.
Notation "x <-- m ;; k" := (bindIO m (fun x => k))
  (at level 61, m at next level, right associativity) : io_scope.
Notation "m ;;; k" := (bindIO m (fun _ => k))
  (at level 61, right associativity) : io_scope.


(* ------------------------------------------------------------------ *)
(** ** io.py: load/save helpers *)

Module io.

Definition SUPPORTED_IMAGE_EXTS : list string :=
  [".png"; ".tga"; ".tif"; ".tiff"; ".bmp"; ".webp"; ".jpg"; ".jpeg"]%string.

Definition is_image_file (s : FileSystem) (path : Path) : bool :=
  fs.is_file s path
  && existsb (String.eqb (pystr.lower (pathlib.suffix path))) SUPPORTED_IMAGE_EXTS.

Definition load_image (path : Path) : IO Image :=
  fun s =>
    match fs.open_image s path with
    | Some img => (s, Ok img)
    | None => (s, Raise (AlphaIOError (Failed_to_load_image path)))
    end.

Definition ensure_rgba (img : Image) : Image :=
  if String.eqb (PIL.mode img) "RGBA" then img
  else if String.eqb (PIL.mode img) "P" then PIL.convert_RGBA img
  else PIL.convert_RGBA img.

Definition ensure_rgb (img : Image) : Image :=
  if String.eqb (PIL.mode img) "RGB" then img
  else if String.eqb (PIL.mode img) "RGBA" then PIL.convert_RGB img
  else if String.eqb (PIL.mode img) "P" then PIL.convert_RGB img
  else PIL.convert_RGB img.

(** Ensure 8-bit grayscale. *)
Definition ensure_l (img : Image) : Image :=
  if String.eqb (PIL.mode img) "L" then img
  else if String.eqb (PIL.mode img) "RGBA" then PIL.convert_L (PIL.convert_RGB img)
  else if String.eqb (PIL.mode img) "RGB" then PIL.convert_L img
  else PIL.convert_L img.

Definition save_png (img : Image) (path : Path) (overwrite : bool) : IO unit :=
  fun s =>
    if fs.exists_ s path && negb overwrite
    then (s, Raise (AlphaIOError (Refusing_to_overwrite path)))
    else
      match fs.mkdir_parents (pathlib.parent path) s with
      | (s1, Raise e) => (s1, Raise e)
      | (s1, Ok _) =>
          match fs.write_png img path s1 with
          | Some s2 => (s2, Ok tt)
          | None => (s1, Raise (AlphaIOError (Failed_to_save_PNG path)))
          end
      end.

Definition save_mask_png (mask : Image) (path : Path) (overwrite : bool) : IO unit :=
  let mask_l := ensure_l mask in
  save_png mask_l path overwrite.

Definition infer_output_path (in_path out_dir : Path) (suffix ext : string) : Path :=
  let stem := pathlib.stem in_path in
  pathlib.joinpath out_dir (String.append stem (String.append suffix ext)).

(** the "unique (stable)" loop: [seen] holds the resolved paths met *)
Fixpoint unique_stable (s : FileSystem) (out : list Path) (seen : list string)
  : list Path :=
  match out with
  | [] => []
  | p :: rest =>
      let key := fs.resolve s p in
      if existsb (String.eqb key) seen
      then unique_stable s rest seen
      else p :: unique_stable s rest (key :: seen)
  end.

(** Expand directories into contained images; return sorted unique list. *)
Definition expand_inputs (s : FileSystem) (paths : list Path) : list Path :=
  let out :=
    flat_map
      (fun p =>
         if fs.is_dir s p
         then filter (is_image_file s) (sorted pathlib.leb (fs.rglob s p))
         else if is_image_file s p then [p] else [])
      paths in
  unique_stable s out [].

End io.

(* ------------------------------------------------------------------ *)
(** ** The batch driver's view of its caller *)

(** One call of [progress_cb(done, total, path, message)] *)
Record ProgressCall := mkProgress {
  pc_done : nat;
  pc_total : nat;
  pc_path : Path;
  pc_message : string
}.

(** [cancel_flag]: [None], or an event whose [is_set()] answers
    [f i] when asked before item [i] (counted from 1) *)
Definition CancelFlag := option (nat -> bool).

Definition is_cancelled (cancel_flag : CancelFlag) (i : nat) : bool :=
  match cancel_flag with
  | Some f => f i
  | None => false
  end.

(** [if progress_cb: progress_cb(...)]: the calls made, oldest first *)
Definition report (progress_cb : bool) (trace : list ProgressCall)
    (done total : nat) (p : Path) (msg : string) : list ProgressCall :=
  if progress_cb then trace ++ [mkProgress done total p msg] else trace.

Arguments report : simpl never.

(** What a batch leaves behind: the file system, the progress calls it
    made, and the list it returns or the exception it raises. *)
Record Batch (A : Type) := mkBatch {
  b_fs : FileSystem;
  b_trace : list ProgressCall;
  b_result : result (list A)
}.


(* ------------------------------------------------------------------ *)
(** ** naming.py: file pairing rules *)

Module naming.

Record PairingRule := mkRule {
  mode : string;            (* "suffix", "folder" or "exact" *)
  alpha_suffix : string;
  rgb_suffix : string;
  rgb_dir_name : string;
  alpha_dir_name : string;
  case_sensitive : bool
}.

Definition default_rule : PairingRule :=
  {| mode := "suffix"; alpha_suffix := "_alpha"; rgb_suffix := "";
     rgb_dir_name := "rgb"; alpha_dir_name := "alpha";
     case_sensitive := false |}.

Definition _norm (s : string) (case_sensitive : bool) : string :=
  if case_sensitive then s else pystr.lower s.

Definition list_images (s : FileSystem) (paths : list Path) : list Path :=
  io.expand_inputs s paths.

(** [parts.index(x)]; [None] is its ValueError *)
Fixpoint index (parts : list string) (x : string) : option nat :=
  match parts with
  | [] => None
  | y :: t => if String.eqb y x then Some 0%nat else option_map S (index t x)
  end.

Definition _key_for_path (p : Path) (rule : PairingRule) (is_alpha : bool)
  : result string :=
  let stem := pathlib.stem p in
  if String.eqb (mode rule) "suffix" then
    (* remove suffixes to get the "base" key *)
    let s := stem in
    let s :=
      if is_alpha && pystr.truthy (alpha_suffix rule)
         && pystr.endswith s (alpha_suffix rule)
      then pystr.drop_last (String.length (alpha_suffix rule)) s else s in
    let s :=
      if negb is_alpha && pystr.truthy (rgb_suffix rule)
         && pystr.endswith s (rgb_suffix rule)
      then pystr.drop_last (String.length (rgb_suffix rule)) s else s in
    Ok (_norm s (case_sensitive rule))
  else if String.eqb (mode rule) "folder" then
    (* key is relative path under rgb/alpha, without extension *)
    let parts := p in
    let dir_name := if is_alpha then alpha_dir_name rule else rgb_dir_name rule in
    let in_try :=
      match index parts dir_name with
      | Some idx => option_map pathlib.str (pathlib.with_suffix_empty (skipn (idx + 1) parts))
      | None => None
      end in
    match in_try with
    | Some rel => Ok (_norm rel (case_sensitive rule))
    | None =>
        (* fallback: just name *)
        match pathlib.with_suffix_empty p with
        | Some q => Ok (_norm (pathlib.name q) (case_sensitive rule))
        | None => Raise ValueError
        end
    end
  else
    (* exact *)
    Ok (_norm stem (case_sensitive rule)).

(** A [dict[str, Path]], in insertion order *)
Definition Dict := list (string * Path).

Fixpoint get (d : Dict) (k : string) : option Path :=
  match d with
  | [] => None
  | (k', v) :: t => if String.eqb k' k then Some v else get t k
  end.

(** [k in d] *)
Definition contains (d : Dict) (k : string) : bool :=
  match get d k with Some _ => true | None => false end.

(** [d.setdefault(k, v)] *)
Definition setdefault (d : Dict) (k : string) (v : Path) : Dict :=
  if contains d k then d else d ++ [(k, v)].

(** [k in used], [used.add(k)] on a [set[str]] *)
Definition mem (used : list string) (k : string) : bool :=
  existsb (String.eqb k) used.

Definition add (used : list string) (k : string) : list string :=
  if mem used k then used else k :: used.

(** the two loops that fill [rgb_map] and [alpha_map] *)
Fixpoint fill_map (s : FileSystem) (rule : PairingRule) (is_alpha : bool)
    (paths : list Path) (d : Dict) : result Dict :=
  match paths with
  | [] => Ok d
  | p :: rest =>
      if io.is_image_file s p then
        (k <- _key_for_path p rule is_alpha ;;
         fill_map s rule is_alpha rest (setdefault d k p))%result
      else fill_map s rule is_alpha rest d
  end.

(** the loop over [rgb_map.items()] *)
Fixpoint match_loop (alpha_map : Dict) (items : Dict)
    (pairs : list (Path * Path)) (used_alpha : list string)
  : list (Path * Path) * list string :=
  match items with
  | [] => (pairs, used_alpha)
  | (k, rgb_p) :: rest =>
      match get alpha_map k with
      | Some a => match_loop alpha_map rest (pairs ++ [(rgb_p, a)]) (add used_alpha k)
      | None => match_loop alpha_map rest pairs used_alpha
      end
  end.

Definition build_pairs (s : FileSystem) (rgb_paths alpha_paths : list Path)
    (rule : PairingRule)
  : result (list (Path * Path) * list Path * list Path) :=
  (rgb_map <- fill_map s rule false rgb_paths [] ;;
   alpha_map <- fill_map s rule true alpha_paths [] ;;
   let '(pairs, used_alpha) := match_loop alpha_map rgb_map [] [] in
   let unpaired_rgb :=
     map snd (filter (fun kp => negb (mem used_alpha (fst kp))
                                && negb (contains alpha_map (fst kp))) rgb_map) in
   let unpaired_alpha :=
     map snd (filter (fun kp => negb (mem used_alpha (fst kp))) alpha_map) in
   Ok (sort_by_str fst pairs,
       sort_by_str (fun p => p) unpaired_rgb,
       sort_by_str (fun p => p) unpaired_alpha))%result.

End naming.

(* ------------------------------------------------------------------ *)
(** ** ops_split.py: split alpha to mask *)

Module ops_split.

Definition split_alpha (img : Image) (on_missing_alpha : string)
  : result (Image * Image) :=
  let rgba := io.ensure_rgba img in
  if negb (existsb (String.eqb "A") (PIL.getbands rgba)) then
    if String.eqb on_missing_alpha "error"
    then Raise (AlphaIOError Image_has_no_alpha_channel)
    else
      let rgb := io.ensure_rgb rgba in
      let alpha := PIL.new_L (PIL.size rgba) 255 in
      Ok (rgb, alpha)
  else
    match PIL.split rgba with
    | [r; g; b; a] =>
        (rgb <- PIL.merge_RGB [r; g; b] ;;
         Ok (rgb, a))%result
    | _ => Raise ValueError
    end.

Definition split_alpha_file (in_path out_rgb_path out_alpha_path : Path)
    (overwrite : bool) (on_missing_alpha : string) : IO unit :=
  (img <-- io.load_image in_path ;;
   ra <-- lift (split_alpha img on_missing_alpha) ;;
   io.save_png (fst ra) out_rgb_path overwrite ;;;
   io.save_mask_png (snd ra) out_alpha_path overwrite)%io.

Section Batch.
Variables (out_dir : Path) (rgb_suffix alpha_suffix : string).
Variables (overwrite : bool) (on_missing_alpha : string).
Variables (continue_on_error progress_cb : bool) (cancel_flag : CancelFlag).

(** the [for i, p in enumerate(files, start=1)] loop *)
Fixpoint split_loop (files : list Path) (i total : nat)
    (outputs : list Path) (trace : list ProgressCall) (s : FileSystem)
  : Batch Path :=
  match files with
  | [] => mkBatch s trace (Ok outputs)
  | p :: rest =>
      if is_cancelled cancel_flag i then mkBatch s trace (Ok outputs)
      else
        let trace := report progress_cb trace (i - 1) total p "Splitting alpha" in
        let out_rgb := io.infer_output_path p out_dir rgb_suffix ".png" in
        let out_a := io.infer_output_path p out_dir alpha_suffix ".png" in
        match split_alpha_file p out_rgb out_a overwrite on_missing_alpha s with
        | (s', Ok _) =>
            split_loop rest (S i) total (outputs ++ [out_rgb; out_a])
              (report progress_cb trace i total p "Done") s'
        | (s', Raise e) =>
            if negb continue_on_error then mkBatch s' trace (Raise e)
            else (* otherwise skip and continue *)
              split_loop rest (S i) total outputs trace s'
        end
  end.

Definition split_alpha_files (in_paths : list Path) (s : FileSystem) : Batch Path :=
  let files := io.expand_inputs s in_paths in
  let total := length files in
  split_loop files 1 total [] [] s.

End Batch.

End ops_split.

(* ------------------------------------------------------------------ *)
(** ** ops_combine.py: combine rgb + mask into rgba *)

Module ops_combine.

Section Combine.
(** [img.resize(size, resample=filter)], the codec's resampler *)
Variable resize : Image -> Size -> PIL.Resampling -> Image.

Definition _resample_to_pil (resample : string) : PIL.Resampling :=
  if String.eqb resample "bilinear" then PIL.BILINEAR else PIL.NEAREST.

Definition combine_alpha (rgb_img alpha_mask : Image) (invert : bool)
    (resize_mode resample : string) : result Image :=
  let rgb := io.ensure_rgb rgb_img in
  let mask := io.ensure_l alpha_mask in
  (mask <-
     (if negb (Size_eqb (PIL.size mask) (PIL.size rgb)) then
        if String.eqb resize_mode "error"
        then Raise (AlphaIOError (Mask_size_does_not_match (PIL.size mask) (PIL.size rgb)))
        else Ok (resize mask (PIL.size rgb) (_resample_to_pil resample))
      else Ok mask) ;;
   let mask := if invert then PIL.eval mask (fun v => 255 - v)%Z else mask in
   match PIL.split rgb with
   | [r; g; b] => PIL.merge_RGBA [r; g; b; mask]
   | _ => Raise ValueError
   end)%result.

Definition combine_alpha_file (rgb_path alpha_path out_path : Path)
    (invert : bool) (resize_mode resample : string) (overwrite : bool) : IO unit :=
  (rgb <-- io.load_image rgb_path ;;
   a <-- io.load_image alpha_path ;;
   out <-- lift (combine_alpha rgb a invert resize_mode resample) ;;
   io.save_png out out_path overwrite)%io.

Variables (out_dir : Path) (out_suffix : string) (invert : bool).
Variables (resize_mode resample : string) (overwrite : bool).
Variables (continue_on_error progress_cb : bool) (cancel_flag : CancelFlag).

Fixpoint combine_loop (pairs : list (Path * Path)) (i total : nat)
    (outputs : list Path) (trace : list ProgressCall) (s : FileSystem)
  : Batch Path :=
  match pairs with
  | [] => mkBatch s trace (Ok outputs)
  | (rgb_p, a_p) :: rest =>
      if is_cancelled cancel_flag i then mkBatch s trace (Ok outputs)
      else
        let trace := report progress_cb trace (i - 1) total rgb_p "Combining alpha" in
        let out_path := io.infer_output_path rgb_p out_dir out_suffix ".png" in
        match combine_alpha_file rgb_p a_p out_path invert resize_mode resample
                overwrite s with
        | (s', Ok _) =>
            combine_loop rest (S i) total (outputs ++ [out_path])
              (report progress_cb trace i total rgb_p "Done") s'
        | (s', Raise e) =>
            if negb continue_on_error then mkBatch s' trace (Raise e)
            else combine_loop rest (S i) total outputs trace s'
        end
  end.

Definition combine_alpha_files (pairs : list (Path * Path)) (s : FileSystem)
  : Batch Path :=
  let total := length pairs in
  combine_loop pairs 1 total [] [] s.

End Combine.

End ops_combine.

(* ------------------------------------------------------------------ *)
(** ** ops_generate.py: luminance/key/threshold alpha generators *)

Module ops_generate.

Record GenerateOptions := mkOptions {
  kind : string;                 (* "luminance", "threshold" or "colorkey" *)
  threshold : Z;                 (* 0..255 *)
  key_color : Z * Z * Z;
  tolerance : Z;                 (* 0..255 *)
  invert : bool
}.

Definition default_options : GenerateOptions :=
  {| kind := "luminance"; threshold := 128; key_color := (0, 0, 0)%Z;
     tolerance := 20; invert := false |}.

Definition generate_alpha_luminance (img : Image) : Image :=
  let rgb := io.ensure_rgb img in
  PIL.convert_L rgb.

Definition generate_alpha_threshold (img : Image) (threshold : Z) : result Image :=
  if negb ((0 <=? threshold)%Z && (threshold <=? 255)%Z)
  then Raise (AlphaIOError threshold_must_be_between_0_and_255)
  else
    let lum := generate_alpha_luminance img in
    let arr := np.asarray_uint8 lum in
    let out := np.where_ (fun v => (v >=? threshold)%Z) arr 255 0 in
    Ok (np.fromarray_L out).

Definition generate_alpha_colorkey (img : Image) (key_rgb : Z * Z * Z)
    (tolerance : Z) : result Image :=
  if negb ((0 <=? tolerance)%Z && (tolerance <=? 255)%Z)
  then Raise (AlphaIOError tolerance_must_be_between_0_and_255)
  else
    let rgb := io.ensure_rgb img in
    let arr := np.asarray_int16 rgb in   (* avoid overflow *)
    (key <- np.array_int16 key_rgb ;;
     let diff := np.abs (np.sub_key arr key) in
     let dist := np.max_axis2 diff in   (* Chebyshev distance *)
     (* where color is close to key -> transparent (0); otherwise opaque (255) *)
     let out := np.where_ (fun d => (d <=? tolerance)%Z) dist 0 255 in
     Ok (np.fromarray_L out))%result.

Definition _maybe_invert (mask : Image) (invert : bool) : Image :=
  let m := io.ensure_l mask in
  if negb invert then m else PIL.eval m (fun v => 255 - v)%Z.

Definition generate_alpha_file (in_path out_mask_path : Path)
    (opts : GenerateOptions) (overwrite : bool) : IO Path :=
  (img <-- io.load_image in_path ;;
   mask <-- lift
     (if String.eqb (kind opts) "luminance" then Ok (generate_alpha_luminance img)
      else if String.eqb (kind opts) "threshold"
           then generate_alpha_threshold img (threshold opts)
      else if String.eqb (kind opts) "colorkey"
           then generate_alpha_colorkey img (key_color opts) (tolerance opts)
      else Raise (AlphaIOError (Unknown_generation_kind (kind opts)))) ;;
   let mask := _maybe_invert mask (invert opts) in
   io.save_mask_png mask out_mask_path overwrite ;;;
   ret out_mask_path)%io.

Section Batch.
Variables (out_dir : Path) (opts : GenerateOptions) (out_suffix : string).
Variables (overwrite continue_on_error progress_cb : bool).
Variable cancel_flag : CancelFlag.

Fixpoint generate_loop (files : list Path) (i total : nat)
    (outputs : list Path) (trace : list ProgressCall) (s : FileSystem)
  : Batch Path :=
  match files with
  | [] => mkBatch s trace (Ok outputs)
  | p :: rest =>
      if is_cancelled cancel_flag i then mkBatch s trace (Ok outputs)
      else
        let trace := report progress_cb trace (i - 1) total p "Generating alpha" in
        let out_mask := io.infer_output_path p out_dir out_suffix ".png" in
        match generate_alpha_file p out_mask opts overwrite s with
        | (s', Ok o) =>
            generate_loop rest (S i) total (outputs ++ [o])
              (report progress_cb trace i total p "Done") s'
        | (s', Raise e) =>
            if negb continue_on_error then mkBatch s' trace (Raise e)
            else generate_loop rest (S i) total outputs trace s'
        end
  end.

Definition generate_alpha_files (in_paths : list Path) (s : FileSystem)
  : Batch Path :=
  let files := io.expand_inputs s in_paths in
  let total := length files in
  generate_loop files 1 total [] [] s.

End Batch.

End ops_generate.

(* ------------------------------------------------------------------ *)
(** ** ops_validate.py: alpha statistics and rules *)

Module ops_validate.

Inductive Status := PASS | WARN | FAIL.

Section Validate.
Variable F : Type.
Context {fl : FloatOps F}.

Record AlphaStats := mkStats {
  width : nat;
  height : nat;
  min : Z;
  max : Z;
  mean : F;
  std : F;
  pct_zero : F;
  pct_255 : F;
  pct_mid : F     (* 1..254 *)
}.

Record ValidationRules := mkRules {
  warn_pct_255 : F;
  warn_pct_zero : F;
  warn_std_lt : F;
  warn_range_le : Z;     (* max-min <= this -> likely constant *)
  fail_no_alpha : bool
}.

(** [ValidationRules()]: 99.9, 99.9, 1.0, 2, False *)
Definition default_rules : ValidationRules :=
  {| warn_pct_255 := fdiv (of_int 999) (of_int 10);
     warn_pct_zero := fdiv (of_int 999) (of_int 10);
     warn_std_lt := of_int 1;
     warn_range_le := 2;
     fail_no_alpha := false |}.

(** The messages of a result, with the numbers their text shows *)
Inductive Message :=
| No_alpha_channel
| Alpha_is_all_opaque (pct_255 : F)
| Alpha_is_all_transparent (pct_zero : F)
| Alpha_is_near_constant (std : F) (range : Z)
| Error_reading_or_processing_file (e : Exception).

Record AlphaValidationResult := mkResult {
  path : string;
  has_alpha : bool;
  status : Status;
  messages : list Message;
  stats : option AlphaStats
}.

Definition _alpha_array (img : Image) : result (option np.array2) :=
  let rgba := io.ensure_rgba img in
  let bands := PIL.getbands rgba in
  if negb (existsb (String.eqb "A") bands) then Ok None
  else
    match nth_error (PIL.split rgba) 3 with
    | Some a => Ok (Some (np.asarray_uint8 a))
    | None => Raise IndexError
    end.

Definition compute_alpha_stats (alpha_arr : np.array2) : result AlphaStats :=
  let '(h, w) := np.shape2 alpha_arr in
  (mn <- np.min alpha_arr ;;
   mx <- np.max alpha_arr ;;
   let mean := np.mean alpha_arr in
   let std := np.std alpha_arr in
   let total := of_int (Z.of_nat (np.size alpha_arr)) in
   let pct_zero :=
     fdiv (fmul (of_int (np.count (fun v => v =? 0)%Z alpha_arr)) (of_int 100)) total in
   let pct_255 :=
     fdiv (fmul (of_int (np.count (fun v => v =? 255)%Z alpha_arr)) (of_int 100)) total in
   let pct_mid :=
     fdiv (fmul (of_int (np.count (fun v => (0 <? v) && (v <? 255))%Z alpha_arr))
             (of_int 100)) total in
   Ok {| width := w; height := h; min := mn; max := mx; mean := mean; std := std;
         pct_zero := pct_zero; pct_255 := pct_255; pct_mid := pct_mid |})%result.

(** the three warning rules, as the conditions of the three [if]s *)
Definition rule_opaque (rules : ValidationRules) (st : AlphaStats) : bool :=
  fleb (warn_pct_255 rules) (pct_255 st).

Definition rule_transparent (rules : ValidationRules) (st : AlphaStats) : bool :=
  fleb (warn_pct_zero rules) (pct_zero st).

Definition rule_constant (rules : ValidationRules) (st : AlphaStats) : bool :=
  fltb (std st) (warn_std_lt rules) && (max st - min st <=? warn_range_le rules)%Z.

Definition validate_alpha_file (p : Path) (rules : ValidationRules)
  : IO AlphaValidationResult :=
  (img <-- io.load_image p ;;
   alpha_arr <-- lift (_alpha_array img) ;;
   match alpha_arr with
   | None =>
       let status := if fail_no_alpha rules then FAIL else WARN in
       let msg := No_alpha_channel in
       ret {| path := pathlib.str p; has_alpha := false; status := status;
              messages := [msg]; stats := None |}
   | Some alpha_arr =>
       st <-- lift (compute_alpha_stats alpha_arr) ;;
       let messages := [] in
       let status := PASS in
       let '(messages, status) :=
         if rule_opaque rules st
         then (messages ++ [Alpha_is_all_opaque (pct_255 st)], WARN)
         else (messages, status) in
       let '(messages, status) :=
         if rule_transparent rules st
         then (messages ++ [Alpha_is_all_transparent (pct_zero st)], WARN)
         else (messages, status) in
       let '(messages, status) :=
         if rule_constant rules st
         then (messages ++ [Alpha_is_near_constant (std st) (max st - min st)], WARN)
         else (messages, status) in
       ret {| path := pathlib.str p; has_alpha := true; status := status;
              messages := messages; stats := Some st |}
   end)%io.

Variables (rules : ValidationRules) (continue_on_error progress_cb : bool).
Variable cancel_flag : CancelFlag.

Fixpoint validate_loop (files : list Path) (i total : nat)
    (results : list AlphaValidationResult) (trace : list ProgressCall)
    (s : FileSystem) : Batch AlphaValidationResult :=
  match files with
  | [] => mkBatch s trace (Ok results)
  | p :: rest =>
      if is_cancelled cancel_flag i then mkBatch s trace (Ok results)
      else
        let trace := report progress_cb trace (i - 1) total p "Validating alpha" in
        match validate_alpha_file p rules s with
        | (s', Ok res) =>
            validate_loop rest (S i) total (results ++ [res])
              (report progress_cb trace i total p "Done") s'
        | (s', Raise e) =>
            if negb continue_on_error then mkBatch s' trace (Raise e)
            else
              validate_loop rest (S i) total
                (results ++ [{| path := pathlib.str p; has_alpha := false;
                                status := FAIL;
                                messages := [Error_reading_or_processing_file e];
                                stats := None |}])
                (report progress_cb trace i total p "Done") s'
        end
  end.

Definition validate_alpha_files (paths : list Path) (s : FileSystem)
  : Batch AlphaValidationResult :=
  let files := paths in
  let total := length files in
  validate_loop files 1 total [] [] s.

End Validate.

Arguments default_rules {F fl}.

End ops_validate.

(* ------------------------------------------------------------------ *)
(** ** Vocabulary of the specification *)

(** the luminance of the colour channels of an RGBA pixel *)
Definition luma_of_rgba (c : PIL.RGBApx) : Z := PIL.luma (PIL.drop_alpha c).

(** The Chebyshev distance of the specification: the largest of
    |R-Rk|, |G-Gk|, |B-Bk|, over the integers. *)
Definition chebyshev (c key : Z * Z * Z) : Z :=
  let '(r, g, b) := c in
  let '(rk, gk, bk) := key in
  Z.max (Z.abs (r - rk)) (Z.max (Z.abs (g - gk)) (Z.abs (b - bk))).

(** The keys of the paths of one side, under a rule: the key of every
    path, in the order of the paths (a path whose key derivation raises
    has none). *)
Definition side_keys (rule : naming.PairingRule) (is_alpha : bool) (paths : list Path)
  : list string :=
  flat_map
    (fun p => match naming._key_for_path p rule is_alpha with
              | Ok k => [k]
              | Raise _ => []
              end)
    paths.

(** the number of distinct keys among the image files of one side *)
Definition distinct_keys (s : FileSystem) (rule : naming.PairingRule)
    (is_alpha : bool) (paths : list Path) : nat :=
  length (nodup string_dec (side_keys rule is_alpha (filter (io.is_image_file s) paths))).

(** the pair an entry of [rgb_map] gives rise to, if any *)
Definition pair_of (alpha_map : naming.Dict) (kp : string * Path) : list (Path * Path) :=
  match naming.get alpha_map (fst kp) with
  | Some a => [(snd kp, a)]
  | None => []
  end.


(* ------------------------------------------------------------------ *)
(** ** A small file system for the scenarios *)

(** an RGB-only image of two pixels *)
Definition rgb_only : Image :=
  PIL.ImgRGB (2, 1)%nat [(10, 20, 30); (200, 100, 0)]%Z.

(** a directory [in] that holds the RGB-only image [a.png] and a text
    file; nothing else exists *)
Definition scenario_fs : FileSystem :=
  fs.mkFS [ (["in"], fs.Dir);
            (["in"; "a.png"], fs.File (fs.Encoded rgb_only));
            (["in"; "notes.txt"], fs.File fs.Undecodable) ]%string
          pathlib.str.

(* ------------------------------------------------------------------ *)
(** ** Vocabulary for the file system *)

(** [s'] keeps every node of [s] whose path is not in [outs] *)
Definition untouched_except (outs : list Path) (s s' : FileSystem) : Prop :=
  forall q n, fs.lookup s q = Some n -> ~ In q outs -> fs.lookup s' q = Some n.


(** a mask of mode L whose samples are all 0 or 255 *)
Definition binary_mask (m : Image) : Prop :=
  exists s px, m = PIL.ImgL s px /\ Forall (fun v => v = 0 \/ v = 255)%Z px.





(** two batches that return the same and leave the same file system *)
Definition same_outcome (A : Type) (b b' : Batch A) : Prop :=
  b_result b = b_result b' /\ b_fs b = b_fs b'.

(** [p] has the key [k] on its side *)
Definition has_key (rule : naming.PairingRule) (is_alpha : bool) (k : string) (p : Path)
  : bool :=
  match naming._key_for_path p rule is_alpha with
  | Ok k' => String.eqb k' k
  | Raise _ => false
  end.

(** the first image file of [paths] that has the key [k], if any *)
Definition first_with_key (s : FileSystem) (rule : naming.PairingRule)
    (is_alpha : bool) (paths : list Path) (k : string) : option Path :=
  find (fun p => io.is_image_file s p && has_key rule is_alpha k p) paths.

(** a list is in ascending order of the strings of the paths [f] takes
    from its elements *)
Definition ascending (A : Type) (f : A -> Path) (l : list A) : Prop :=
  Sorted (fun x y => String.leb (pathlib.str (f x)) (pathlib.str (f y)) = true) l.
(** the path of the file [stem ++ "." ++ ext] in the directory [dir] *)
Definition file_in (dir : Path) (stem ext : string) : Path :=
  dir ++ [String.append stem (String "."%char ext)].

(* ================================================================== *)
(** * Properties *)

(** ** The codec adapter *)

Lemma Size_eqb_refl (s : Size) : Size_eqb s s = true.
Proof.
  unfold Size_eqb. now rewrite !Nat.eqb_refl.
Qed.

Lemma Size_eqb_eq (a b : Size) : Size_eqb a b = true <-> a = b.
Proof.
  unfold Size_eqb. destruct a as [w h], b as [w' h']; simpl.
  rewrite andb_true_iff, !Nat.eqb_eq. split.
  - intros [-> ->]. reflexivity.
  - intros H. inversion H. auto.
Qed.

Lemma zip3_planes (px : list PIL.RGBpx) :
  PIL.zip3 (map (fun c => fst (fst c)) px) (map (fun c => snd (fst c)) px)
           (map (fun c => snd c) px) = px.
Proof.
  induction px as [|[[r g] b] px IH]; simpl; [reflexivity|]. now rewrite IH.
Qed.

Lemma zip4_planes (px : list PIL.RGBApx) :
  PIL.zip4 (map (fun c => fst (fst (fst c))) px) (map (fun c => snd (fst (fst c))) px)
           (map (fun c => snd (fst c)) px) (map (fun c => snd c) px) = px.
Proof.
  induction px as [|[[[r g] b] a] px IH]; simpl; [reflexivity|]. now rewrite IH.
Qed.

Lemma zip4_of_rgb_planes (px : list PIL.RGBApx) :
  PIL.zip4 (map (fun c => fst (fst c)) (map PIL.drop_alpha px))
           (map (fun c => snd (fst c)) (map PIL.drop_alpha px))
           (map (fun c => snd c) (map PIL.drop_alpha px))
           (map (fun c => snd c) px) = px.
Proof.
  induction px as [|[[[r g] b] a] px IH]; simpl; [reflexivity|]. now rewrite IH.
Qed.

(** every image is of one of the five modes *)
Lemma ensure_rgba_mode (img : Image) : PIL.mode (io.ensure_rgba img) = "RGBA"%string.
Proof. destruct img; reflexivity. Qed.

Lemma ensure_rgb_mode (img : Image) : PIL.mode (io.ensure_rgb img) = "RGB"%string.
Proof. destruct img; reflexivity. Qed.

Lemma ensure_l_mode (img : Image) : PIL.mode (io.ensure_l img) = "L"%string.
Proof. destruct img; reflexivity. Qed.

Lemma mode_RGBA_inv (img : Image) :
  PIL.mode img = "RGBA"%string -> exists s px, img = PIL.ImgRGBA s px.
Proof. destruct img; simpl; try discriminate. eauto. Qed.

Lemma mode_RGB_inv (img : Image) :
  PIL.mode img = "RGB"%string -> exists s px, img = PIL.ImgRGB s px.
Proof. destruct img; simpl; try discriminate. eauto. Qed.

Lemma mode_L_inv (img : Image) :
  PIL.mode img = "L"%string -> exists s px, img = PIL.ImgL s px.
Proof. destruct img; simpl; try discriminate. eauto. Qed.

Lemma ensure_rgba_size (img : Image) : PIL.size (io.ensure_rgba img) = PIL.size img.
Proof. destruct img; reflexivity. Qed.

(** what [split_alpha] returns on an image that is RGBA once canonicalized *)
Lemma split_alpha_of_rgba (img : Image) (oma : string) (s : Size) (px : list PIL.RGBApx) :
  io.ensure_rgba img = PIL.ImgRGBA s px ->
  ops_split.split_alpha img oma
  = Ok (PIL.ImgRGB s (map PIL.drop_alpha px), PIL.ImgL s (map (fun c => snd c) px)).
Proof.
  intros E. unfold ops_split.split_alpha. rewrite E. simpl.
  rewrite !Size_eqb_refl. simpl. do 3 f_equal.
  clear. induction px as [|[[[r g] b] a] px IH]; simpl; [reflexivity|]. now rewrite IH.
Qed.

(** C2: for every input image [ensure_rgba] returns an image whose bands
    contain "A"; so the guard of the no-alpha branch of [split_alpha] is
    false, the raise under it is never taken, and [split_alpha] returns a
    pair (it does not raise) whatever [on_missing_alpha] is. *)
Theorem C2_ensure_rgba_always_has_alpha :
  forall img : Image,
    In "A"%string (PIL.getbands (io.ensure_rgba img))
    /\ negb (existsb (String.eqb "A") (PIL.getbands (io.ensure_rgba img))) = false
    /\ forall on_missing_alpha : string,
         (exists rgb a, ops_split.split_alpha img on_missing_alpha = Ok (rgb, a))
         /\ (forall e, ops_split.split_alpha img on_missing_alpha <> Raise e).
Proof.
  intros img.
  destruct (mode_RGBA_inv _ (ensure_rgba_mode img)) as (s & px & E).
  rewrite E. simpl. split; [tauto|]. split; [reflexivity|].
  intros oma. rewrite (split_alpha_of_rgba img oma E). split.
  - eauto.
  - discriminate.
Qed.

(** C4: for every image of mode RGBA, [split_alpha] returns a pair, and
    [combine_alpha] of that pair with [invert] false gives back the
    image itself: the same size, the same R, G, B planes and the same
    alpha plane.  The two halves have the size of the image, so neither
    resize mode resizes. *)
Theorem C4_combine_split_roundtrip :
  forall (resize : Image -> Size -> PIL.Resampling -> Image)
         (img : Image) (on_missing_alpha resize_mode resample : string),
    PIL.mode img = "RGBA"%string ->
    exists rgb a,
      ops_split.split_alpha img on_missing_alpha = Ok (rgb, a)
      /\ PIL.size a = PIL.size rgb
      /\ ops_combine.combine_alpha resize rgb a false resize_mode resample = Ok img.
Proof.
  intros resize img oma rm rs Hm.
  destruct (mode_RGBA_inv _ Hm) as (s & px & ->).
  eexists _, _. split; [apply split_alpha_of_rgba; reflexivity|].
  split; [reflexivity|].
  unfold ops_combine.combine_alpha. simpl. rewrite !Size_eqb_refl. simpl.
  rewrite !Size_eqb_refl. simpl. now rewrite zip4_of_rgb_planes.
Qed.

Lemma C4_combine_split_roundtrip_witness :
  exists rgb a,
    ops_split.split_alpha (PIL.ImgRGBA (2, 1)%nat [(1, 2, 3, 4); (250, 0, 7, 255)]%Z) "opaque"
    = Ok (rgb, a)
    /\ PIL.size a = PIL.size rgb
    /\ ops_combine.combine_alpha (fun m _ _ => m) rgb a false "error" "nearest"
       = Ok (PIL.ImgRGBA (2, 1)%nat [(1, 2, 3, 4); (250, 0, 7, 255)]%Z).
Proof.
  apply (C4_combine_split_roundtrip (fun m _ _ => m)
           (PIL.ImgRGBA (2, 1)%nat [(1, 2, 3, 4); (250, 0, 7, 255)]%Z)
           "opaque" "error" "nearest").
  reflexivity.
Defined.

(** ** Masks given in colour *)

Lemma ensure_l_of_RGBA (s : Size) (px : list PIL.RGBApx) :
  io.ensure_l (PIL.ImgRGBA s px) = PIL.ImgL s (map luma_of_rgba px).
Proof.
  unfold io.ensure_l. simpl. now rewrite map_map.
Qed.

Lemma ensure_l_of_RGB (s : Size) (px : list PIL.RGBpx) :
  io.ensure_l (PIL.ImgRGB s px) = PIL.ImgL s (map PIL.luma px).
Proof. reflexivity. Qed.

Lemma combine_alpha_depends_on_ensure_l
    (resize : Image -> Size -> PIL.Resampling -> Image)
    (rgb_img m1 m2 : Image) (invert : bool) (rm rs : string) :
  io.ensure_l m1 = io.ensure_l m2 ->
  ops_combine.combine_alpha resize rgb_img m1 invert rm rs
  = ops_combine.combine_alpha resize rgb_img m2 invert rm rs.
Proof.
  intros E. unfold ops_combine.combine_alpha. now rewrite E.
Qed.

(** C10: a mask handed to [combine_alpha] in mode RGB or RGBA is first
    replaced by the luminance of its colour channels: the call equals the
    call on that single-channel image.  For an RGBA mask the luminance is
    computed from R, G and B only, so two RGBA masks that differ only in
    their alpha channel give the same result, and without resize or
    inversion the fourth channel of the result is that luminance. *)
Theorem C10_colour_mask_is_reduced_to_luminance :
  forall (resize : Image -> Size -> PIL.Resampling -> Image)
         (rgb_img : Image) (invert : bool) (resize_mode resample : string),
    (forall s px,
        io.ensure_l (PIL.ImgRGB s px) = PIL.ImgL s (map PIL.luma px)
        /\ ops_combine.combine_alpha resize rgb_img (PIL.ImgRGB s px) invert resize_mode resample
           = ops_combine.combine_alpha resize rgb_img (PIL.ImgL s (map PIL.luma px))
               invert resize_mode resample)
    /\ (forall s px,
        io.ensure_l (PIL.ImgRGBA s px) = PIL.ImgL s (map luma_of_rgba px)
        /\ ops_combine.combine_alpha resize rgb_img (PIL.ImgRGBA s px) invert resize_mode resample
           = ops_combine.combine_alpha resize rgb_img (PIL.ImgL s (map luma_of_rgba px))
               invert resize_mode resample)
    /\ (forall s px1 px2,
        map PIL.drop_alpha px1 = map PIL.drop_alpha px2 ->
        ops_combine.combine_alpha resize rgb_img (PIL.ImgRGBA s px1) invert resize_mode resample
        = ops_combine.combine_alpha resize rgb_img (PIL.ImgRGBA s px2) invert resize_mode resample)
    /\ (forall s (cpx : list PIL.RGBpx) (mpx : list PIL.RGBApx),
        length mpx = length cpx ->
        exists out,
          ops_combine.combine_alpha resize (PIL.ImgRGB s cpx) (PIL.ImgRGBA s mpx)
            false resize_mode resample = Ok (PIL.ImgRGBA s out)
          /\ map PIL.drop_alpha out = cpx
          /\ map (fun c => snd c) out = map luma_of_rgba mpx).
Proof.
  intros resize rgb_img invert rm rs.
  split; [|split; [|split]].
  - intros s px. split; [reflexivity|].
    apply combine_alpha_depends_on_ensure_l. reflexivity.
  - intros s px. split; [apply ensure_l_of_RGBA|].
    apply combine_alpha_depends_on_ensure_l. now rewrite ensure_l_of_RGBA.
  - intros s px1 px2 E. apply combine_alpha_depends_on_ensure_l.
    rewrite !ensure_l_of_RGBA. unfold luma_of_rgba.
    rewrite <- !(map_map PIL.drop_alpha PIL.luma). now rewrite E.
  - intros s cpx mpx Hlen.
    unfold ops_combine.combine_alpha. rewrite ensure_l_of_RGBA. simpl.
    rewrite !Size_eqb_refl. simpl. rewrite !Size_eqb_refl. simpl.
    eexists. split; [reflexivity|].
    revert mpx Hlen. induction cpx as [|[[r g] b] cpx IH]; intros [|m mpx] Hlen;
      simpl in *; try discriminate; auto.
    injection Hlen as Hlen. destruct (IH mpx Hlen) as [IH1 IH2].
    rewrite IH1, IH2. auto.
Qed.

Lemma C10_colour_mask_is_reduced_to_luminance_witness :
  ops_combine.combine_alpha (fun m _ _ => m)
    (PIL.ImgRGB (1, 1)%nat [(9, 8, 7)%Z]) (PIL.ImgRGBA (1, 1)%nat [(255, 255, 255, 0)%Z])
    false "error" "nearest"
  = ops_combine.combine_alpha (fun m _ _ => m)
    (PIL.ImgRGB (1, 1)%nat [(9, 8, 7)%Z]) (PIL.ImgRGBA (1, 1)%nat [(255, 255, 255, 77)%Z])
    false "error" "nearest"
  /\ exists out,
       ops_combine.combine_alpha (fun m _ _ => m)
         (PIL.ImgRGB (1, 1)%nat [(9, 8, 7)%Z]) (PIL.ImgRGBA (1, 1)%nat [(255, 255, 255, 0)%Z])
         false "error" "nearest" = Ok (PIL.ImgRGBA (1, 1)%nat out)
       /\ map PIL.drop_alpha out = [(9, 8, 7)%Z]
       /\ map (fun c => snd c) out = map luma_of_rgba [(255, 255, 255, 0)%Z].
Proof.
  pose proof (C10_colour_mask_is_reduced_to_luminance (fun m _ _ => m)
                (PIL.ImgRGB (1, 1)%nat [(9, 8, 7)%Z]) false "error" "nearest")
    as (_ & _ & Hsame & Hfourth).
  split.
  - apply Hsame. reflexivity.
  - apply Hfourth. reflexivity.
Defined.

(** ** The generate engine *)

Lemma u8_uint8 (z : Z) : PIL.u8 z -> np.uint8 z = z.
Proof.
  unfold PIL.u8, np.uint8. intros H. apply Z.mod_small. lia.
Qed.

Lemma int16_small (z : Z) : (-32768 <= z <= 32767)%Z -> np.int16 z = z.
Proof.
  unfold np.int16. intros H. rewrite Z.mod_small; lia.
Qed.

Lemma luma_u8 (c : PIL.RGBpx) : PIL.u8_rgb c -> PIL.u8 (PIL.luma c).
Proof.
  destruct c as [[r g] b]. unfold PIL.u8_rgb, PIL.u8, PIL.luma.
  intros (Hr & Hg & Hb). rewrite Z.shiftr_div_pow2 by lia.
  change (2 ^ 16)%Z with 65536%Z. split.
  - apply Z.div_pos; lia.
  - apply Z.lt_succ_r. apply Z.div_lt_upper_bound; lia.
Qed.

Lemma lookup_u8 (pal : list PIL.RGBApx) (i : nat) :
  Forall PIL.u8_rgba pal -> PIL.u8_rgba (PIL.lookup pal i).
Proof.
  intros H. unfold PIL.lookup.
  destruct (nth_in_or_default i pal (0, 0, 0, 255)%Z) as [Hin | ->].
  - rewrite Forall_forall in H. now apply H.
  - unfold PIL.u8_rgba, PIL.u8. lia.
Qed.

Lemma drop_alpha_u8 (c : PIL.RGBApx) : PIL.u8_rgba c -> PIL.u8_rgb (PIL.drop_alpha c).
Proof.
  destruct c as [[[r g] b] a]. simpl. tauto.
Qed.

Lemma Forall_map_intro (A B : Type) (P : A -> Prop) (Q : B -> Prop) (f : A -> B) (l : list A) :
  (forall x, P x -> Q (f x)) -> Forall P l -> Forall Q (map f l).
Proof.
  intros Hf H. induction H; simpl; constructor; auto.
Qed.

Lemma Forall_map_any (A B : Type) (Q : B -> Prop) (f : A -> B) (l : list A) :
  (forall x, Q (f x)) -> Forall Q (map f l).
Proof.
  intros Hf. induction l; simpl; constructor; auto.
Qed.

Lemma ensure_rgb_wf (img : Image) : PIL.wf_image img -> PIL.wf_image (io.ensure_rgb img).
Proof.
  destruct img as [s px | s px | s pal px | s px | s px]; simpl; intros H.
  - eapply Forall_map_intro; [|exact H]. intros x Hx. simpl. tauto.
  - eapply Forall_map_intro; [|exact H]. intros x [Hx _]. simpl. tauto.
  - apply Forall_map_any. intros i. apply drop_alpha_u8, lookup_u8, H.
  - exact H.
  - eapply Forall_map_intro; [|exact H]. apply drop_alpha_u8.
Qed.

Lemma ensure_rgb_is_RGB (img : Image) : exists s px, io.ensure_rgb img = PIL.ImgRGB s px.
Proof. apply mode_RGB_inv, ensure_rgb_mode. Qed.

Lemma luminance_is_L (img : Image) :
  exists s lum, ops_generate.generate_alpha_luminance img = PIL.ImgL s lum.
Proof.
  unfold ops_generate.generate_alpha_luminance.
  destruct (ensure_rgb_is_RGB img) as (s & px & ->). simpl. eauto.
Qed.

Lemma luminance_wf (img : Image) :
  PIL.wf_image img -> PIL.wf_image (ops_generate.generate_alpha_luminance img).
Proof.
  intros H. apply ensure_rgb_wf in H. unfold ops_generate.generate_alpha_luminance.
  destruct (ensure_rgb_is_RGB img) as (s & px & E). rewrite E in *. simpl in *.
  eapply Forall_map_intro; [|exact H]. apply luma_u8.
Qed.

Lemma concat_singletons (A : Type) (l : list A) : concat (map (fun x => [x]) l) = l.
Proof.
  induction l; simpl; congruence.
Qed.

Lemma map_ext_Forall (A B : Type) (P : A -> Prop) (f g : A -> B) (l : list A) :
  Forall P l -> (forall x, P x -> f x = g x) -> map f l = map g l.
Proof.
  intros H Hfg. induction H; simpl; [reflexivity|]. now rewrite IHForall, Hfg.
Qed.

(** the threshold generator, on an image whose luminance plane is [lum] *)
Lemma threshold_in_range (img : Image) (t : Z) (s : Size) (lum : list Z) :
  PIL.wf_image img ->
  (0 <= t <= 255)%Z ->
  ops_generate.generate_alpha_luminance img = PIL.ImgL s lum ->
  ops_generate.generate_alpha_threshold img t
  = Ok (PIL.ImgL s (map (fun l => if (l >=? t)%Z then 255 else 0)%Z lum)).
Proof.
  intros Hwf Ht E. pose proof (luminance_wf img Hwf) as Hl. rewrite E in Hl.
  simpl in Hl. unfold ops_generate.generate_alpha_threshold.
  replace ((0 <=? t)%Z && (t <=? 255)%Z) with true
    by (symmetry; apply andb_true_iff; split; apply Z.leb_le; lia).
  simpl. rewrite E. unfold np.fromarray_L, np.where_, np.asarray_uint8. simpl.
  rewrite concat_singletons, map_map. destruct s as [w h]. simpl. do 2 f_equal.
  apply map_ext_Forall with (P := PIL.u8); [exact Hl|].
  intros l Hu. rewrite (u8_uint8 Hu). now destruct (l >=? t)%Z.
Qed.

Lemma threshold_out_of_range (img : Image) (t : Z) :
  ~ (0 <= t <= 255)%Z ->
  ops_generate.generate_alpha_threshold img t
  = Raise (AlphaIOError threshold_must_be_between_0_and_255).
Proof.
  intros Ht. unfold ops_generate.generate_alpha_threshold.
  destruct ((0 <=? t)%Z && (t <=? 255)%Z) eqn:E; [|reflexivity].
  apply andb_true_iff in E. destruct E as [E1 E2].
  apply Z.leb_le in E1, E2. lia.
Qed.

(** C6: [generate_alpha_threshold img t] raises the out-of-range error
    exactly when [t] is outside [0, 255], so at -1 and at 256; for [t] in
    range the mask is 255 where the luminance is at least [t] and 0
    elsewhere; at 0 every pixel is 255, and at 255 exactly the pixels of
    luminance 255 are, pure white among them. *)
Theorem C6_threshold_binarizes_luminance :
  forall (img : Image) (t : Z),
    (ops_generate.generate_alpha_threshold img t
       = Raise (AlphaIOError threshold_must_be_between_0_and_255)
     <-> ~ (0 <= t <= 255)%Z)
    /\ ((exists e, ops_generate.generate_alpha_threshold img t = Raise e)
        <-> ~ (0 <= t <= 255)%Z)
    /\ ops_generate.generate_alpha_threshold img (-1)
       = Raise (AlphaIOError threshold_must_be_between_0_and_255)
    /\ ops_generate.generate_alpha_threshold img 256
       = Raise (AlphaIOError threshold_must_be_between_0_and_255)
    /\ (exists s lum, ops_generate.generate_alpha_luminance img = PIL.ImgL s lum)
    /\ PIL.luma (255, 255, 255)%Z = 255%Z
    /\ (forall s lum,
          PIL.wf_image img ->
          ops_generate.generate_alpha_luminance img = PIL.ImgL s lum ->
          ((0 <= t <= 255)%Z ->
           ops_generate.generate_alpha_threshold img t
           = Ok (PIL.ImgL s (map (fun l => if (l >=? t)%Z then 255 else 0)%Z lum)))
          /\ ops_generate.generate_alpha_threshold img 0
             = Ok (PIL.ImgL s (map (fun _ => 255%Z) lum))
          /\ ops_generate.generate_alpha_threshold img 255
             = Ok (PIL.ImgL s (map (fun l => if (l =? 255)%Z then 255 else 0)%Z lum))).
Proof.
  intros img t.
  assert (Hin : (0 <= t <= 255)%Z ->
                exists out, ops_generate.generate_alpha_threshold img t = Ok out).
  { intros Ht. unfold ops_generate.generate_alpha_threshold.
    replace ((0 <=? t)%Z && (t <=? 255)%Z) with true
      by (symmetry; apply andb_true_iff; split; apply Z.leb_le; lia).
    simpl. eauto. }
  split; [|split; [|split; [|split; [|split; [|split]]]]].
  - split; [|apply threshold_out_of_range].
    intros E Ht. destruct (Hin Ht) as [out Ho]. congruence.
  - split.
    + intros [e E] Ht. destruct (Hin Ht) as [out Ho]. congruence.
    + intros Ht. eexists. now apply threshold_out_of_range.
  - apply threshold_out_of_range. lia.
  - apply threshold_out_of_range. lia.
  - apply luminance_is_L.
  - reflexivity.
  - intros s lum Hwf E. pose proof (luminance_wf img Hwf) as Hl. rewrite E in Hl.
    simpl in Hl. split; [|split].
    + intros Ht. now apply threshold_in_range.
    + rewrite (@threshold_in_range img 0 s lum) by (auto; lia). do 2 f_equal.
      apply map_ext_Forall with (P := PIL.u8); [exact Hl|].
      intros l [Hl0 _]. destruct (l >=? 0)%Z eqn:G; [reflexivity|]. lia.
    + rewrite (@threshold_in_range img 255 s lum) by (auto; lia). do 2 f_equal.
      apply map_ext_Forall with (P := PIL.u8); [exact Hl|].
      intros l [_ Hl1]. destruct (l >=? 255)%Z eqn:G, (l =? 255)%Z eqn:G'; try reflexivity; lia.
Qed.

Ltac bytes := simpl; repeat first [apply Forall_cons | apply Forall_nil | split];
              unfold PIL.u8; lia.

Lemma C6_threshold_binarizes_luminance_witness :
  ops_generate.generate_alpha_threshold
    (PIL.ImgRGB (3, 1)%nat [(255, 255, 255); (10, 20, 30); (200, 128, 0)]%Z) 128
  = Ok (PIL.ImgL (3, 1)%nat [255; 0; 255]%Z)
  /\ ops_generate.generate_alpha_threshold
       (PIL.ImgRGB (3, 1)%nat [(255, 255, 255); (10, 20, 30); (200, 128, 0)]%Z) 0
     = Ok (PIL.ImgL (3, 1)%nat [255; 255; 255]%Z)
  /\ ops_generate.generate_alpha_threshold
       (PIL.ImgRGB (3, 1)%nat [(255, 255, 255); (10, 20, 30); (200, 128, 0)]%Z) 255
     = Ok (PIL.ImgL (3, 1)%nat [255; 0; 0]%Z).
Proof.
  pose proof (C6_threshold_binarizes_luminance
                (PIL.ImgRGB (3, 1)%nat [(255, 255, 255); (10, 20, 30); (200, 128, 0)]%Z) 128)
    as (_ & _ & _ & _ & _ & _ & H).
  specialize (H (3, 1)%nat [255; 18; 135]%Z).
  destruct H as (Ht & H0 & H255); [bytes | reflexivity |].
  split; [|split].
  - apply Ht. lia.
  - exact H0.
  - exact H255.
Defined.

Lemma zip_with_sub_key (r g b rk gk bk : Z) :
  PIL.u8_rgb (r, g, b) -> PIL.u8_rgb (rk, gk, bk) ->
  np.max_list
    (map (fun d => np.int16 (Z.abs d))
       (np.zip_with (fun a k => np.int16 (a - k)) (map np.int16 [r; g; b]) [rk; gk; bk]))
  = chebyshev (r, g, b) (rk, gk, bk).
Proof.
  unfold PIL.u8_rgb, PIL.u8. intros (Hr & Hg & Hb) (Hrk & Hgk & Hbk). simpl.
  rewrite !(@int16_small r), !(@int16_small g), !(@int16_small b) by lia.
  rewrite (@int16_small (r - rk)), (@int16_small (g - gk)), (@int16_small (b - bk)) by lia.
  rewrite !int16_small by lia. lia.
Qed.

Lemma colorkey_out_of_range (img : Image) (key : Z * Z * Z) (tol : Z) :
  ~ (0 <= tol <= 255)%Z ->
  ops_generate.generate_alpha_colorkey img key tol
  = Raise (AlphaIOError tolerance_must_be_between_0_and_255).
Proof.
  intros Ht. unfold ops_generate.generate_alpha_colorkey.
  destruct ((0 <=? tol)%Z && (tol <=? 255)%Z) eqn:E; [|reflexivity].
  apply andb_true_iff in E. destruct E as [E1 E2].
  apply Z.leb_le in E1, E2. lia.
Qed.

(** C9: on the RGB form [px] of the image, for a key colour of bytes and
    a tolerance in [0, 255], the colour-key mask is 0 at a pixel whose
    Chebyshev distance to the key (taken over the integers) is at most
    the tolerance and 255 elsewhere: the int16 arithmetic of the code
    never wraps.  A tolerance outside [0, 255] raises the out-of-range
    error. *)
Theorem C9_colorkey_is_chebyshev :
  forall (img : Image) (key_rgb : Z * Z * Z) (tolerance : Z),
    (exists s px, io.ensure_rgb img = PIL.ImgRGB s px)
    /\ (~ (0 <= tolerance <= 255)%Z ->
        ops_generate.generate_alpha_colorkey img key_rgb tolerance
        = Raise (AlphaIOError tolerance_must_be_between_0_and_255))
    /\ (forall s px,
          PIL.wf_image img ->
          PIL.u8_rgb key_rgb ->
          (0 <= tolerance <= 255)%Z ->
          io.ensure_rgb img = PIL.ImgRGB s px ->
          ops_generate.generate_alpha_colorkey img key_rgb tolerance
          = Ok (PIL.ImgL s
                  (map (fun c => if (chebyshev c key_rgb <=? tolerance)%Z then 0 else 255)%Z
                     px))).
Proof.
  intros img key tol. split; [apply ensure_rgb_is_RGB|].
  split; [apply colorkey_out_of_range|].
  intros s px Hwf Hkey Ht E.
  apply ensure_rgb_wf in Hwf. rewrite E in Hwf. simpl in Hwf.
  unfold ops_generate.generate_alpha_colorkey.
  replace ((0 <=? tol)%Z && (tol <=? 255)%Z) with true
    by (symmetry; apply andb_true_iff; split; apply Z.leb_le; lia).
  simpl. rewrite E. destruct key as [[rk gk] bk].
  assert (Hfit : np.array_int16 (rk, gk, bk) = Ok [rk; gk; bk]).
  { unfold np.array_int16. unfold PIL.u8_rgb, PIL.u8 in Hkey.
    replace (forallb _ _) with true; [reflexivity|].
    symmetry. simpl. rewrite !andb_true_iff, !Z.leb_le. lia. }
  rewrite Hfit. simpl.
  unfold np.fromarray_L, np.where_, np.max_axis2, np.abs, np.sub_key, np.asarray_int16.
  simpl. destruct s as [w h]. simpl. do 2 f_equal.
  rewrite !map_map.
  apply map_ext_Forall with (P := PIL.u8_rgb); [exact Hwf|].
  intros [[r g] b] Hc.
  pose proof (zip_with_sub_key Hc Hkey) as Hd. simpl in Hd.
  simpl. rewrite Hd.
  now destruct (_ <=? tol)%Z.
Qed.

Lemma C9_colorkey_is_chebyshev_witness :
  ops_generate.generate_alpha_colorkey
    (PIL.ImgRGBA (3, 1)%nat [(0, 255, 0, 9); (20, 240, 10, 255); (255, 0, 255, 0)]%Z)
    (0, 255, 0)%Z 20
  = Ok (PIL.ImgL (3, 1)%nat [0; 0; 255]%Z).
Proof.
  pose proof (C9_colorkey_is_chebyshev
                (PIL.ImgRGBA (3, 1)%nat [(0, 255, 0, 9); (20, 240, 10, 255); (255, 0, 255, 0)]%Z)
                (0, 255, 0)%Z 20) as (_ & _ & H).
  apply (H (3, 1)%nat [(0, 255, 0); (20, 240, 10); (255, 0, 255)]%Z).
  - bytes.
  - bytes.
  - lia.
  - reflexivity.
Defined.

(** ** The validate engine *)

Lemma alpha_array_defined (img : Image) :
  exists arr, ops_validate._alpha_array img = Ok (Some arr).
Proof.
  unfold ops_validate._alpha_array.
  destruct (mode_RGBA_inv _ (ensure_rgba_mode img)) as (s & px & ->). simpl. eauto.
Qed.

Lemma min_defined (arr : np.array2) :
  np.data2 arr <> [] -> exists mn, np.min arr = Ok mn.
Proof.
  unfold np.min. destruct (np.data2 arr); [congruence | eauto].
Qed.

Lemma max_defined (arr : np.array2) :
  np.data2 arr <> [] -> exists mx, np.max arr = Ok mx.
Proof.
  unfold np.max. destruct (np.data2 arr); [congruence | eauto].
Qed.

Lemma compute_alpha_stats_defined (F : Type) (fl : FloatOps F) (arr : np.array2) :
  np.data2 arr <> [] -> exists st, ops_validate.compute_alpha_stats (fl := fl) arr = Ok st.
Proof.
  intros H. unfold ops_validate.compute_alpha_stats.
  destruct (min_defined arr H) as [mn ->], (max_defined arr H) as [mx ->].
  destruct (np.shape2 arr). simpl. eauto.
Qed.

(** C7: on a file whose image has its alpha plane [arr] (with at least
    one pixel), [validate_alpha_file] returns a result with
    [has_alpha] true; its messages are, in order, the message of each of
    the three rules that matches, each rule judged on its own; its status
    is WARN when some rule matches and PASS when none does, never FAIL.
    This holds for every meaning of the float operations. *)
Theorem C7_validate_rules_are_independent :
  forall (F : Type) (fl : FloatOps F) (s : FileSystem) (p : Path)
         (rules : ops_validate.ValidationRules F) (img : Image) (arr : np.array2),
    fs.open_image s p = Some img ->
    ops_validate._alpha_array img = Ok (Some arr) ->
    np.data2 arr <> [] ->
    exists st res,
      ops_validate.compute_alpha_stats arr = Ok st
      /\ ops_validate.validate_alpha_file p rules s = (s, Ok res)
      /\ ops_validate.has_alpha res = true
      /\ ops_validate.stats res = Some st
      /\ ops_validate.messages res
         = (if ops_validate.rule_opaque rules st
            then [ops_validate.Alpha_is_all_opaque (ops_validate.pct_255 st)] else [])
           ++ (if ops_validate.rule_transparent rules st
               then [ops_validate.Alpha_is_all_transparent (ops_validate.pct_zero st)] else [])
           ++ (if ops_validate.rule_constant rules st
               then [ops_validate.Alpha_is_near_constant (ops_validate.std st)
                       (ops_validate.max st - ops_validate.min st)] else [])
      /\ ops_validate.status res
         = (if ops_validate.rule_opaque rules st
               || ops_validate.rule_transparent rules st
               || ops_validate.rule_constant rules st
            then ops_validate.WARN else ops_validate.PASS)
      /\ ops_validate.status res <> ops_validate.FAIL
      /\ (ops_validate.status res = ops_validate.PASS
          <-> ops_validate.rule_opaque rules st = false
              /\ ops_validate.rule_transparent rules st = false
              /\ ops_validate.rule_constant rules st = false).
Proof.
  intros F fl s p rules img arr Hopen Harr Hne.
  destruct (compute_alpha_stats_defined fl arr Hne) as [st Hst].
  exists st.
  unfold ops_validate.validate_alpha_file, bindIO, io.load_image, lift, ret.
  rewrite Hopen, Harr, Hst.
  destruct (ops_validate.rule_opaque rules st),
           (ops_validate.rule_transparent rules st),
           (ops_validate.rule_constant rules st);
    simpl; eexists; (split; [reflexivity|]); (split; [reflexivity|]); simpl;
    repeat split; try reflexivity; try discriminate; try tauto;
    intros (? & ? & ?); discriminate.
Qed.

Lemma C7_validate_rules_are_independent_witness :
  exists st res,
    ops_validate.compute_alpha_stats (fl := exact)
      (np.mk_array2 (1, 2)%nat [255; 255]%Z) = Ok st
    /\ ops_validate.validate_alpha_file (["a.png"%string] : Path)
         (ops_validate.default_rules (fl := exact))
         (fs.mkFS [(["a.png"%string],
                    fs.File (fs.Encoded (PIL.ImgRGBA (2, 1)%nat
                                           [(1, 2, 3, 255); (4, 5, 6, 255)]%Z)))]
                  pathlib.str)
       = (fs.mkFS [(["a.png"%string],
                    fs.File (fs.Encoded (PIL.ImgRGBA (2, 1)%nat
                                           [(1, 2, 3, 255); (4, 5, 6, 255)]%Z)))]
                  pathlib.str, Ok res)
    /\ ops_validate.has_alpha res = true
    /\ ops_validate.stats res = Some st
    /\ ops_validate.messages res
       = (if ops_validate.rule_opaque ops_validate.default_rules st
          then [ops_validate.Alpha_is_all_opaque (ops_validate.pct_255 st)] else [])
         ++ (if ops_validate.rule_transparent ops_validate.default_rules st
             then [ops_validate.Alpha_is_all_transparent (ops_validate.pct_zero st)] else [])
         ++ (if ops_validate.rule_constant ops_validate.default_rules st
             then [ops_validate.Alpha_is_near_constant (ops_validate.std st)
                     (ops_validate.max st - ops_validate.min st)] else [])
    /\ ops_validate.status res
       = (if ops_validate.rule_opaque ops_validate.default_rules st
             || ops_validate.rule_transparent ops_validate.default_rules st
             || ops_validate.rule_constant ops_validate.default_rules st
          then ops_validate.WARN else ops_validate.PASS)
    /\ ops_validate.status res <> ops_validate.FAIL
    /\ (ops_validate.status res = ops_validate.PASS
        <-> ops_validate.rule_opaque ops_validate.default_rules st = false
            /\ ops_validate.rule_transparent ops_validate.default_rules st = false
            /\ ops_validate.rule_constant ops_validate.default_rules st = false).
Proof.
  apply (@C7_validate_rules_are_independent R exact
           (fs.mkFS [(["a.png"%string],
                      fs.File (fs.Encoded (PIL.ImgRGBA (2, 1)%nat
                                             [(1, 2, 3, 255); (4, 5, 6, 255)]%Z)))]
                    pathlib.str)
           ["a.png"%string] ops_validate.default_rules
           (PIL.ImgRGBA (2, 1)%nat [(1, 2, 3, 255); (4, 5, 6, 255)]%Z)
           (np.mk_array2 (1, 2)%nat [255; 255]%Z)).
  - reflexivity.
  - reflexivity.
  - discriminate.
Defined.

(** *** Statistics: the integer facts *)

Lemma count_partition (l : list Z) :
  Forall PIL.u8 l ->
  (Z.of_nat (length (filter (fun v => v =? 0)%Z l))
   + Z.of_nat (length (filter (fun v => v =? 255)%Z l))
   + Z.of_nat (length (filter (fun v => (0 <? v) && (v <? 255))%Z l))
   = Z.of_nat (length l))%Z.
Proof.
  induction 1 as [|v l [Hv0 Hv1] _ IH]; [reflexivity|].
  cbn [filter].
  destruct (v =? 0)%Z eqn:E0, (v =? 255)%Z eqn:E1, (0 <? v)%Z eqn:E2, (v <? 255)%Z eqn:E3;
    cbn [andb length]; lia.
Qed.

Lemma fold_min_le (l : list Z) (a : Z) :
  (fold_left Z.min l a <= a)%Z /\ Forall (fun y => fold_left Z.min l a <= y)%Z l.
Proof.
  revert a. induction l as [|x l IH]; intros a; simpl.
  - split; [lia | constructor].
  - destruct (IH (Z.min a x)) as [H1 H2]. split; [lia|].
    constructor; [lia | exact H2].
Qed.

Lemma fold_max_ge (l : list Z) (a : Z) :
  (a <= fold_left Z.max l a)%Z /\ Forall (fun y => y <= fold_left Z.max l a)%Z l.
Proof.
  revert a. induction l as [|x l IH]; intros a; simpl.
  - split; [lia | constructor].
  - destruct (IH (Z.max a x)) as [H1 H2]. split; [lia|].
    constructor; [lia | exact H2].
Qed.

Lemma sum_shift (l : list Z) (a : Z) :
  fold_left Z.add l a = (a + np.sum l)%Z.
Proof.
  unfold np.sum. revert a. induction l as [|x l IH]; intros a; simpl; [lia|].
  rewrite (IH (a + x)%Z), (IH x). lia.
Qed.

Lemma sum_cons (x : Z) (l : list Z) : np.sum (x :: l) = (x + np.sum l)%Z.
Proof.
  unfold np.sum at 1. simpl. apply sum_shift.
Qed.

Lemma sum_lower (m : Z) (l : list Z) :
  Forall (fun y => m <= y)%Z l -> (m * Z.of_nat (length l) <= np.sum l)%Z.
Proof.
  induction 1 as [|x l Hx _ IH]; [cbn; lia|].
  rewrite sum_cons. cbn [length]. lia.
Qed.

Lemma sum_upper (m : Z) (l : list Z) :
  Forall (fun y => y <= m)%Z l -> (np.sum l <= m * Z.of_nat (length l))%Z.
Proof.
  induction 1 as [|x l Hx _ IH]; [cbn; lia|].
  rewrite sum_cons. cbn [length]. lia.
Qed.

(** the minimum and the maximum bound the sum of the elements *)
Lemma min_max_bound_sum (arr : np.array2) (mn mx : Z) :
  np.min arr = Ok mn -> np.max arr = Ok mx ->
  (mn * Z.of_nat (np.size arr) <= np.sum (np.data2 arr) <= mx * Z.of_nat (np.size arr))%Z.
Proof.
  unfold np.min, np.max, np.size. destruct (np.data2 arr) as [|x l]; [discriminate|].
  intros Hmn Hmx. injection Hmn as <-. injection Hmx as <-.
  destruct (fold_min_le l x) as [Hx Hl], (fold_max_ge l x) as [Hx' Hl']. split.
  - apply sum_lower. constructor; assumption.
  - apply sum_upper. constructor; assumption.
Qed.

Lemma Rdiv_between (a b s n : R) :
  (0 < n)%R -> (a * n <= s)%R -> (s <= b * n)%R -> (a <= s / n <= b)%R.
Proof.
  intros Hn Ha Hb. unfold Rdiv.
  assert (Hi : (0 < / n)%R) by now apply Rinv_0_lt_compat.
  split.
  - apply Rmult_le_reg_r with n; [exact Hn|].
    rewrite Rmult_assoc, Rinv_l, Rmult_1_r by lra. exact Ha.
  - apply Rmult_le_reg_r with n; [exact Hn|].
    rewrite Rmult_assoc, Rinv_l, Rmult_1_r by lra. exact Hb.
Qed.

Lemma fold_min_in (l : list Z) (a : Z) : In (fold_left Z.min l a) (a :: l).
Proof.
  revert a. induction l as [|x l IH]; intros a; simpl; [auto|].
  destruct (IH (Z.min a x)) as [H | H]; [|auto].
  rewrite <- H. destruct (Z.min_spec a x) as [[_ ->] | [_ ->]]; auto.
Qed.

Lemma fold_max_in (l : list Z) (a : Z) : In (fold_left Z.max l a) (a :: l).
Proof.
  revert a. induction l as [|x l IH]; intros a; simpl; [auto|].
  destruct (IH (Z.max a x)) as [H | H]; [|auto].
  rewrite <- H. destruct (Z.max_spec a x) as [[_ ->] | [_ ->]]; auto.
Qed.

(** ** Rounding to the nearest double *)

Lemma bpow_pos (e : Z) : (0 < fp.bpow e)%R.
Proof. unfold fp.bpow. apply powerRZ_lt. lra. Qed.

Lemma bpow_add (a b : Z) : fp.bpow (a + b) = (fp.bpow a * fp.bpow b)%R.
Proof. unfold fp.bpow. apply powerRZ_add. lra. Qed.

Lemma bpow_0 : fp.bpow 0 = 1%R.
Proof. reflexivity. Qed.

Lemma bpow_nonneg_IZR (e : Z) : (0 <= e)%Z -> fp.bpow e = IZR (2 ^ e).
Proof.
  intros H. unfold fp.bpow. rewrite <- (Z2Nat.id e H), <- pow_powerRZ, <- pow_IZR.
  reflexivity.
Qed.

Lemma bpow_m53 : fp.bpow (-53) = (/ 9007199254740992)%R.
Proof.
  apply Rmult_eq_reg_l with (fp.bpow 53); [|apply Rgt_not_eq, bpow_pos].
  rewrite <- bpow_add. change (53 + -53)%Z with 0%Z. rewrite bpow_0.
  rewrite bpow_nonneg_IZR by lia. change (2 ^ 53)%Z with 9007199254740992%Z.
  field.
Qed.

Lemma ln_2_pos : (0 < ln 2)%R.
Proof. pose proof ln_lt_2. lra. Qed.

Lemma ln_bpow (e : Z) : ln (fp.bpow e) = (IZR e * ln 2)%R.
Proof.
  unfold fp.bpow. rewrite powerRZ_Rpower by lra. unfold Rpower. apply ln_exp.
Qed.

(** the binade of [x] is not above that of a power of two above [x] *)
Lemma mag_le (x : R) (e : Z) :
  (1 <= e)%Z -> (0 <= x)%R -> (x < fp.bpow e)%R -> (fp.mag x <= e)%Z.
Proof.
  intros He H0 Hx. unfold fp.mag. rewrite (Rabs_pos_eq x H0).
  pose proof ln_2_pos as L2.
  destruct (archimed (ln x / ln 2)) as [_ Hup].
  assert (Hl : (ln x / ln 2 < IZR e)%R).
  { destruct (Req_dec x 0) as [-> | Hne].
    - assert (L0 : ln 0 = 0%R).
      { unfold ln. destruct (Rlt_dec 0 0) as [H | _]; [exfalso; lra | reflexivity]. }
      rewrite L0. unfold Rdiv. rewrite Rmult_0_l. apply IZR_lt. lia.
    - apply Rmult_lt_reg_r with (ln 2); [exact L2|].
      unfold Rdiv. rewrite Rmult_assoc, Rinv_l, Rmult_1_r by lra.
      rewrite <- ln_bpow. apply ln_increasing; lra. }
  apply Z.lt_succ_r, lt_IZR. rewrite succ_IZR. lra.
Qed.

(** [x] is not below the lower end of its binade *)
Lemma mag_lower (x : R) : x <> 0%R -> (fp.bpow (fp.mag x - 1) <= Rabs x)%R.
Proof.
  intros Hne. unfold fp.mag.
  pose proof ln_2_pos as L2. pose proof (Rabs_pos_lt x Hne) as Hp.
  destruct (archimed (ln (Rabs x) / ln 2)) as [_ Hup].
  set (e := up (ln (Rabs x) / ln 2)) in *.
  assert (H : (ln (fp.bpow (e - 1)) <= ln (Rabs x))%R).
  { rewrite ln_bpow, minus_IZR.
    replace (ln (Rabs x)) with (ln (Rabs x) / ln 2 * ln 2)%R by (field; lra).
    apply Rmult_le_compat_r; lra. }
  destruct H as [H | H].
  - left. apply ln_lt_inv; [apply bpow_pos | exact Hp | exact H].
  - right. apply ln_inv; [apply bpow_pos | exact Hp | exact H].
Qed.

Lemma rint_cases (m : R) :
  fp.rint m = Zfloor m
  \/ (fp.rint m = (Zfloor m + 1)%Z /\ (/ 2 <= m - IZR (Zfloor m))%R).
Proof.
  unfold fp.rint.
  destruct (Rlt_dec (m - IZR (Zfloor m)) (/ 2)) as [H | H]; [now left|].
  destruct (Rlt_dec (/ 2) (m - IZR (Zfloor m))) as [H' | H'].
  - right. split; [reflexivity | lra].
  - destruct (Z.even (Zfloor m)); [now left|]. right. split; [reflexivity | lra].
Qed.

(** rounding to an integer moves by at most a half *)
Lemma rint_error (m : R) : (Rabs (IZR (fp.rint m) - m) <= / 2)%R.
Proof.
  pose proof (Zfloor_bound m) as [B1 B2]. unfold fp.rint.
  destruct (Rlt_dec (m - IZR (Zfloor m)) (/ 2)) as [H | H].
  - apply Rabs_le. lra.
  - destruct (Rlt_dec (/ 2) (m - IZR (Zfloor m))) as [H' | H'].
    + rewrite plus_IZR. apply Rabs_le. lra.
    + destruct (Z.even (Zfloor m)); [|rewrite plus_IZR]; apply Rabs_le; lra.
Qed.

(** rounding to an integer does not pass an integer *)
Lemma rint_le (m : R) (k : Z) : (m <= IZR k)%R -> (fp.rint m <= k)%Z.
Proof.
  intros H. pose proof (Zfloor_bound m) as [B1 B2].
  assert (F : (Zfloor m <= k)%Z) by (apply le_IZR; lra).
  destruct (rint_cases m) as [-> | [-> Hd]]; [exact F|].
  apply Z.le_succ_l, lt_IZR. pose proof Rinv_0_lt_compat 2. lra.
Qed.

Lemma rint_ge (m : R) (k : Z) : (IZR k <= m)%R -> (k <= fp.rint m)%Z.
Proof.
  intros H. pose proof (Zfloor_lub k m H) as F.
  destruct (rint_cases m) as [-> | [-> _]]; lia.
Qed.

Lemma rint_IZR (k : Z) : fp.rint (IZR k) = k.
Proof.
  apply Z.le_antisymm; [apply rint_le | apply rint_ge]; lra.
Qed.

(** rounding does not pass an integer: for [0 <= x < 2^53] the doubles
    around [x] are at most 1 apart, so every integer is one of them *)
Lemma rnd_le_int (x : R) (k : Z) :
  (0 <= x)%R -> (x < fp.bpow 53)%R -> (x <= IZR k)%R -> (fp.rnd x <= IZR k)%R.
Proof.
  intros H0 H53 Hk. pose proof (@mag_le x 53 ltac:(lia) H0 H53) as He.
  unfold fp.rnd. set (e := fp.mag x) in *.
  apply Rmult_le_reg_r with (fp.bpow (53 - e)); [apply bpow_pos|].
  rewrite Rmult_assoc, <- bpow_add.
  replace (e - 53 + (53 - e))%Z with 0%Z by lia. rewrite bpow_0, Rmult_1_r.
  rewrite (@bpow_nonneg_IZR (53 - e)) by lia. rewrite <- mult_IZR.
  apply IZR_le, rint_le. rewrite mult_IZR.
  apply Rmult_le_compat_r; [|exact Hk]. apply IZR_le. apply Z.pow_nonneg. lia.
Qed.

Lemma rnd_ge_int (x : R) (k : Z) :
  (0 <= x)%R -> (x < fp.bpow 53)%R -> (IZR k <= x)%R -> (IZR k <= fp.rnd x)%R.
Proof.
  intros H0 H53 Hk. pose proof (@mag_le x 53 ltac:(lia) H0 H53) as He.
  unfold fp.rnd. set (e := fp.mag x) in *.
  apply Rmult_le_reg_r with (fp.bpow (53 - e)); [apply bpow_pos|].
  rewrite Rmult_assoc, <- bpow_add.
  replace (e - 53 + (53 - e))%Z with 0%Z by lia. rewrite bpow_0, Rmult_1_r.
  rewrite (@bpow_nonneg_IZR (53 - e)) by lia. rewrite <- mult_IZR.
  apply IZR_le, rint_ge. rewrite mult_IZR.
  apply Rmult_le_compat_r; [|exact Hk]. apply IZR_le. apply Z.pow_nonneg. lia.
Qed.

(** the integers below [2^53] are doubles *)
Lemma rnd_IZR (k : Z) : (0 <= k < 2 ^ 53)%Z -> fp.rnd (IZR k) = IZR k.
Proof.
  intros [H0 H1].
  assert (A : (0 <= IZR k)%R) by now apply IZR_le.
  assert (B : (IZR k < fp.bpow 53)%R).
  { rewrite bpow_nonneg_IZR by lia. now apply IZR_lt. }
  apply Rle_antisym; [apply rnd_le_int | apply rnd_ge_int]; auto; lra.
Qed.

Lemma rnd_0 : fp.rnd 0 = 0%R.
Proof. apply (@rnd_IZR 0). lia. Qed.

(** the relative error of one rounding is at most [2^-53] *)
Lemma rnd_error (x : R) : (Rabs (fp.rnd x - x) <= Rabs x * fp.bpow (-53))%R.
Proof.
  destruct (Req_dec x 0) as [-> | Hne].
  - rewrite rnd_0, Rminus_0_r, Rabs_R0. lra.
  - pose proof (mag_lower Hne) as Hl. unfold fp.rnd. set (e := fp.mag x) in *.
    set (m := (x * fp.bpow (53 - e))%R).
    replace (IZR (fp.rint m) * fp.bpow (e - 53) - x)%R
      with ((IZR (fp.rint m) - m) * fp.bpow (e - 53))%R.
    2:{ unfold m. rewrite Rmult_minus_distr_r, Rmult_assoc, <- bpow_add.
        replace (53 - e + (e - 53))%Z with 0%Z by lia. rewrite bpow_0. lra. }
    rewrite Rabs_mult, (Rabs_pos_eq (fp.bpow (e - 53))) by (left; apply bpow_pos).
    pose proof (rint_error m) as Hr.
    apply Rle_trans with (/ 2 * fp.bpow (e - 53))%R.
    + apply Rmult_le_compat_r; [left; apply bpow_pos | exact Hr].
    + replace (/ 2 * fp.bpow (e - 53))%R with (fp.bpow (e - 1) * fp.bpow (-53))%R.
      * apply Rmult_le_compat_r; [left; apply bpow_pos | exact Hl].
      * replace (e - 53)%Z with ((e - 1) + (-53) + 1)%Z by lia.
        rewrite !bpow_add. change (fp.bpow 1) with (2 * 1)%R. field.
Qed.

Lemma Rabs_le_bounds (a b : R) : (Rabs a <= b)%R -> (- b <= a <= b)%R.
Proof.
  unfold Rabs. destruct (Rcase_abs a); lra.
Qed.

(** a non-negative [x] below [2^53] rounds to within [x / 2^53] of
    itself, and not below 0 *)
Lemma rnd_near (x : R) :
  (0 <= x)%R -> (x < fp.bpow 53)%R ->
  (0 <= fp.rnd x)%R
  /\ (x - x / 9007199254740992 <= fp.rnd x <= x + x / 9007199254740992)%R.
Proof.
  intros H0 H53. split.
  - now apply (@rnd_ge_int x 0).
  - pose proof (rnd_error x) as E. rewrite bpow_m53, (Rabs_pos_eq x H0) in E.
    apply Rabs_le_bounds in E. unfold Rdiv. lra.
Qed.

(** conversion, product and quotient of integers in the rounded
    arithmetic, while the integers are small enough to be doubles *)
Lemma rounded_of_int (k : Z) :
  (0 <= k < 2 ^ 53)%Z -> of_int (FloatOps := rounded) k = IZR k.
Proof. intros H. simpl. now apply rnd_IZR. Qed.

Lemma rounded_ratio (a b n : Z) :
  (0 <= a)%Z -> (0 <= b)%Z -> (a * b < 2 ^ 53)%Z -> (0 <= n < 2 ^ 53)%Z ->
  (0 <= a < 2 ^ 53)%Z -> (0 <= b < 2 ^ 53)%Z ->
  fdiv (FloatOps := rounded)
    (fmul (FloatOps := rounded) (of_int (FloatOps := rounded) a)
       (of_int (FloatOps := rounded) b))
    (of_int (FloatOps := rounded) n)
  = fp.rnd (IZR (a * b) / IZR n).
Proof.
  intros Ha Hb Hab Hn Ha' Hb'. cbn [fdiv fmul of_int rounded].
  rewrite (rnd_IZR Ha'), (rnd_IZR Hb'), (rnd_IZR Hn), <- mult_IZR.
  rewrite rnd_IZR by lia. reflexivity.
Qed.

(** a percentage in the rounded arithmetic: between 0 and 100, and
    within one rounding of the exact ratio *)
Lemma rounded_pct (c n : Z) :
  (0 <= c <= n)%Z -> (0 < n)%Z -> (n < 2 ^ 45)%Z ->
  exists v : R,
    v = (IZR c * 100 / IZR n)%R
    /\ (0 <= v <= 100)%R
    /\ (0 <= fdiv (FloatOps := rounded)
                (fmul (FloatOps := rounded) (of_int (FloatOps := rounded) c)
                   (of_int (FloatOps := rounded) 100))
                (of_int (FloatOps := rounded) n) <= 100)%R
    /\ (v - v / 9007199254740992
        <= fdiv (FloatOps := rounded)
             (fmul (FloatOps := rounded) (of_int (FloatOps := rounded) c)
                (of_int (FloatOps := rounded) 100))
             (of_int (FloatOps := rounded) n)
        <= v + v / 9007199254740992)%R.
Proof.
  intros Hc Hn Hb.
  assert (P45 : (2 ^ 45 = 35184372088832)%Z) by reflexivity.
  assert (P53 : (2 ^ 53 = 9007199254740992)%Z) by reflexivity.
  rewrite (@rounded_ratio c 100 n) by lia.
  assert (HnR : (0 < IZR n)%R) by now apply IZR_lt.
  assert (HcR : (0 <= IZR c)%R) by (apply IZR_le; lia).
  assert (HcnR : (IZR c <= IZR n)%R) by (apply IZR_le; lia).
  set (v := (IZR c * 100 / IZR n)%R).
  assert (Hv : (0 <= v <= 100)%R).
  { unfold v. split.
    - apply Rmult_le_reg_r with (IZR n); [exact HnR|].
      unfold Rdiv. rewrite Rmult_assoc, Rinv_l, Rmult_1_r by lra. lra.
    - apply Rmult_le_reg_r with (IZR n); [exact HnR|].
      unfold Rdiv. rewrite Rmult_assoc, Rinv_l, Rmult_1_r by lra. lra. }
  replace (IZR (c * 100) / IZR n)%R with v by (unfold v; now rewrite mult_IZR).
  assert (H53 : (v < fp.bpow 53)%R).
  { rewrite bpow_nonneg_IZR, P53 by lia. lra. }
  exists v. split; [reflexivity|]. split; [exact Hv|].
  destruct (@rnd_near v (proj1 Hv) H53) as [N0 N1].
  split; [|exact N1]. split; [exact N0|].
  apply (@rnd_le_int v 100); lra.
Qed.

(** C8: for every non-empty array of bytes (of fewer than 2^45
    elements: no image is that large), [compute_alpha_stats] returns, in
    double arithmetic, statistics with the following properties.  The
    three counts (elements equal to 0, equal to 255, strictly between) add
    up to the number of elements, and the minimum and the maximum bound the
    sum of the elements.  The three percentages add up to 100 within
    [100 * 2^-53] as real numbers, and within [400 * 2^-53] when they are
    themselves added in doubles; the sum need not be 100.0 exactly.  And
    min <= mean <= max holds of the doubles exactly. *)
Theorem C8_alpha_stats_invariants :
  forall arr : np.array2,
    Forall PIL.u8 (np.data2 arr) ->
    np.data2 arr <> [] ->
    (Z.of_nat (np.size arr) < 2 ^ 45)%Z ->
    exists st : ops_validate.AlphaStats R,
      ops_validate.compute_alpha_stats (fl := rounded) arr = Ok st
      /\ (np.count (fun v => v =? 0)%Z arr + np.count (fun v => v =? 255)%Z arr
          + np.count (fun v => (0 <? v) && (v <? 255))%Z arr
          = Z.of_nat (np.size arr))%Z
      /\ (ops_validate.min st * Z.of_nat (np.size arr) <= np.sum (np.data2 arr)
          <= ops_validate.max st * Z.of_nat (np.size arr))%Z
      /\ (Rabs (ops_validate.pct_zero st + ops_validate.pct_255 st
                + ops_validate.pct_mid st - 100) <= 100 * fp.bpow (-53))%R
      /\ (Rabs (fadd (FloatOps := rounded)
                  (fadd (FloatOps := rounded) (ops_validate.pct_zero st)
                     (ops_validate.pct_255 st))
                  (ops_validate.pct_mid st) - 100) <= 400 * fp.bpow (-53))%R
      /\ (IZR (ops_validate.min st) <= ops_validate.mean st
          <= IZR (ops_validate.max st))%R.
Proof.
  intros arr Hu8 Hne Hsize.
  assert (P45 : (2 ^ 45 = 35184372088832)%Z) by reflexivity.
  assert (P53 : (2 ^ 53 = 9007199254740992)%Z) by reflexivity.
  destruct (min_defined arr Hne) as [mn Hmn], (max_defined arr Hne) as [mx Hmx].
  pose proof (min_max_bound_sum arr Hmn Hmx) as Hsum.
  pose proof (count_partition Hu8) as Hcnt.
  assert (Hn : (0 < Z.of_nat (np.size arr))%Z).
  { unfold np.size. destruct (np.data2 arr); [congruence | simpl; lia]. }
  assert (HnR : (0 < IZR (Z.of_nat (np.size arr)))%R) by now apply IZR_lt.
  (* the minimum and the maximum are bytes *)
  assert (Hmm : (0 <= mn /\ mx <= 255)%Z).
  { unfold np.min, np.max in Hmn, Hmx. destruct (np.data2 arr) as [|x t]; [congruence|].
    injection Hmn as <-. injection Hmx as <-.
    pose proof (fold_min_in t x) as Imin. pose proof (fold_max_in t x) as Imax.
    rewrite Forall_forall in Hu8.
    destruct (Hu8 _ Imin), (Hu8 _ Imax). lia. }
  unfold ops_validate.compute_alpha_stats. rewrite Hmn, Hmx.
  destruct (np.shape2 arr) as [h w]. cbn [bind].
  eexists. split; [reflexivity|]. cbn [ops_validate.min ops_validate.max
    ops_validate.mean ops_validate.pct_zero ops_validate.pct_255 ops_validate.pct_mid].
  split; [exact Hcnt|]. split; [exact Hsum|].
  fold (np.size arr) in Hcnt. unfold np.count.
  set (c0 := Z.of_nat (length (filter (fun v => (v =? 0)%Z) (np.data2 arr)))) in *.
  set (c255 := Z.of_nat (length (filter (fun v => (v =? 255)%Z) (np.data2 arr)))) in *.
  set (cm := Z.of_nat (length (filter (fun v => ((0 <? v) && (v <? 255))%Z)
                                 (np.data2 arr)))) in *.
  set (n := Z.of_nat (np.size arr)) in *.
  assert (H0 : (0 <= c0)%Z) by (unfold c0; lia).
  assert (H255 : (0 <= c255)%Z) by (unfold c255; lia).
  assert (Hm : (0 <= cm)%Z) by (unfold cm; lia).
  destruct (@rounded_pct c0 n ltac:(lia) Hn Hsize) as (v0 & E0 & V0 & B0 & N0).
  destruct (@rounded_pct c255 n ltac:(lia) Hn Hsize) as (v255 & E255 & V255 & B255 & N255).
  destruct (@rounded_pct cm n ltac:(lia) Hn Hsize) as (vm & Em & Vm & Bm & Nm).
  set (p0 := fdiv (fmul (of_int c0) (of_int 100)) (of_int n)) in *.
  set (p255 := fdiv (fmul (of_int c255) (of_int 100)) (of_int n)) in *.
  set (pm := fdiv (fmul (of_int cm) (of_int 100)) (of_int n)) in *.
  assert (Hv : (v0 + v255 + vm = 100)%R).
  { rewrite E0, E255, Em.
    replace (IZR n) with (IZR c0 + IZR c255 + IZR cm)%R
      by (rewrite <- !plus_IZR; now f_equal).
    field. rewrite <- !plus_IZR. apply Rgt_not_eq. fold n in Hcnt.
    apply IZR_lt. lia. }
  rewrite bpow_m53. split; [|split].
  - apply Rabs_le. unfold Rdiv in *. lra.
  - cbn [fadd rounded].
    assert (A53 : (p0 + p255 < fp.bpow 53)%R).
    { rewrite bpow_nonneg_IZR, P53 by lia. lra. }
    destruct (@rnd_near (p0 + p255)%R ltac:(lra) A53) as [S0 S1].
    assert (S2 : (fp.rnd (p0 + p255) <= 200)%R) by (apply (@rnd_le_int _ 200); lra).
    assert (B53 : (fp.rnd (p0 + p255) + pm < fp.bpow 53)%R).
    { rewrite bpow_nonneg_IZR, P53 by lia. lra. }
    destruct (@rnd_near (fp.rnd (p0 + p255) + pm)%R ltac:(lra) B53) as [T0 T1].
    apply Rabs_le. unfold Rdiv in *. lra.
  - unfold np.mean. fold n. cbn [fdiv of_int rounded].
    assert (Hs : (0 <= np.sum (np.data2 arr) < 2 ^ 53)%Z) by (fold n in Hsum; nia).
    rewrite (rnd_IZR Hs), (@rnd_IZR n) by lia.
    assert (Hq : (IZR mn <= IZR (np.sum (np.data2 arr)) / IZR n <= IZR mx)%R).
    { apply Rdiv_between; [exact HnR | |]; rewrite <- mult_IZR; apply IZR_le; lia. }
    assert (Hq0 : (0 <= IZR mn)%R) by (apply IZR_le; lia).
    assert (Hq1 : (IZR mx <= 255)%R) by (apply IZR_le; lia).
    assert (Q53 : (IZR (np.sum (np.data2 arr)) / IZR n < fp.bpow 53)%R).
    { rewrite bpow_nonneg_IZR, P53 by lia. lra. }
    split; [apply rnd_ge_int | apply rnd_le_int]; lra.
Qed.

Lemma C8_alpha_stats_invariants_witness :
  exists st : ops_validate.AlphaStats R,
    ops_validate.compute_alpha_stats (fl := rounded)
      (np.mk_array2 (2, 2)%nat [0; 255; 7; 255]%Z) = Ok st
    /\ (np.count (fun v => v =? 0)%Z (np.mk_array2 (2, 2)%nat [0; 255; 7; 255]%Z)
        + np.count (fun v => v =? 255)%Z (np.mk_array2 (2, 2)%nat [0; 255; 7; 255]%Z)
        + np.count (fun v => (0 <? v) && (v <? 255))%Z
            (np.mk_array2 (2, 2)%nat [0; 255; 7; 255]%Z)
        = Z.of_nat (np.size (np.mk_array2 (2, 2)%nat [0; 255; 7; 255]%Z)))%Z
    /\ (ops_validate.min st * Z.of_nat (np.size (np.mk_array2 (2, 2)%nat [0; 255; 7; 255]%Z))
        <= np.sum (np.data2 (np.mk_array2 (2, 2)%nat [0; 255; 7; 255]%Z))
        <= ops_validate.max st
           * Z.of_nat (np.size (np.mk_array2 (2, 2)%nat [0; 255; 7; 255]%Z)))%Z
    /\ (Rabs (ops_validate.pct_zero st + ops_validate.pct_255 st
              + ops_validate.pct_mid st - 100) <= 100 * fp.bpow (-53))%R
    /\ (Rabs (fadd (FloatOps := rounded)
                (fadd (FloatOps := rounded) (ops_validate.pct_zero st)
                   (ops_validate.pct_255 st))
                (ops_validate.pct_mid st) - 100) <= 400 * fp.bpow (-53))%R
    /\ (IZR (ops_validate.min st) <= ops_validate.mean st
        <= IZR (ops_validate.max st))%R.
Proof.
  apply (C8_alpha_stats_invariants (np.mk_array2 (2, 2)%nat [0; 255; 7; 255]%Z)).
  - bytes.
  - discriminate.
  - reflexivity.
Defined.

(** ** The rounded arithmetic against binary64 *)

Lemma mag_unique (x : R) (e : Z) :
  (fp.bpow (e - 1) <= x)%R -> (x < fp.bpow e)%R -> fp.mag x = e.
Proof.
  intros Hl Hu. pose proof (bpow_pos (e - 1)) as Hp. pose proof ln_2_pos as L2.
  assert (Hx : (0 < x)%R) by lra.
  unfold fp.mag. rewrite (Rabs_pos_eq x) by lra. symmetry. apply tech_up.
  - apply Rmult_lt_reg_r with (ln 2); [exact L2|].
    unfold Rdiv. rewrite Rmult_assoc, Rinv_l, Rmult_1_r by lra.
    rewrite <- ln_bpow. now apply ln_increasing.
  - apply Rmult_le_reg_r with (ln 2); [exact L2|].
    rewrite Rmult_plus_distr_r. unfold Rdiv. rewrite Rmult_assoc, Rinv_l, Rmult_1_r by lra.
    assert (H : (ln (fp.bpow (e - 1)) <= ln x)%R).
    { destruct Hl as [Hl | <-]; [left; now apply ln_increasing | right; reflexivity]. }
    rewrite ln_bpow, minus_IZR in H. lra.
Qed.

Lemma rint_unique (m : R) (k : Z) : (Rabs (m - IZR k) < / 2)%R -> fp.rint m = k.
Proof.
  intros H. pose proof (rint_error m) as E.
  apply Rabs_le_bounds in E.
  assert (H' : (- / 2 < m - IZR k < / 2)%R).
  { unfold Rabs in H. destruct (Rcase_abs (m - IZR k)); lra. }
  apply Z.le_antisymm.
  - apply Z.lt_succ_r, lt_IZR. rewrite succ_IZR. lra.
  - apply Z.lt_pred_le, lt_IZR. unfold Z.pred. rewrite plus_IZR. lra.
Qed.

(** the double nearest to [x], found by hand: its exponent and its
    significand *)
Lemma rnd_eval (x : R) (e k : Z) :
  (fp.bpow (e - 1) <= x)%R -> (x < fp.bpow e)%R ->
  (Rabs (x * fp.bpow (53 - e) - IZR k) < / 2)%R ->
  fp.rnd x = (IZR k * fp.bpow (e - 53))%R.
Proof.
  intros Hl Hu Hk. unfold fp.rnd. rewrite (@mag_unique x e Hl Hu).
  now rewrite (@rint_unique _ k Hk).
Qed.

(** a ratio of small integers, rounded by hand *)
Lemma rounded_ratio_eval (a b n e k : Z) :
  (0 <= a < 2 ^ 53)%Z -> (0 <= b < 2 ^ 53)%Z -> (a * b < 2 ^ 53)%Z ->
  (0 < n < 2 ^ 53)%Z -> (1 <= e <= 53)%Z ->
  (IZR (2 ^ (e - 1)) * IZR n <= IZR (a * b))%R ->
  (IZR (a * b) < IZR (2 ^ e) * IZR n)%R ->
  (Rabs (IZR (a * b) / IZR n * IZR (2 ^ (53 - e)) - IZR k) < / 2)%R ->
  fdiv (FloatOps := rounded)
    (fmul (FloatOps := rounded) (of_int (FloatOps := rounded) a)
       (of_int (FloatOps := rounded) b))
    (of_int (FloatOps := rounded) n)
  = (IZR k * fp.bpow (e - 53))%R.
Proof.
  intros Ha Hb Hab Hn He Hl Hu Hk.
  assert (HnR : (0 < IZR n)%R) by (apply IZR_lt; lia).
  rewrite rounded_ratio by lia. apply rnd_eval.
  - rewrite bpow_nonneg_IZR by lia.
    apply Rmult_le_reg_r with (IZR n); [exact HnR|].
    unfold Rdiv. rewrite Rmult_assoc, Rinv_l, Rmult_1_r by lra. exact Hl.
  - rewrite bpow_nonneg_IZR by lia.
    apply Rmult_lt_reg_r with (IZR n); [exact HnR|].
    unfold Rdiv. rewrite Rmult_assoc, Rinv_l, Rmult_1_r by lra. exact Hu.
  - rewrite bpow_nonneg_IZR by lia. exact Hk.
Qed.

Ltac double_value :=
  unfold to_R;
  match goal with
  | |- context [FloatOps.Prim2SF ?f] =>
      let v := eval vm_compute in (FloatOps.Prim2SF f) in
      change (FloatOps.Prim2SF f) with v
  end;
  cbv iota beta.

Ltac by_hand :=
  repeat match goal with
         | |- context [IZR (?a * ?b)] =>
             let v := eval vm_compute in (a * b)%Z in change (a * b)%Z with v
         | |- context [IZR (2 ^ ?a)] =>
             let v := eval vm_compute in (2 ^ a)%Z in change (2 ^ a)%Z with v
         end;
  try (apply Rabs_def1); lra.

(** On a plane of one 0, four 255 and one 7 the rounded arithmetic
    returns the reals of the doubles binary64 computes: the three
    percentages, their sum (the double next above 100.0) and the mean. *)
Example rounded_is_binary64_on_a_sample :
  exists (b : ops_validate.AlphaStats PrimFloat.float) (r : ops_validate.AlphaStats R),
    ops_validate.compute_alpha_stats (fl := binary64)
      (np.mk_array2 (1, 6)%nat [0; 255; 255; 255; 255; 7]%Z) = Ok b
    /\ ops_validate.compute_alpha_stats (fl := rounded)
         (np.mk_array2 (1, 6)%nat [0; 255; 255; 255; 255; 7]%Z) = Ok r
    /\ to_R (ops_validate.pct_zero b) = ops_validate.pct_zero r
    /\ to_R (ops_validate.pct_255 b) = ops_validate.pct_255 r
    /\ to_R (ops_validate.pct_mid b) = ops_validate.pct_mid r
    /\ to_R (ops_validate.mean b) = ops_validate.mean r
    /\ to_R (fadd (FloatOps := binary64)
               (fadd (FloatOps := binary64) (ops_validate.pct_zero b)
                  (ops_validate.pct_255 b)) (ops_validate.pct_mid b))
       = fadd (FloatOps := rounded)
           (fadd (FloatOps := rounded) (ops_validate.pct_zero r)
              (ops_validate.pct_255 r)) (ops_validate.pct_mid r)
    /\ (100 < fadd (FloatOps := rounded)
                (fadd (FloatOps := rounded) (ops_validate.pct_zero r)
                   (ops_validate.pct_255 r)) (ops_validate.pct_mid r))%R.
Proof.
  eexists. eexists. split; [vm_compute; reflexivity|]. split; [reflexivity|].
  cbn [ops_validate.pct_zero ops_validate.pct_255 ops_validate.pct_mid ops_validate.mean].
  assert (E16 : fdiv (FloatOps := rounded)
                  (fmul (FloatOps := rounded) (of_int (FloatOps := rounded) 1)
                     (of_int (FloatOps := rounded) 100))
                  (of_int (FloatOps := rounded) 6)
                = (IZR 4691249611844267 * fp.bpow (5 - 53))%R).
  { apply (@rounded_ratio_eval 1 100 6 5 4691249611844267); try lia; by_hand. }
  assert (E66 : fdiv (FloatOps := rounded)
                  (fmul (FloatOps := rounded) (of_int (FloatOps := rounded) 4)
                     (of_int (FloatOps := rounded) 100))
                  (of_int (FloatOps := rounded) 6)
                = (IZR 4691249611844267 * fp.bpow (7 - 53))%R).
  { apply (@rounded_ratio_eval 4 100 6 7 4691249611844267); try lia; by_hand. }
  assert (B48 : fp.bpow (5 - 53) = (/ 281474976710656)%R).
  { apply Rmult_eq_reg_l with (fp.bpow 48); [|apply Rgt_not_eq, bpow_pos].
    rewrite <- bpow_add. change (48 + (5 - 53))%Z with 0%Z. rewrite bpow_0.
    rewrite bpow_nonneg_IZR by lia. by_hand. }
  assert (B46 : fp.bpow (7 - 53) = (/ 70368744177664)%R).
  { apply Rmult_eq_reg_l with (fp.bpow 46); [|apply Rgt_not_eq, bpow_pos].
    rewrite <- bpow_add. change (46 + (7 - 53))%Z with 0%Z. rewrite bpow_0.
    rewrite bpow_nonneg_IZR by lia. by_hand. }
  assert (S1 : fp.rnd (IZR 4691249611844267 * fp.bpow (5 - 53)
                       + IZR 4691249611844267 * fp.bpow (7 - 53))
               = (IZR 5864062014805334 * fp.bpow (7 - 53))%R).
  { apply rnd_eval; rewrite ?B48, ?B46; rewrite bpow_nonneg_IZR by lia; by_hand. }
  assert (S2 : fp.rnd (IZR 5864062014805334 * fp.bpow (7 - 53)
                       + IZR 4691249611844267 * fp.bpow (5 - 53))
               = (IZR 7036874417766401 * fp.bpow (7 - 53))%R).
  { apply rnd_eval; rewrite ?B48, ?B46; rewrite bpow_nonneg_IZR by lia; by_hand. }
  assert (Sum : fadd (FloatOps := rounded)
                  (fadd (FloatOps := rounded)
                     (fdiv (FloatOps := rounded)
                        (fmul (FloatOps := rounded) (of_int (FloatOps := rounded) 1)
                           (of_int (FloatOps := rounded) 100))
                        (of_int (FloatOps := rounded) 6))
                     (fdiv (FloatOps := rounded)
                        (fmul (FloatOps := rounded) (of_int (FloatOps := rounded) 4)
                           (of_int (FloatOps := rounded) 100))
                        (of_int (FloatOps := rounded) 6)))
                  (fdiv (FloatOps := rounded)
                     (fmul (FloatOps := rounded) (of_int (FloatOps := rounded) 1)
                        (of_int (FloatOps := rounded) 100))
                     (of_int (FloatOps := rounded) 6))
                = (IZR 7036874417766401 * fp.bpow (7 - 53))%R).
  { rewrite E16, E66. cbn [fadd rounded]. rewrite S1. exact S2. }
  split; [|split; [|split; [|split; [|split]]]].
  - double_value. symmetry. exact E16.
  - double_value. symmetry. exact E66.
  - double_value. symmetry. exact E16.
  - double_value. symmetry. unfold np.mean.
    change (fdiv (FloatOps := rounded) (of_int (FloatOps := rounded) 1027)
              (of_int (FloatOps := rounded) 6)
            = (IZR 6022391689205077 * fp.bpow (8 - 53))%R).
    cbn [fdiv of_int rounded]. rewrite !rnd_IZR by lia.
    apply rnd_eval; rewrite bpow_nonneg_IZR by lia; by_hand.
  - double_value. symmetry. exact Sum.
  - change (100 < fadd (FloatOps := rounded)
                    (fadd (FloatOps := rounded)
                       (fdiv (FloatOps := rounded)
                          (fmul (FloatOps := rounded) (of_int (FloatOps := rounded) 1)
                             (of_int (FloatOps := rounded) 100))
                          (of_int (FloatOps := rounded) 6))
                       (fdiv (FloatOps := rounded)
                          (fmul (FloatOps := rounded) (of_int (FloatOps := rounded) 4)
                             (of_int (FloatOps := rounded) 100))
                          (of_int (FloatOps := rounded) 6)))
                    (fdiv (FloatOps := rounded)
                       (fmul (FloatOps := rounded) (of_int (FloatOps := rounded) 1)
                          (of_int (FloatOps := rounded) 100))
                       (of_int (FloatOps := rounded) 6)))%R.
    rewrite Sum, B46. lra.
Qed.

(** ** The split engine on an image without alpha *)

Lemma split_alpha_ignores_on_missing_alpha (img : Image) (oma oma' : string) :
  ops_split.split_alpha img oma = ops_split.split_alpha img oma'.
Proof.
  destruct (mode_RGBA_inv _ (ensure_rgba_mode img)) as (s & px & E).
  now rewrite !(split_alpha_of_rgba img _ E).
Qed.

Lemma split_alpha_of_rgb (s : Size) (px : list PIL.RGBpx) (oma : string) :
  ops_split.split_alpha (PIL.ImgRGB s px) oma
  = Ok (PIL.ImgRGB s px, PIL.ImgL s (map (fun _ => 255%Z) px)).
Proof.
  rewrite (@split_alpha_of_rgba _ oma s (map PIL.opaque px)) by reflexivity.
  rewrite !map_map. do 3 f_equal.
  - rewrite <- (map_id px) at 2. apply map_ext. now intros [[r g] b].
  - apply map_ext. now intros [[r g] b].
Qed.

(** C1: on an RGB-only image [split_alpha] returns the image and an
    all-255 mask whatever [on_missing_alpha] is: "error" behaves as
    "opaque".  On the scenario, [split_alpha_files] with
    [on_missing_alpha="error"] and the default [continue_on_error] does
    not skip the item: it returns both output paths and writes the
    all-255 mask, where the specification has an empty list. *)
Theorem C1_error_policy_is_never_applied :
  (forall (s : Size) (px : list PIL.RGBpx) (on_missing_alpha : string),
      ops_split.split_alpha (PIL.ImgRGB s px) on_missing_alpha
      = Ok (PIL.ImgRGB s px, PIL.ImgL s (map (fun _ => 255%Z) px)))
  /\ (forall (img : Image),
      ops_split.split_alpha img "error" = ops_split.split_alpha img "opaque")
  /\ b_result (ops_split.split_alpha_files ["out"%string] "_rgb" "_alpha" false "error"
                 true true None [["in"; "a.png"]%string] scenario_fs)
     = Ok [["out"; "a_rgb.png"]; ["out"; "a_alpha.png"]]%string
  /\ fs.open_image
       (b_fs (ops_split.split_alpha_files ["out"%string] "_rgb" "_alpha" false "error"
                true true None [["in"; "a.png"]%string] scenario_fs))
       ["out"; "a_alpha.png"]%string
     = Some (PIL.ImgL (2, 1)%nat [255; 255]%Z)
  /\ fs.open_image
       (b_fs (ops_split.split_alpha_files ["out"%string] "_rgb" "_alpha" false "opaque"
                true true None [["in"; "a.png"]%string] scenario_fs))
       ["out"; "a_alpha.png"]%string
     = Some (PIL.ImgL (2, 1)%nat [255; 255]%Z).
Proof.
  split; [intros; apply split_alpha_of_rgb|].
  split; [intros; apply split_alpha_ignores_on_missing_alpha|].
  split; [|split]; vm_compute; reflexivity.
Qed.

(** ** Which paths a batch works on *)
















Lemma unique_stable_spec (s : FileSystem) (out : list Path) :
  forall seen,
    (forall p, In p (io.unique_stable s out seen) ->
               In p out /\ ~ In (fs.resolve s p) seen)
    /\ NoDup (map (fs.resolve s) (io.unique_stable s out seen)).
Proof.
  induction out as [|q out IH]; intros seen; simpl.
  - split; [tauto | constructor].
  - destruct (existsb (String.eqb (fs.resolve s q)) seen) eqn:E.
    + destruct (IH seen) as [H1 H2]. split; [|exact H2].
      intros p Hp. destruct (H1 p Hp). tauto.
    + destruct (IH (fs.resolve s q :: seen)) as [H1 H2]. split.
      * intros p [<- | Hp].
        -- split; [tauto|]. intros Hin.
           assert (existsb (String.eqb (fs.resolve s q)) seen = true); [|congruence].
           apply existsb_exists. exists (fs.resolve s q).
           split; [exact Hin | apply String.eqb_refl].
        -- destruct (H1 p Hp) as [Ha Hb]. split; [tauto|].
           intros Hin. apply Hb. now right.
      * simpl. constructor; [|exact H2].
        intros Hin. apply in_map_iff in Hin. destruct Hin as (p & Hk & Hp).
        destruct (H1 p Hp) as [_ Hb]. apply Hb. left. now symmetry.
Qed.

(** Path Expansion keeps image files only, one per resolved path *)
Lemma expand_inputs_spec (s : FileSystem) (paths : list Path) :
  (forall p, In p (io.expand_inputs s paths) -> io.is_image_file s p = true)
  /\ NoDup (map (fs.resolve s) (io.expand_inputs s paths)).
Proof.
  unfold io.expand_inputs.
  match goal with |- context [io.unique_stable s ?o []] => set (out := o) end.
  destruct (unique_stable_spec s out []) as [H1 H2]. split; [|exact H2].
  intros p Hp. destruct (H1 p Hp) as [Hin _]. unfold out in Hin.
  apply in_flat_map in Hin. destruct Hin as (q & _ & Hq).
  destruct (fs.is_dir s q).
  - apply filter_In in Hq. tauto.
  - destruct (io.is_image_file s q) eqn:E; [|contradiction].
    destruct Hq as [<- | []]. exact E.
Qed.



(** ** The pairing resolver *)

Lemma insert_sorted_perm (A : Type) (le : A -> A -> bool) (x : A) (l : list A) :
  Permutation (insert_sorted le x l) (x :: l).
Proof.
  induction l as [|y t IH]; simpl; [reflexivity|].
  destruct (le y x); [|reflexivity].
  rewrite IH. apply perm_swap.
Qed.

Lemma sort_acc_perm (A : Type) (le : A -> A -> bool) (l acc : list A) :
  Permutation (sort_acc le l acc) (l ++ acc).
Proof.
  revert acc. induction l as [|x t IH]; intros acc; simpl; [reflexivity|].
  rewrite IH, insert_sorted_perm. symmetry. apply Permutation_middle.
Qed.

Lemma sorted_perm (A : Type) (le : A -> A -> bool) (l : list A) :
  Permutation (sorted le l) l.
Proof.
  unfold sorted. rewrite sort_acc_perm. now rewrite app_nil_r.
Qed.

Lemma sort_by_str_perm (A : Type) (f : A -> Path) (l : list A) :
  Permutation (sort_by_str f l) l.
Proof. apply sorted_perm. Qed.

Lemma mem_In (l : list string) (k : string) : naming.mem l k = true <-> In k l.
Proof.
  unfold naming.mem. rewrite existsb_exists. split.
  - intros (x & Hx & E). apply String.eqb_eq in E. now subst.
  - intros H. exists k. split; [exact H | apply String.eqb_refl].
Qed.

Lemma mem_add (l : list string) (k k' : string) :
  naming.mem (naming.add l k) k' = true <-> k = k' \/ naming.mem l k' = true.
Proof.
  unfold naming.add. destruct (naming.mem l k) eqn:E.
  - split; [tauto|]. intros [<- | H]; assumption.
  - rewrite !mem_In. simpl. tauto.
Qed.

Lemma get_In (d : naming.Dict) (k : string) (v : Path) :
  naming.get d k = Some v -> In (k, v) d.
Proof.
  induction d as [|[k' v'] d IH]; simpl; [discriminate|].
  destruct (String.eqb k' k) eqn:E.
  - apply String.eqb_eq in E. intros H. injection H as <-. subst. now left.
  - intros H. right. now apply IH.
Qed.

Lemma contains_keys (d : naming.Dict) (k : string) :
  naming.contains d k = true <-> In k (map fst d).
Proof.
  unfold naming.contains. induction d as [|[k' v'] d IH]; simpl.
  - split; [discriminate | tauto].
  - destruct (String.eqb k' k) eqn:E.
    + apply String.eqb_eq in E. split; [now left | reflexivity].
    + apply String.eqb_neq in E. rewrite IH. split; [tauto|].
      intros [H | H]; [congruence | exact H].
Qed.

Lemma get_of_NoDup (d : naming.Dict) (k : string) (v : Path) :
  NoDup (map fst d) -> In (k, v) d -> naming.get d k = Some v.
Proof.
  induction d as [|[k' v'] d IH]; simpl; [tauto|].
  intros Hnd [E | Hin].
  - injection E as -> ->. now rewrite String.eqb_refl.
  - inversion_clear Hnd as [|? ? Hk Hd].
    destruct (String.eqb k' k) eqn:E; [|now apply IH].
    apply String.eqb_eq in E. subst k'. exfalso. apply Hk.
    apply in_map_iff. exists (k, v). split; [reflexivity | exact Hin].
Qed.

Lemma setdefault_keys (d : naming.Dict) (k : string) (v : Path) :
  NoDup (map fst d) ->
  NoDup (map fst (naming.setdefault d k v))
  /\ (forall k', In k' (map fst (naming.setdefault d k v)) <-> In k' (map fst d) \/ k' = k)
  /\ (forall e, In e (naming.setdefault d k v) -> In e d \/ e = (k, v)).
Proof.
  intros Hnd. unfold naming.setdefault. destruct (naming.contains d k) eqn:E.
  - apply contains_keys in E. split; [exact Hnd|]. split; [|tauto].
    intros k'. split; [tauto|]. intros [H | ->]; assumption.
  - assert (Hk : ~ In k (map fst d)).
    { intros H. apply contains_keys in H. congruence. }
    rewrite map_app. simpl. split; [|split].
    + apply NoDup_app; [exact Hnd | repeat constructor; simpl; tauto|].
      intros x Hx [<- | []]. contradiction.
    + intros k'. rewrite in_app_iff. simpl. intuition auto.
    + intros e He. apply in_app_or in He. simpl in He. intuition auto.
Qed.

Lemma image_file_has_name (s : FileSystem) (p : Path) :
  io.is_image_file s p = true -> pystr.truthy (pathlib.name p) = true.
Proof.
  unfold io.is_image_file. intros H. apply andb_true_iff in H. destruct H as [_ H].
  destruct (pathlib.name p) eqn:E; [|reflexivity].
  unfold pathlib.suffix in H. rewrite E in H. discriminate.
Qed.

(** the key of an image file is always defined *)
Lemma key_defined (s : FileSystem) (rule : naming.PairingRule) (is_alpha : bool) (p : Path) :
  io.is_image_file s p = true -> exists k, naming._key_for_path p rule is_alpha = Ok k.
Proof.
  intros H. apply image_file_has_name in H. unfold naming._key_for_path.
  destruct (String.eqb (naming.mode rule) "suffix"); [eauto|].
  destruct (String.eqb (naming.mode rule) "folder"); [|eauto].
  match goal with |- context [match ?t with Some _ => _ | None => _ end] =>
    destruct t end; [eauto|].
  unfold pathlib.with_suffix_empty. rewrite H. eauto.
Qed.

Section Pairing.
Variables (s : FileSystem) (rule : naming.PairingRule).

(** what the loop that fills a map leaves: distinct keys, every entry
    the key of its path, and exactly the keys of the image files *)
Lemma fill_map_spec (is_alpha : bool) (paths : list Path) :
  forall d : naming.Dict,
    NoDup (map fst d) ->
    (forall k p, In (k, p) d -> naming._key_for_path p rule is_alpha = Ok k) ->
    exists d',
      naming.fill_map s rule is_alpha paths d = Ok d'
      /\ NoDup (map fst d')
      /\ (forall k p, In (k, p) d' -> naming._key_for_path p rule is_alpha = Ok k)
      /\ (forall k, In k (map fst d')
                    <-> In k (map fst d)
                        \/ In k (side_keys rule is_alpha (filter (io.is_image_file s) paths))).
Proof.
  induction paths as [|p rest IH]; intros d Hnd Hkey; simpl.
  - exists d. repeat split; auto. intros [H | []]. exact H.
  - destruct (io.is_image_file s p) eqn:Himg.
    + destruct (key_defined s rule is_alpha p Himg) as [k Hk]. rewrite Hk. simpl.
      destruct (setdefault_keys d k p Hnd) as (Hnd' & Hkeys & Hent).
      destruct (IH (naming.setdefault d k p) Hnd') as (d' & Hd' & Hn & He & Hk').
      { intros k0 p0 H0. destruct (Hent _ H0) as [H1 | H1]; [now apply Hkey|].
        injection H1 as -> ->. exact Hk. }
      exists d'. split; [exact Hd'|]. split; [exact Hn|]. split; [exact He|].
      intros k0. rewrite Hk', Hkeys. unfold side_keys. simpl. rewrite Hk. simpl.
      intuition auto.
    + destruct (IH d Hnd Hkey) as (d' & Hd' & Hn & He & Hk').
      exists d'. auto.
Qed.

(** the number of entries of a filled map is the number of distinct keys *)
Lemma fill_map_length (is_alpha : bool) (paths : list Path) (d' : naming.Dict) :
  naming.fill_map s rule is_alpha paths [] = Ok d' ->
  length d' = distinct_keys s rule is_alpha paths.
Proof.
  intros E.
  destruct (@fill_map_spec is_alpha paths [] (NoDup_nil _)) as (d2 & Hd2 & Hn & _ & Hk).
  { intros k p []. }
  rewrite E in Hd2. injection Hd2 as <-.
  unfold distinct_keys. rewrite <- (length_map fst d').
  apply Permutation_length. apply NoDup_Permutation.
  - exact Hn.
  - apply NoDup_nodup.
  - intros k. rewrite Hk, nodup_In. simpl. tauto.
Qed.

(** what the matching loop leaves *)
Lemma match_loop_spec (alpha_map : naming.Dict) (items : naming.Dict) :
  forall pairs used,
    exists used',
      naming.match_loop alpha_map items pairs used
      = (pairs ++ flat_map (pair_of alpha_map) items, used')
      /\ (forall k, naming.mem used' k = true
                    <-> naming.mem used k = true
                        \/ (In k (map fst items) /\ naming.contains alpha_map k = true)).
Proof.
  induction items as [|[k p] rest IH]; intros pairs used; simpl.
  - exists used. rewrite app_nil_r. split; [reflexivity|]. tauto.
  - unfold pair_of at 1. simpl. destruct (naming.get alpha_map k) as [a|] eqn:G.
    + destruct (IH (pairs ++ [(p, a)]) (naming.add used k)) as (used' & E & Hm).
      exists used'. rewrite E, <- app_assoc. split; [reflexivity|].
      intros k0. rewrite Hm, mem_add.
      assert (Hc : naming.contains alpha_map k = true)
        by (unfold naming.contains; now rewrite G).
      split.
      * intros [[<- | H] | [H1 H2]]; auto.
      * intros [H | [[<- | H1] H2]]; auto.
    + destruct (IH pairs used) as (used' & E & Hm).
      exists used'. rewrite E. split; [reflexivity|].
      intros k0. rewrite Hm.
      assert (Hc : naming.contains alpha_map k = false)
        by (unfold naming.contains; now rewrite G).
      split.
      * intros [H | [H1 H2]]; auto.
      * intros [H | [[<- | H1] H2]]; auto. congruence.
Qed.

Lemma pairs_length (alpha_map items : naming.Dict) :
  length (flat_map (pair_of alpha_map) items)
  = length (filter (fun kp => naming.contains alpha_map (fst kp)) items).
Proof.
  induction items as [|[k p] rest IH]; simpl; [reflexivity|].
  unfold pair_of at 1, naming.contains at 1. simpl.
  destruct (naming.get alpha_map k); simpl; now rewrite ?length_app, IH.
Qed.

Lemma filter_split_length (A : Type) (f : A -> bool) (l : list A) :
  (length (filter f l) + length (filter (fun x => negb (f x)) l) = length l)%nat.
Proof.
  induction l as [|x l IH]; simpl; [reflexivity|].
  destruct (f x); simpl; lia.
Qed.

(** two maps with distinct keys share as many keys seen from one side as
    from the other *)
Lemma shared_keys_length (d1 d2 : naming.Dict) :
  NoDup (map fst d1) -> NoDup (map fst d2) ->
  length (filter (fun kp => naming.contains d2 (fst kp)) d1)
  = length (filter (fun kp => naming.contains d1 (fst kp)) d2).
Proof.
  intros H1 H2.
  assert (Hf : forall (d d' : naming.Dict),
             map fst (filter (fun kp => naming.contains d' (fst kp)) d)
             = filter (naming.contains d') (map fst d)).
  { intros d d'. induction d as [|[k p] d IH]; simpl; [reflexivity|].
    destruct (naming.contains d' k); simpl; now rewrite IH. }
  rewrite <- (length_map fst (filter _ d1)), <- (length_map fst (filter _ d2)), !Hf.
  apply Permutation_length. apply NoDup_Permutation.
  - now apply NoDup_filter.
  - now apply NoDup_filter.
  - intros k. rewrite !filter_In, !contains_keys. tauto.
Qed.

End Pairing.

Lemma side_keys_In (rule : naming.PairingRule) (is_alpha : bool) (l : list Path) (k : string) :
  In k (side_keys rule is_alpha l)
  <-> exists p, In p l /\ naming._key_for_path p rule is_alpha = Ok k.
Proof.
  unfold side_keys. rewrite in_flat_map. split.
  - intros (p & Hp & Hk). exists p. split; [exact Hp|].
    destruct (naming._key_for_path p rule is_alpha); simpl in Hk; [|contradiction].
    destruct Hk as [-> | []]. reflexivity.
  - intros (p & Hp & Hk). exists p. split; [exact Hp|]. rewrite Hk. now left.
Qed.

Lemma bool_eq_of_iff (a b : bool) : (a = true <-> b = true) -> a = b.
Proof.
  destruct a, b; intros [H1 H2]; auto; symmetry; auto.
Qed.

Lemma in_pairs_inv (alpha_map items : naming.Dict) (p a : Path) :
  In (p, a) (flat_map (pair_of alpha_map) items) ->
  exists k, In (k, p) items /\ In (k, a) alpha_map.
Proof.
  intros H. apply in_flat_map in H. destruct H as ([k q] & Hin & Hp).
  unfold pair_of in Hp. simpl in Hp.
  destruct (naming.get alpha_map k) as [a'|] eqn:G; [|contradiction].
  destruct Hp as [E | []]. injection E as -> ->.
  exists k. split; [exact Hin | now apply get_In].
Qed.

Lemma in_entry_key (d : naming.Dict) (k : string) (p : Path) :
  In (k, p) d -> In k (map fst d).
Proof.
  intros H. apply in_map_iff. exists (k, p). auto.
Qed.

(** C5: [build_pairs] returns three lists, for all inputs and every
    rule; no RGB path is both in a pair and in [unpaired_rgb]; the pairs
    and the unpaired RGB paths are as many as the distinct RGB keys, the
    pairs and the unpaired alpha paths as many as the distinct alpha
    keys; the keys of the pairs, of the unpaired RGB paths and of the
    unpaired alpha paths are pairwise disjoint; the two paths of a pair
    have the same key. *)
Theorem C5_build_pairs_partitions_the_keys :
  forall (s : FileSystem) (rgb_paths alpha_paths : list Path) (rule : naming.PairingRule),
    exists pairs unpaired_rgb unpaired_alpha,
      naming.build_pairs s rgb_paths alpha_paths rule
      = Ok (pairs, unpaired_rgb, unpaired_alpha)
      /\ (forall p, In p (map fst pairs) -> ~ In p unpaired_rgb)
      /\ (length pairs + length unpaired_rgb = distinct_keys s rule false rgb_paths)%nat
      /\ (length pairs + length unpaired_alpha = distinct_keys s rule true alpha_paths)%nat
      /\ (forall k, ~ (In k (side_keys rule false (map fst pairs))
                       /\ In k (side_keys rule false unpaired_rgb)))
      /\ (forall k, ~ (In k (side_keys rule false (map fst pairs))
                       /\ In k (side_keys rule true unpaired_alpha)))
      /\ (forall k, ~ (In k (side_keys rule false unpaired_rgb)
                       /\ In k (side_keys rule true unpaired_alpha)))
      /\ (forall p a, In (p, a) pairs ->
                      exists k, naming._key_for_path p rule false = Ok k
                                /\ naming._key_for_path a rule true = Ok k).
Proof.
  intros s rgb_paths alpha_paths rule.
  destruct (@fill_map_spec s rule false rgb_paths [] (NoDup_nil _))
    as (rm & Erm & Nrm & Krm & _); [intros k p []|].
  destruct (@fill_map_spec s rule true alpha_paths [] (NoDup_nil _))
    as (am & Eam & Nam & Kam & _); [intros k p []|].
  destruct (match_loop_spec am rm [] []) as (used & Eml & Hused).
  unfold naming.build_pairs. rewrite Erm, Eam. cbn [bind]. rewrite Eml. cbn [app].
  set (c1 := fun kp : string * Path =>
               negb (naming.mem used (fst kp)) && negb (naming.contains am (fst kp))).
  set (c2 := fun kp : string * Path => negb (naming.mem used (fst kp))).
  (* the flag of a key of [rgb_map], and of a key of [alpha_map] *)
  assert (Hu_rgb : forall k, In k (map fst rm) ->
                             naming.mem used k = naming.contains am k).
  { intros k Hk. apply bool_eq_of_iff. rewrite Hused. split.
    - intros [H | [_ H]]; [discriminate H | exact H].
    - intros H. right. auto. }
  assert (Hu_alpha : forall k, In k (map fst am) ->
                               naming.mem used k = naming.contains rm k).
  { intros k Hk. apply bool_eq_of_iff. rewrite Hused, !contains_keys. split.
    - intros [H | [H _]]; [discriminate H | exact H].
    - intros H. right. auto. }
  assert (Hc1 : filter c1 rm = filter (fun kp => negb (naming.contains am (fst kp))) rm).
  { apply filter_ext_in. intros [k p] Hin. unfold c1. simpl.
    rewrite (Hu_rgb k (in_entry_key _ _ _ Hin)). now destruct (naming.contains am k). }
  assert (Hc2 : filter c2 am = filter (fun kp => negb (naming.contains rm (fst kp))) am).
  { apply filter_ext_in. intros [k p] Hin. unfold c2. simpl.
    now rewrite (Hu_alpha k (in_entry_key _ _ _ Hin)). }
  (* membership in the three lists *)
  assert (Hpairs : forall p a, In (p, a) (sort_by_str fst (flat_map (pair_of am) rm)) ->
                     exists k, In (k, p) rm /\ In (k, a) am).
  { intros p a H. apply (Permutation_in _ (sort_by_str_perm _ _)) in H.
    now apply in_pairs_inv. }
  assert (Hur : forall p, In p (sort_by_str (fun p => p) (map snd (filter c1 rm))) ->
                  exists k, In (k, p) rm /\ naming.contains am k = false).
  { intros p H. apply (Permutation_in _ (sort_by_str_perm _ _)) in H.
    rewrite Hc1 in H. apply in_map_iff in H. destruct H as ([k q] & <- & H).
    apply filter_In in H. destruct H as [H1 H2]. simpl in *.
    exists k. split; [exact H1|]. now destruct (naming.contains am k). }
  assert (Hua : forall a, In a (sort_by_str (fun p => p) (map snd (filter c2 am))) ->
                  exists k, In (k, a) am /\ naming.contains rm k = false).
  { intros a H. apply (Permutation_in _ (sort_by_str_perm _ _)) in H.
    rewrite Hc2 in H. apply in_map_iff in H. destruct H as ([k q] & <- & H).
    apply filter_In in H. destruct H as [H1 H2]. simpl in *.
    exists k. split; [exact H1|]. now destruct (naming.contains rm k). }
  (* the keys of the three lists *)
  assert (Kp : forall k, In k (side_keys rule false
                                 (map fst (sort_by_str fst (flat_map (pair_of am) rm)))) ->
                 naming.contains rm k = true /\ naming.contains am k = true).
  { intros k H. apply side_keys_In in H. destruct H as (p & Hp & Hk).
    apply in_map_iff in Hp. destruct Hp as ([p' a] & <- & Hp). simpl in Hk.
    destruct (Hpairs _ _ Hp) as (k0 & H1 & H2).
    pose proof (Krm _ _ H1) as Hk0. rewrite Hk in Hk0. injection Hk0 as ->.
    rewrite !contains_keys. split; eapply in_entry_key; eassumption. }
  assert (Kur : forall k, In k (side_keys rule false
                                  (sort_by_str (fun p => p) (map snd (filter c1 rm)))) ->
                  naming.contains rm k = true /\ naming.contains am k = false).
  { intros k H. apply side_keys_In in H. destruct H as (p & Hp & Hk).
    destruct (Hur _ Hp) as (k0 & H1 & H2).
    pose proof (Krm _ _ H1) as Hk0. rewrite Hk in Hk0. injection Hk0 as ->.
    split; [|exact H2]. rewrite contains_keys. eapply in_entry_key; eassumption. }
  assert (Kua : forall k, In k (side_keys rule true
                                  (sort_by_str (fun p => p) (map snd (filter c2 am)))) ->
                  naming.contains am k = true /\ naming.contains rm k = false).
  { intros k H. apply side_keys_In in H. destruct H as (a & Ha & Hk).
    destruct (Hua _ Ha) as (k0 & H1 & H2).
    pose proof (Kam _ _ H1) as Hk0. rewrite Hk in Hk0. injection Hk0 as ->.
    split; [|exact H2]. rewrite contains_keys. eapply in_entry_key; eassumption. }
  (* the lengths *)
  assert (Lp : length (sort_by_str fst (flat_map (pair_of am) rm))
               = length (filter (fun kp => naming.contains am (fst kp)) rm)).
  { rewrite (Permutation_length (sort_by_str_perm _ _)). apply pairs_length. }
  eexists _, _, _. split; [reflexivity|].
  split; [|split; [|split; [|split; [|split; [|split]]]]].
  - intros p Hp Hq. apply in_map_iff in Hp. destruct Hp as ([p' a] & <- & Hp).
    simpl in Hq. destruct (Hpairs _ _ Hp) as (k & H1 & H2).
    destruct (Hur _ Hq) as (k' & H1' & H2').
    pose proof (Krm _ _ H1) as E1. pose proof (Krm _ _ H1') as E2.
    rewrite E1 in E2. injection E2 as <-.
    apply in_entry_key, contains_keys in H2. congruence.
  - rewrite Lp, (Permutation_length (sort_by_str_perm _ _)), length_map, Hc1.
    rewrite filter_split_length. now apply fill_map_length.
  - rewrite Lp, (Permutation_length (sort_by_str_perm _ _)), length_map, Hc2.
    rewrite (shared_keys_length rm am Nrm Nam), filter_split_length.
    now apply fill_map_length.
  - intros k [H1 H2]. apply Kp in H1. apply Kur in H2. destruct H1, H2. congruence.
  - intros k [H1 H2]. apply Kp in H1. apply Kua in H2. destruct H1, H2. congruence.
  - intros k [H1 H2]. apply Kur in H1. apply Kua in H2. destruct H1, H2. congruence.
  - intros p a H. destruct (Hpairs _ _ H) as (k & H1 & H2).
    exists k. split; [now apply Krm | now apply Kam].
Qed.

Lemma C5_build_pairs_partitions_the_keys_witness :
  exists pairs unpaired_rgb unpaired_alpha,
    naming.build_pairs scenario_fs
      [["in"; "a.png"]; ["in"; "A.PNG"]; ["in"; "notes.txt"]]%string
      [["in"; "a_alpha.png"]; ["in"; "a.png"]]%string naming.default_rule
    = Ok (pairs, unpaired_rgb, unpaired_alpha)
    /\ (forall p, In p (map fst pairs) -> ~ In p unpaired_rgb)
    /\ (length pairs + length unpaired_rgb
        = distinct_keys scenario_fs naming.default_rule false
            [["in"; "a.png"]; ["in"; "A.PNG"]; ["in"; "notes.txt"]]%string)%nat
    /\ (length pairs + length unpaired_alpha
        = distinct_keys scenario_fs naming.default_rule true
            [["in"; "a_alpha.png"]; ["in"; "a.png"]]%string)%nat
    /\ (forall k, ~ (In k (side_keys naming.default_rule false (map fst pairs))
                     /\ In k (side_keys naming.default_rule false unpaired_rgb)))
    /\ (forall k, ~ (In k (side_keys naming.default_rule false (map fst pairs))
                     /\ In k (side_keys naming.default_rule true unpaired_alpha)))
    /\ (forall k, ~ (In k (side_keys naming.default_rule false unpaired_rgb)
                     /\ In k (side_keys naming.default_rule true unpaired_alpha)))
    /\ (forall p a, In (p, a) pairs ->
                    exists k, naming._key_for_path p naming.default_rule false = Ok k
                              /\ naming._key_for_path a naming.default_rule true = Ok k).
Proof.
  apply (C5_build_pairs_partitions_the_keys scenario_fs
           [["in"; "a.png"]; ["in"; "A.PNG"]; ["in"; "notes.txt"]]%string
           [["in"; "a_alpha.png"]; ["in"; "a.png"]]%string naming.default_rule).
Defined.

(** ** The scenarios of the specification, run *)

(** suffix-mode pairing of cat.png with cat_alpha.png under the default
    rule: one pair, nothing unpaired *)
Example scenario_suffix_pairing :
  naming.build_pairs
    (fs.mkFS [(["cat.png"], fs.File (fs.Encoded rgb_only));
              (["cat_alpha.png"], fs.File (fs.Encoded rgb_only))]%string pathlib.str)
    [["cat.png"]]%string [["cat_alpha.png"]]%string naming.default_rule
  = Ok ([(["cat.png"], ["cat_alpha.png"])]%string, [], []).
Proof. vm_compute. reflexivity. Qed.

(** a 64x64 mask against a 128x128 RGB image under [resize_mode="error"] *)
Example scenario_size_mismatch :
  ops_combine.combine_alpha (fun m _ _ => m)
    (PIL.ImgRGB (128, 128)%nat []) (PIL.ImgL (64, 64)%nat []) false "error" "nearest"
  = Raise (AlphaIOError (Mask_size_does_not_match (64, 64)%nat (128, 128)%nat)).
Proof. reflexivity. Qed.

(** an RGBA image whose alpha plane is all 255, validated with the
    default rules in binary64: WARN, near-all-opaque, pct_255 = 100.0 *)
Example scenario_all_opaque :
  snd (ops_validate.validate_alpha_file (fl := binary64) ["a.png"%string]
         ops_validate.default_rules
         (fs.mkFS [(["a.png"%string],
                    fs.File (fs.Encoded (PIL.ImgRGBA (2, 1)%nat
                                           [(1, 2, 3, 255); (4, 5, 6, 255)]%Z)))]
                  pathlib.str))
  = Ok (ops_validate.mkResult "a.png" true ops_validate.WARN
          [ops_validate.Alpha_is_all_opaque (float_of_Z 100);
           ops_validate.Alpha_is_near_constant (float_of_Z 0) 0]
          (Some (ops_validate.mkStats 2 1 255 255 (float_of_Z 255) (float_of_Z 0)
                   (float_of_Z 0) (float_of_Z 100) (float_of_Z 0)))).
Proof. vm_compute. reflexivity. Qed.

(** In binary64 the three percentages need not add up to 100.0 exactly:
    for one 0, four 255 and one value between, the sum is the float next
    above 100.0.  The equality of the specification holds up to
    rounding only. *)
Example binary64_percentages_round :
  match ops_validate.compute_alpha_stats (fl := binary64)
          (np.mk_array2 (1, 6)%nat [0; 255; 255; 255; 255; 7]%Z) with
  | Ok st =>
      let total := PrimFloat.add (PrimFloat.add (ops_validate.pct_zero st)
                                    (ops_validate.pct_255 st)) (ops_validate.pct_mid st) in
      PrimFloat.eqb total (float_of_Z 100) = false
      /\ PrimFloat.ltb (float_of_Z 100) total = true
      /\ PrimFloat.ltb (PrimFloat.sub total (float_of_Z 100))
           (PrimFloat.div (float_of_Z 1) (float_of_Z 1000000000000)) = true
  | Raise _ => False
  end.
Proof. vm_compute. repeat split. Qed.

(** The codec's luma rounds: a pixel one step below pure white already
    has luminance 255. *)
Example luma_of_near_white : PIL.luma (255, 255, 254)%Z = 255%Z.
Proof. reflexivity. Qed.


(* ================================================================== *)
(** * Further properties of the code *)

(** ** io.py: saving and loading *)

Lemma Path_eqb_eq (p q : Path) : pathlib.Path_eqb p q = true <-> p = q.
Proof.
  unfold pathlib.Path_eqb. destruct (pathlib.Path_eq_dec p q); split; congruence.
Qed.

Lemma Path_eqb_refl (p : Path) : pathlib.Path_eqb p p = true.
Proof. now apply Path_eqb_eq. Qed.

Lemma Path_eqb_neq (p q : Path) : p <> q -> pathlib.Path_eqb p q = false.
Proof.
  intros H. destruct (pathlib.Path_eqb p q) eqn:E; [|reflexivity].
  apply Path_eqb_eq in E. contradiction.
Qed.

Lemma assoc_filter_other (l : list (Path * fs.Node)) (p q : Path) :
  p <> q ->
  fs.assoc (filter (fun e => negb (pathlib.Path_eqb (fst e) p)) l) q = fs.assoc l q.
Proof.
  intros Hpq. induction l as [|[r n] l IH]; simpl; [reflexivity|].
  destruct (pathlib.Path_eqb r p) eqn:E; simpl.
  - apply Path_eqb_eq in E. subst r. rewrite (Path_eqb_neq Hpq). exact IH.
  - now rewrite IH.
Qed.

Lemma lookup_put_same (s : FileSystem) (p : Path) (n : fs.Node) :
  fs.lookup (fs.put s p n) p = Some n.
Proof.
  unfold fs.lookup, fs.put. simpl. now rewrite Path_eqb_refl.
Qed.

Lemma lookup_put_other (s : FileSystem) (p q : Path) (n : fs.Node) :
  p <> q -> fs.lookup (fs.put s p n) q = fs.lookup s q.
Proof.
  intros H. unfold fs.lookup, fs.put. simpl. rewrite (Path_eqb_neq H).
  now apply assoc_filter_other.
Qed.

Lemma mkdir_each_keeps (qs : list Path) :
  forall s s' r,
    fs.mkdir_each qs s = (s', r) ->
    (forall q n, fs.lookup s q = Some n -> fs.lookup s' q = Some n)
    /\ fs.resolve s' = fs.resolve s.
Proof.
  induction qs as [|d qs IH]; intros s s' r; simpl.
  - intros E. injection E as <- _. auto.
  - destruct (fs.lookup s d) as [[|c]|] eqn:L.
    + apply IH.
    + intros E. injection E as <- _. auto.
    + intros E. destruct (IH _ _ _ E) as [H1 H2]. split; [|exact H2].
      intros q n Hq. apply H1. rewrite lookup_put_other; [exact Hq|].
      intros ->. congruence.
Qed.

Lemma save_png_ok_inv (img : Image) (path : Path) (ow : bool) (s s' : FileSystem) :
  io.save_png img path ow s = (s', Ok tt) ->
  exists s1,
    fs.mkdir_parents (pathlib.parent path) s = (s1, Ok tt)
    /\ s' = fs.put s1 path (fs.File (fs.Encoded img))
    /\ (fs.exists_ s path = false \/ ow = true).
Proof.
  unfold io.save_png. destruct (fs.exists_ s path && negb ow) eqn:G; [discriminate|].
  destruct (fs.mkdir_parents (pathlib.parent path) s) as [s1 [[]|e]] eqn:M; [|discriminate].
  unfold fs.write_png. destruct (fs.is_dir s1 path); [discriminate|].
  intros E. injection E as <-. exists s1. split; [reflexivity|]. split; [reflexivity|].
  destruct (fs.exists_ s path), ow; simpl in G; auto; discriminate.
Qed.

(** whatever it returns, [save_png] keeps every other node *)
Lemma save_png_frame (img : Image) (path : Path) (ow : bool) (s s' : FileSystem)
    (r : result unit) :
  io.save_png img path ow s = (s', r) -> untouched_except [path] s s'.
Proof.
  unfold io.save_png, untouched_except.
  destruct (fs.exists_ s path && negb ow).
  { intros E. injection E as <- _. auto. }
  destruct (fs.mkdir_parents (pathlib.parent path) s) as [s1 [[]|e]] eqn:M.
  - destruct (mkdir_each_keeps _ _ M) as [K _]. unfold fs.write_png.
    destruct (fs.is_dir s1 path); intros E; injection E as <- _; intros q n Hq Hn.
    + now apply K.
    + rewrite lookup_put_other; [now apply K|]. intros ->. apply Hn. now left.
  - destruct (mkdir_each_keeps _ _ M) as [K _].
    intros E. injection E as <- _. intros q n Hq _. now apply K.
Qed.

(** X1: a PNG that [save_png] wrote loads back as the image saved, and
    saving touches no other existing file or directory. *)
Theorem X1_save_png_then_load_image :
  forall (img : Image) (path : Path) (overwrite : bool) (s s' : FileSystem),
    io.save_png img path overwrite s = (s', Ok tt) ->
    io.load_image path s' = (s', Ok img)
    /\ untouched_except [path] s s'
    /\ (fs.exists_ s path = true -> overwrite = true).
Proof.
  intros img path ow s s' E. split; [|split].
  - destruct (@save_png_ok_inv img path ow s s' E) as (s1 & _ & -> & _).
    unfold io.load_image, fs.open_image. now rewrite lookup_put_same.
  - exact (@save_png_frame img path ow s s' (Ok tt) E).
  - destruct (@save_png_ok_inv img path ow s s' E) as (s1 & _ & _ & [H | H]); [|auto].
    intros H'. congruence.
Qed.

Lemma X1_save_png_then_load_image_witness :
  io.load_image ["out"; "b.png"]%string
    (fst (io.save_png rgb_only ["out"; "b.png"]%string false scenario_fs))
  = (fst (io.save_png rgb_only ["out"; "b.png"]%string false scenario_fs), Ok rgb_only)
  /\ untouched_except [["out"; "b.png"]%string] scenario_fs
       (fst (io.save_png rgb_only ["out"; "b.png"]%string false scenario_fs))
  /\ (fs.exists_ scenario_fs ["out"; "b.png"]%string = true -> false = true).
Proof.
  apply (X1_save_png_then_load_image rgb_only ["out"; "b.png"]%string false scenario_fs).
  reflexivity.
Defined.

Lemma mkdir_each_raises_OSError (qs : list Path) :
  forall s s' e, fs.mkdir_each qs s = (s', Raise e) -> e = OSError.
Proof.
  induction qs as [|d qs IH]; intros s s' e; simpl; [discriminate|].
  destruct (fs.lookup s d) as [[|c]|].
  - apply IH.
  - intros E. now injection E as _ <-.
  - apply IH.
Qed.

(** X2: [save_png] raises "Refusing to overwrite" exactly when the path
    exists and [overwrite] is false, and then the file system is left as
    it was. *)
Theorem X2_save_png_overwrite_gate :
  forall (img : Image) (path : Path) (overwrite : bool) (s : FileSystem),
    (snd (io.save_png img path overwrite s)
       = Raise (AlphaIOError (Refusing_to_overwrite path))
     <-> fs.exists_ s path = true /\ overwrite = false)
    /\ (fs.exists_ s path = true -> overwrite = false ->
        io.save_png img path overwrite s
        = (s, Raise (AlphaIOError (Refusing_to_overwrite path)))).
Proof.
  intros img path ow s.
  assert (Hgate : fs.exists_ s path = true -> ow = false ->
                  io.save_png img path ow s
                  = (s, Raise (AlphaIOError (Refusing_to_overwrite path)))).
  { intros X ->. unfold io.save_png. now rewrite X. }
  split; [|exact Hgate]. split.
  - intros H. unfold io.save_png in H.
    destruct (fs.exists_ s path && negb ow) eqn:G.
    + apply andb_true_iff in G. destruct G as [G1 G2]. split; [exact G1|].
      now destruct ow.
    + exfalso.
      destruct (fs.mkdir_parents (pathlib.parent path) s) as [s1 [[]|e]] eqn:M.
      * unfold fs.write_png in H. destruct (fs.is_dir s1 path); discriminate H.
      * apply mkdir_each_raises_OSError in M. subst e. discriminate H.
  - intros [X ->]. now rewrite Hgate.
Qed.

(** ** io.py: path expansion *)

Lemma image_file_is_not_dir (s : FileSystem) (p : Path) :
  io.is_image_file s p = true -> fs.is_dir s p = false.
Proof.
  unfold io.is_image_file, fs.is_file, fs.is_dir. intros H.
  apply andb_true_iff in H. destruct H as [H _].
  destruct (fs.lookup s p) as [[|c]|]; try reflexivity; discriminate.
Qed.

Lemma unique_stable_fixed (s : FileSystem) (l : list Path) :
  forall seen,
    NoDup (map (fs.resolve s) l) ->
    (forall p, In p l -> ~ In (fs.resolve s p) seen) ->
    io.unique_stable s l seen = l.
Proof.
  induction l as [|p l IH]; intros seen Hnd Hs; simpl; [reflexivity|].
  simpl in Hnd. inversion_clear Hnd as [|? ? Hp Hl].
  destruct (existsb (String.eqb (fs.resolve s p)) seen) eqn:E.
  - exfalso. apply existsb_exists in E. destruct E as (k & Hk & Ek).
    apply String.eqb_eq in Ek. subst k. apply (Hs p); [now left | exact Hk].
  - f_equal. apply IH; [exact Hl|].
    intros q Hq [Hin | Hin].
    + apply Hp. rewrite Hin. now apply in_map.
    + apply (Hs q); [now right | exact Hin].
Qed.

Lemma unique_stable_covers (s : FileSystem) (l : list Path) :
  forall seen p,
    In p l -> ~ In (fs.resolve s p) seen ->
    exists q, In q (io.unique_stable s l seen) /\ fs.resolve s q = fs.resolve s p.
Proof.
  induction l as [|a l IH]; intros seen p Hin Hs; simpl; [contradiction|].
  destruct (existsb (String.eqb (fs.resolve s a)) seen) eqn:E.
  - destruct Hin as [-> | Hin].
    + exfalso. apply existsb_exists in E. destruct E as (k & Hk & Ek).
      apply String.eqb_eq in Ek. subst k. contradiction.
    + now apply IH.
  - destruct Hin as [-> | Hin].
    + exists p. split; [now left | reflexivity].
    + destruct (string_dec (fs.resolve s a) (fs.resolve s p)) as [Ek | Ek].
      * exists a. split; [now left | exact Ek].
      * destruct (IH (fs.resolve s a :: seen) p Hin) as (q & Hq & Eq).
        { intros [H | H]; [contradiction | contradiction]. }
        exists q. split; [now right | exact Eq].
Qed.

(** X3: Path Expansion is idempotent: expanding an expanded list gives
    the same list. *)
Theorem X3_expand_inputs_idempotent :
  forall (s : FileSystem) (paths : list Path),
    io.expand_inputs s (io.expand_inputs s paths) = io.expand_inputs s paths.
Proof.
  intros s paths. destruct (expand_inputs_spec s paths) as [Himg Hnd].
  set (out := io.expand_inputs s paths) in *.
  unfold io.expand_inputs at 1.
  assert (Hflat : forall l, (forall p, In p l -> io.is_image_file s p = true) ->
            flat_map (fun p => if fs.is_dir s p
                               then filter (io.is_image_file s)
                                      (sorted pathlib.leb (fs.rglob s p))
                               else if io.is_image_file s p then [p] else []) l = l).
  { induction l as [|p l IH]; intros H; simpl; [reflexivity|].
    rewrite (image_file_is_not_dir s p), (H p) by (apply H || idtac; now left).
    simpl. f_equal. apply IH. intros q Hq. apply H. now right. }
  rewrite (Hflat out Himg). apply unique_stable_fixed; [exact Hnd|].
  intros p _ [].
Qed.

(** X4: what Path Expansion returns and what it keeps.  Every path
    returned is an image file that was given or that lies below a given
    directory; every image file given, and every image file below a given
    directory, is represented in the result by a path that resolves to
    the same file. *)
Theorem X4_expand_inputs_sound_and_complete :
  forall (s : FileSystem) (paths : list Path),
    (forall q, In q (io.expand_inputs s paths) ->
               io.is_image_file s q = true
               /\ (In q paths
                   \/ exists d, In d paths /\ fs.is_dir s d = true
                                /\ pathlib.below d q = true))
    /\ (forall p, In p paths -> io.is_image_file s p = true ->
                  exists q, In q (io.expand_inputs s paths)
                            /\ fs.resolve s q = fs.resolve s p)
    /\ (forall d c, In d paths -> fs.is_dir s d = true ->
                    In c (fs.rglob s d) -> io.is_image_file s c = true ->
                    exists q, In q (io.expand_inputs s paths)
                              /\ fs.resolve s q = fs.resolve s c).
Proof.
  intros s paths. destruct (expand_inputs_spec s paths) as [Himg _].
  unfold io.expand_inputs in *.
  match goal with |- context [io.unique_stable s ?o []] => set (out := o) in * end.
  split; [|split].
  - intros q Hq. split; [now apply Himg|].
    destruct (unique_stable_spec s out []) as [H1 _].
    destruct (H1 q Hq) as [Hin _]. unfold out in Hin.
    apply in_flat_map in Hin. destruct Hin as (p & Hp & Hq').
    destruct (fs.is_dir s p) eqn:D.
    + right. exists p. split; [exact Hp|]. split; [exact D|].
      apply filter_In in Hq'. destruct Hq' as [Hq' _].
      apply (Permutation_in _ (sorted_perm _ _)) in Hq'.
      unfold fs.rglob in Hq'. apply filter_In in Hq'. tauto.
    + left. destruct (io.is_image_file s p); [|contradiction].
      destruct Hq' as [<- | []]. exact Hp.
  - intros p Hp Hi. apply unique_stable_covers; [|tauto].
    unfold out. apply in_flat_map. exists p. split; [exact Hp|].
    rewrite (image_file_is_not_dir s p Hi), Hi. now left.
  - intros d c Hd Hdir Hc Hi. apply unique_stable_covers; [|tauto].
    unfold out. apply in_flat_map. exists d. split; [exact Hd|].
    rewrite Hdir. apply filter_In. split; [|exact Hi].
    apply (Permutation_in _ (Permutation_sym (sorted_perm _ _))). exact Hc.
Qed.

Lemma X4_expand_inputs_sound_and_complete_witness :
  exists q, In q (io.expand_inputs scenario_fs [["in"]; ["in"; "a.png"]]%string)
            /\ fs.resolve scenario_fs q = fs.resolve scenario_fs ["in"; "a.png"]%string.
Proof.
  destruct (X4_expand_inputs_sound_and_complete scenario_fs
              [["in"]; ["in"; "a.png"]]%string) as (_ & H & _).
  apply H.
  - right. left. reflexivity.
  - reflexivity.
Defined.

(** ** io.py: the canonical forms *)

Lemma luma_grey (l : Z) : PIL.luma (PIL.grey l) = l.
Proof.
  unfold PIL.luma, PIL.grey. rewrite Z.shiftr_div_pow2 by lia.
  change (2 ^ 16)%Z with 65536%Z. symmetry.
  apply Z.div_unique with (r := 32768%Z); lia.
Qed.

Lemma map_luma_grey (px : list Z) : map (fun l => PIL.luma (PIL.grey l)) px = px.
Proof.
  induction px as [|l px IH]; [reflexivity|]. cbn [map]. now rewrite luma_grey, IH.
Qed.

Lemma ensure_rgba_wf (img : Image) : PIL.wf_image img -> PIL.wf_image (io.ensure_rgba img).
Proof.
  destruct img as [s px | s px | s pal px | s px | s px]; simpl; intros H.
  - eapply Forall_map_intro; [|exact H]. intros x Hx.
    unfold PIL.opaque, PIL.grey, PIL.u8_rgba, PIL.u8 in *. lia.
  - eapply Forall_map_intro; [|exact H]. intros x [Hx Hy]. simpl. tauto.
  - apply Forall_map_any. intros i. apply lookup_u8, H.
  - eapply Forall_map_intro; [|exact H]. intros [[r g] b] Hc.
    unfold PIL.opaque, PIL.u8_rgba, PIL.u8_rgb, PIL.u8 in *. lia.
  - exact H.
Qed.

Lemma ensure_l_wf (img : Image) : PIL.wf_image img -> PIL.wf_image (io.ensure_l img).
Proof.
  destruct img as [s px | s px | s pal px | s px | s px]; simpl; intros H.
  - exact H.
  - eapply Forall_map_intro; [|exact H]. intros x [Hx _]. exact Hx.
  - apply Forall_map_any. intros i. apply luma_u8, drop_alpha_u8, lookup_u8, H.
  - eapply Forall_map_intro; [|exact H]. apply luma_u8.
  - rewrite map_map. eapply Forall_map_intro; [|exact H].
    intros c Hc. apply luma_u8, drop_alpha_u8, Hc.
Qed.

(** X5: the three canonical forms.  [ensure_rgba], [ensure_rgb] and
    [ensure_l] return an image of mode RGBA, RGB and L of the size of
    their argument, with byte samples when the argument has byte samples;
    each is idempotent; dropping to RGB after adding alpha is dropping to
    RGB directly. *)
Theorem X5_canonical_forms :
  forall img : Image,
    PIL.mode (io.ensure_rgba img) = "RGBA"%string
    /\ PIL.mode (io.ensure_rgb img) = "RGB"%string
    /\ PIL.mode (io.ensure_l img) = "L"%string
    /\ PIL.size (io.ensure_rgba img) = PIL.size img
    /\ PIL.size (io.ensure_rgb img) = PIL.size img
    /\ PIL.size (io.ensure_l img) = PIL.size img
    /\ io.ensure_rgba (io.ensure_rgba img) = io.ensure_rgba img
    /\ io.ensure_rgb (io.ensure_rgb img) = io.ensure_rgb img
    /\ io.ensure_l (io.ensure_l img) = io.ensure_l img
    /\ io.ensure_rgb (io.ensure_rgba img) = io.ensure_rgb img
    /\ (PIL.wf_image img ->
        PIL.wf_image (io.ensure_rgba img) /\ PIL.wf_image (io.ensure_rgb img)
        /\ PIL.wf_image (io.ensure_l img)).
Proof.
  intros img.
  assert (Hcomp : io.ensure_rgb (io.ensure_rgba img) = io.ensure_rgb img).
  { destruct img as [s px | s px | s pal px | s px | s px]; unfold io.ensure_rgb; simpl;
      rewrite ?map_map; try reflexivity; f_equal.
    rewrite <- (map_id px) at 2. apply map_ext. now intros [[r g] b]. }
  repeat split;
    try (destruct img; reflexivity);
    try exact Hcomp.
  - now apply ensure_rgba_wf.
  - now apply ensure_rgb_wf.
  - now apply ensure_l_wf.
Qed.

Lemma X5_canonical_forms_witness :
  PIL.wf_image (io.ensure_rgba rgb_only) /\ PIL.wf_image (io.ensure_rgb rgb_only)
  /\ PIL.wf_image (io.ensure_l rgb_only).
Proof.
  apply (X5_canonical_forms rgb_only). unfold rgb_only. bytes.
Defined.

Lemma ensure_l_after_ensure_rgb (img : Image) :
  io.ensure_l (io.ensure_rgb img) = io.ensure_l img.
Proof.
  destruct img as [s px | s px | s pal px | s px | s px]; unfold io.ensure_l; simpl;
    rewrite ?map_map; try reflexivity; f_equal.
  - apply map_luma_grey.
  - apply map_ext. intros [l a]. apply luma_grey.
Qed.

(** X6: the luminance mask of an image is the single-channel form the
    combine engine makes of that image when it is handed in as a mask:
    [generate_alpha_luminance img = ensure_l img].  So combining with a
    colour image as mask gives the result of combining with its generated
    luminance mask, and saving a generated luminance mask saves it as is. *)
Theorem X6_luminance_is_the_mask_form :
  forall (resize : Image -> Size -> PIL.Resampling -> Image)
         (img rgb_img : Image) (invert : bool) (resize_mode resample : string),
    ops_generate.generate_alpha_luminance img = io.ensure_l img
    /\ io.ensure_l (ops_generate.generate_alpha_luminance img)
       = ops_generate.generate_alpha_luminance img
    /\ ops_combine.combine_alpha resize rgb_img
         (ops_generate.generate_alpha_luminance img) invert resize_mode resample
       = ops_combine.combine_alpha resize rgb_img img invert resize_mode resample.
Proof.
  intros resize img rgb_img invert rm rs.
  assert (E : ops_generate.generate_alpha_luminance img = io.ensure_l img).
  { unfold ops_generate.generate_alpha_luminance.
    rewrite <- ensure_l_after_ensure_rgb.
    destruct (ensure_rgb_is_RGB img) as (s & px & ->). reflexivity. }
  assert (I : io.ensure_l (io.ensure_l img) = io.ensure_l img)
    by (destruct img; reflexivity).
  split; [exact E|]. split; [now rewrite E|].
  apply combine_alpha_depends_on_ensure_l. now rewrite E.
Qed.

(** ** ops_split.py and ops_combine.py: the engines *)

Lemma ensure_rgb_after_ensure_rgba (img : Image) :
  io.ensure_rgb (io.ensure_rgba img) = io.ensure_rgb img.
Proof.
  destruct img as [s px | s px | s pal px | s px | s px]; unfold io.ensure_rgb; simpl;
    rewrite ?map_map; try reflexivity; f_equal.
  rewrite <- (map_id px) at 2. apply map_ext. now intros [[r g] b].
Qed.

Lemma zip4_projections (cpx : list PIL.RGBpx) :
  forall mpx : list Z,
    length mpx = length cpx ->
    map PIL.drop_alpha
      (PIL.zip4 (map (fun c => fst (fst c)) cpx) (map (fun c => snd (fst c)) cpx)
         (map (fun c => snd c) cpx) mpx) = cpx
    /\ map (fun c : PIL.RGBApx => snd c)
         (PIL.zip4 (map (fun c => fst (fst c)) cpx) (map (fun c => snd (fst c)) cpx)
            (map (fun c => snd c) cpx) mpx) = mpx.
Proof.
  induction cpx as [|[[r g] b] cpx IH]; intros [|m mpx] Hlen;
    simpl in *; try discriminate; auto.
  injection Hlen as Hlen. destruct (IH mpx Hlen) as [IH1 IH2].
  rewrite IH1, IH2. auto.
Qed.

(** X7: [split_alpha] returns the RGB form of the image as its first
    half and, as its second, the fourth band of the RGBA form: a mode-L
    image; both have the size of the image.  For an image of mode RGBA or
    LA the mask is the alpha plane of the image itself. *)
Theorem X7_split_alpha_halves :
  forall (img : Image) (on_missing_alpha : string),
    exists a,
      ops_split.split_alpha img on_missing_alpha = Ok (io.ensure_rgb img, a)
      /\ PIL.mode a = "L"%string
      /\ PIL.size a = PIL.size img
      /\ PIL.size (io.ensure_rgb img) = PIL.size img
      /\ nth_error (PIL.split (io.ensure_rgba img)) 3 = Some a
      /\ (forall s px, img = PIL.ImgRGBA s px ->
            a = PIL.ImgL s (map (fun c : PIL.RGBApx => snd c) px))
      /\ (forall s px, img = PIL.ImgLA s px -> a = PIL.ImgL s (map snd px)).
Proof.
  intros img oma.
  destruct (mode_RGBA_inv _ (ensure_rgba_mode img)) as (s & px & E).
  rewrite (split_alpha_of_rgba img oma E).
  rewrite <- (ensure_rgb_after_ensure_rgba img), E.
  pose proof (ensure_rgba_size img) as Hs. rewrite E in Hs. simpl in Hs.
  eexists. split; [reflexivity|]. split; [reflexivity|].
  split; [exact Hs|]. split; [|split; [reflexivity|split]].
  - exact Hs.
  - intros s0 px0 ->. unfold io.ensure_rgba in E. simpl in E.
    injection E as <- <-. reflexivity.
  - intros s0 px0 ->. unfold io.ensure_rgba in E. simpl in E.
    injection E as <- <-. now rewrite map_map.
Qed.

Lemma X7_split_alpha_halves_witness :
  exists a,
    ops_split.split_alpha (PIL.ImgLA (2, 1)%nat [(10, 0); (200, 128)]%Z) "error"
    = Ok (io.ensure_rgb (PIL.ImgLA (2, 1)%nat [(10, 0); (200, 128)]%Z), a)
    /\ a = PIL.ImgL (2, 1)%nat [0; 128]%Z.
Proof.
  destruct (X7_split_alpha_halves (PIL.ImgLA (2, 1)%nat [(10, 0); (200, 128)]%Z) "error")
    as (a & E & _ & _ & _ & _ & _ & H).
  exists a. split; [exact E|]. apply (H (2, 1)%nat [(10, 0); (200, 128)]%Z). reflexivity.
Defined.

(** X8: the round trip the other way: splitting what [combine_alpha]
    made of an RGB image and a mode-L mask (same size, one mask sample
    per pixel, no inversion) gives back the RGB image and the mask. *)
Theorem X8_split_combine_roundtrip :
  forall (resize : Image -> Size -> PIL.Resampling -> Image) (s : Size)
         (cpx : list PIL.RGBpx) (mpx : list Z)
         (on_missing_alpha resize_mode resample : string),
    length mpx = length cpx ->
    exists rgba,
      ops_combine.combine_alpha resize (PIL.ImgRGB s cpx) (PIL.ImgL s mpx) false
        resize_mode resample = Ok rgba
      /\ ops_split.split_alpha rgba on_missing_alpha
         = Ok (PIL.ImgRGB s cpx, PIL.ImgL s mpx).
Proof.
  intros resize s cpx mpx oma rm rs Hlen.
  unfold ops_combine.combine_alpha. simpl. rewrite !Size_eqb_refl. simpl.
  rewrite !Size_eqb_refl. simpl. eexists. split; [reflexivity|].
  match goal with
  | |- ops_split.split_alpha (PIL.ImgRGBA s ?px) _ = _ =>
      rewrite (@split_alpha_of_rgba (PIL.ImgRGBA s px) oma s px eq_refl)
  end.
  destruct (zip4_projections cpx mpx Hlen) as [E1 E2]. rewrite E1.
  do 3 f_equal. exact E2.
Qed.

Lemma X8_split_combine_roundtrip_witness :
  exists rgba,
    ops_combine.combine_alpha (fun m _ _ => m)
      (PIL.ImgRGB (2, 1)%nat [(1, 2, 3); (4, 5, 6)]%Z) (PIL.ImgL (2, 1)%nat [7; 8]%Z)
      false "error" "nearest" = Ok rgba
    /\ ops_split.split_alpha rgba "opaque"
       = Ok (PIL.ImgRGB (2, 1)%nat [(1, 2, 3); (4, 5, 6)]%Z, PIL.ImgL (2, 1)%nat [7; 8]%Z).
Proof.
  apply (X8_split_combine_roundtrip (fun m _ _ => m) (2, 1)%nat
           [(1, 2, 3); (4, 5, 6)]%Z [7; 8]%Z "opaque" "error" "nearest").
  reflexivity.
Defined.

Lemma split_alpha_mask_is_L (img : Image) (oma : string) (rgb a : Image) :
  ops_split.split_alpha img oma = Ok (rgb, a) -> io.ensure_l a = a.
Proof.
  destruct (mode_RGBA_inv _ (ensure_rgba_mode img)) as (s & px & E).
  rewrite (split_alpha_of_rgba img oma E). intros H. injection H as _ <-. reflexivity.
Qed.

Lemma untouched_trans (o1 o2 : list Path) (s1 s2 s3 : FileSystem) :
  untouched_except o1 s1 s2 -> untouched_except o2 s2 s3 ->
  untouched_except (o1 ++ o2) s1 s3.
Proof.
  intros H1 H2 q n Hq Hn. apply H2; [apply H1|]; auto.
  - intros H. apply Hn, in_or_app. now left.
  - intros H. apply Hn, in_or_app. now right.
Qed.



Lemma split_alpha_defined (img : Image) (oma : string) :
  exists rgb a, ops_split.split_alpha img oma = Ok (rgb, a).
Proof.
  destruct (mode_RGBA_inv _ (ensure_rgba_mode img)) as (s & px & E).
  rewrite (split_alpha_of_rgba img oma E). eauto.
Qed.

(** what [split_alpha_file] does, step by step *)
Lemma split_alpha_file_steps (in_path out_rgb out_a : Path) (ow : bool) (oma : string)
    (s : FileSystem) :
  match fs.open_image s in_path with
  | None => ops_split.split_alpha_file in_path out_rgb out_a ow oma s
            = (s, Raise (AlphaIOError (Failed_to_load_image in_path)))
  | Some img =>
      exists rgb a,
        ops_split.split_alpha img oma = Ok (rgb, a)
        /\ io.ensure_l a = a
        /\ ops_split.split_alpha_file in_path out_rgb out_a ow oma s
           = match io.save_png rgb out_rgb ow s with
             | (s1, Ok _) => io.save_png a out_a ow s1
             | (s1, Raise e) => (s1, Raise e)
             end
  end.
Proof.
  unfold ops_split.split_alpha_file, bindIO, io.load_image, lift.
  destruct (fs.open_image s in_path) as [img|]; [|reflexivity].
  destruct (split_alpha_defined img oma) as (rgb & a & E).
  exists rgb, a. split; [exact E|]. split; [exact (split_alpha_mask_is_L _ _ E)|].
  rewrite E. simpl. unfold io.save_mask_png.
  rewrite (split_alpha_mask_is_L _ _ E). reflexivity.
Qed.

(** X9: when [split_alpha_file] returns, the mask file loads back as the
    mask [split_alpha] computed from the input image, the RGB file as
    its RGB half (when the two output paths differ), and no other
    existing file or directory has changed. *)
Theorem X9_split_alpha_file_postcondition :
  forall (in_path out_rgb_path out_alpha_path : Path) (overwrite : bool)
         (on_missing_alpha : string) (s s' : FileSystem),
    ops_split.split_alpha_file in_path out_rgb_path out_alpha_path overwrite
      on_missing_alpha s = (s', Ok tt) ->
    exists img rgb a,
      fs.open_image s in_path = Some img
      /\ ops_split.split_alpha img on_missing_alpha = Ok (rgb, a)
      /\ fs.open_image s' out_alpha_path = Some a
      /\ (out_rgb_path <> out_alpha_path -> fs.open_image s' out_rgb_path = Some rgb)
      /\ untouched_except [out_rgb_path; out_alpha_path] s s'.
Proof.
  intros in_path out_rgb out_a ow oma s s' E.
  pose proof (split_alpha_file_steps in_path out_rgb out_a ow oma s) as St.
  destruct (fs.open_image s in_path) as [img|]; [|rewrite St in E; discriminate].
  destruct St as (rgb & a & Hsp & _ & St). rewrite St in E. clear St.
  destruct (io.save_png rgb out_rgb ow s) as [s1 [[]|e]] eqn:S1; [|discriminate].
  exists img, rgb, a. split; [reflexivity|]. split; [exact Hsp|].
  destruct (@save_png_ok_inv a out_a ow s1 s' E) as (s2 & _ & -> & _).
  destruct (@save_png_ok_inv rgb out_rgb ow s s1 S1) as (s0 & _ & E1 & _).
  pose proof (@save_png_frame a out_a ow s1 _ _ E) as F2.
  pose proof (@save_png_frame rgb out_rgb ow s s1 _ S1) as F1.
  split; [|split].
  - unfold fs.open_image. now rewrite lookup_put_same.
  - intros Hne. unfold fs.open_image. rewrite (F2 out_rgb (fs.File (fs.Encoded rgb))).
    + reflexivity.
    + rewrite E1. apply lookup_put_same.
    + intros [H | []]. congruence.
  - exact (untouched_trans F1 F2).
Qed.

Lemma X9_split_alpha_file_postcondition_witness :
  exists img rgb a,
    fs.open_image scenario_fs ["in"; "a.png"]%string = Some img
    /\ ops_split.split_alpha img "opaque" = Ok (rgb, a)
    /\ fs.open_image
         (fst (ops_split.split_alpha_file ["in"; "a.png"]%string ["o"; "a_rgb.png"]%string
                 ["o"; "a_alpha.png"]%string false "opaque" scenario_fs))
         ["o"; "a_alpha.png"]%string = Some a
    /\ (["o"; "a_rgb.png"]%string <> ["o"; "a_alpha.png"]%string ->
        fs.open_image
          (fst (ops_split.split_alpha_file ["in"; "a.png"]%string ["o"; "a_rgb.png"]%string
                  ["o"; "a_alpha.png"]%string false "opaque" scenario_fs))
          ["o"; "a_rgb.png"]%string = Some rgb)
    /\ untouched_except [["o"; "a_rgb.png"]; ["o"; "a_alpha.png"]]%string scenario_fs
         (fst (ops_split.split_alpha_file ["in"; "a.png"]%string ["o"; "a_rgb.png"]%string
                 ["o"; "a_alpha.png"]%string false "opaque" scenario_fs)).
Proof.
  apply (X9_split_alpha_file_postcondition ["in"; "a.png"]%string ["o"; "a_rgb.png"]%string
           ["o"; "a_alpha.png"]%string false "opaque" scenario_fs).
  reflexivity.
Defined.

Lemma save_png_keeps_existence (img : Image) (path q : Path) (ow : bool)
    (s s' : FileSystem) (r : result unit) :
  io.save_png img path ow s = (s', r) -> fs.exists_ s q = true -> fs.exists_ s' q = true.
Proof.
  intros E X. unfold fs.exists_ in X |- *.
  destruct (fs.lookup s q) as [n|] eqn:L; [clear X|discriminate].
  destruct (pathlib.Path_eq_dec path q) as [<- | Hne].
  - unfold io.save_png in E. destruct (fs.exists_ s path && negb ow).
    { injection E as <- _. now rewrite L. }
    destruct (fs.mkdir_parents (pathlib.parent path) s) as [s1 [[]|e]] eqn:M.
    + destruct (mkdir_each_keeps _ _ M) as [K _]. unfold fs.write_png in E.
      destruct (fs.is_dir s1 path); injection E as <- _.
      * now rewrite (K _ _ L).
      * now rewrite lookup_put_same.
    + destruct (mkdir_each_keeps _ _ M) as [K _]. injection E as <- _.
      now rewrite (K _ _ L).
  - rewrite (@save_png_frame img path ow s s' r E q n L); [reflexivity|].
    intros [H | []]. contradiction.
Qed.

(** X10: [split_alpha_file] is not atomic.  When the RGB file can be
    written but the mask path already exists and [overwrite] is false,
    the call raises "Refusing to overwrite" for the mask after it has
    written the RGB file, which stays. *)
Theorem X10_split_alpha_file_leaves_rgb_behind :
  forall (in_path out_rgb_path out_alpha_path : Path) (on_missing_alpha : string)
         (s s1 : FileSystem) (img rgb a : Image),
    fs.open_image s in_path = Some img ->
    ops_split.split_alpha img on_missing_alpha = Ok (rgb, a) ->
    io.save_png rgb out_rgb_path false s = (s1, Ok tt) ->
    fs.exists_ s out_alpha_path = true ->
    ops_split.split_alpha_file in_path out_rgb_path out_alpha_path false
      on_missing_alpha s
    = (s1, Raise (AlphaIOError (Refusing_to_overwrite out_alpha_path)))
    /\ fs.open_image s1 out_rgb_path = Some rgb
    /\ fs.exists_ s out_rgb_path = false.
Proof.
  intros in_path out_rgb out_a oma s s1 img rgb a Hop Hsp S1 Xa.
  pose proof (split_alpha_file_steps in_path out_rgb out_a false oma s) as St.
  rewrite Hop in St. destruct St as (rgb' & a' & Hsp' & _ & St).
  rewrite Hsp in Hsp'. injection Hsp' as <- <-. rewrite St, S1.
  pose proof (save_png_keeps_existence _ _ out_a _ _ S1 Xa) as Xa1.
  assert (G : io.save_png a out_a false s1
              = (s1, Raise (AlphaIOError (Refusing_to_overwrite out_a))))
    by (unfold io.save_png; now rewrite Xa1).
  rewrite G.
  destruct (@save_png_ok_inv rgb out_rgb false s s1 S1) as (s0 & _ & E1 & [H | H]);
    [|discriminate].
  split; [reflexivity|]. split; [|exact H].
  rewrite E1. unfold fs.open_image. now rewrite lookup_put_same.
Qed.

Lemma X10_split_alpha_file_leaves_rgb_behind_witness :
  ops_split.split_alpha_file ["in"; "a.png"]%string ["o"; "a_rgb.png"]%string
    ["o"; "a_alpha.png"]%string false "opaque"
    (fs.put scenario_fs ["o"; "a_alpha.png"]%string (fs.File fs.Undecodable))
  = (fst (io.save_png rgb_only ["o"; "a_rgb.png"]%string false
            (fs.put scenario_fs ["o"; "a_alpha.png"]%string (fs.File fs.Undecodable))),
     Raise (AlphaIOError (Refusing_to_overwrite ["o"; "a_alpha.png"]%string)))
  /\ fs.open_image
       (fst (io.save_png rgb_only ["o"; "a_rgb.png"]%string false
               (fs.put scenario_fs ["o"; "a_alpha.png"]%string (fs.File fs.Undecodable))))
       ["o"; "a_rgb.png"]%string = Some rgb_only
  /\ fs.exists_ (fs.put scenario_fs ["o"; "a_alpha.png"]%string (fs.File fs.Undecodable))
       ["o"; "a_rgb.png"]%string = false.
Proof.
  apply (@X10_split_alpha_file_leaves_rgb_behind
           ["in"; "a.png"]%string ["o"; "a_rgb.png"]%string ["o"; "a_alpha.png"]%string
           "opaque"
           (fs.put scenario_fs ["o"; "a_alpha.png"]%string (fs.File fs.Undecodable))
           _ rgb_only rgb_only (PIL.ImgL (2, 1)%nat [255; 255]%Z)).
  - reflexivity.
  - reflexivity.
  - reflexivity.
  - reflexivity.
Defined.

(** X11: [combine_alpha] fails on a size mismatch under
    [resize_mode="error"], naming both sizes, and on nothing else: with
    a resampler that returns a mode-L image of the size asked for, every
    other call returns an RGBA image of the size of the RGB input.  Any
    [resize_mode] other than "error" resizes, and any [resample] other
    than "bilinear" is nearest-neighbour. *)
Theorem X11_combine_alpha_fails_only_on_size_mismatch :
  forall (resize : Image -> Size -> PIL.Resampling -> Image)
         (rgb_img alpha_mask : Image) (invert : bool) (resize_mode resample : string),
    (forall m sz f, PIL.mode m = "L"%string ->
                    PIL.mode (resize m sz f) = "L"%string /\ PIL.size (resize m sz f) = sz) ->
    (PIL.size alpha_mask <> PIL.size rgb_img -> resize_mode = "error"%string ->
     ops_combine.combine_alpha resize rgb_img alpha_mask invert resize_mode resample
     = Raise (AlphaIOError (Mask_size_does_not_match (PIL.size alpha_mask)
                              (PIL.size rgb_img))))
    /\ (PIL.size alpha_mask = PIL.size rgb_img \/ resize_mode <> "error"%string ->
        exists out,
          ops_combine.combine_alpha resize rgb_img alpha_mask invert resize_mode resample
          = Ok (PIL.ImgRGBA (PIL.size rgb_img) out))
    /\ (PIL.size alpha_mask <> PIL.size rgb_img -> resize_mode <> "error"%string ->
        ops_combine.combine_alpha resize rgb_img alpha_mask invert resize_mode resample
        = ops_combine.combine_alpha resize rgb_img
            (resize (io.ensure_l alpha_mask) (PIL.size rgb_img)
               (if String.eqb resample "bilinear" then PIL.BILINEAR else PIL.NEAREST))
            invert "error" resample).
Proof.
  intros resize rgb_img mask invert rm rs Hres.
  assert (Hsz_l : PIL.size (io.ensure_l mask) = PIL.size mask) by (destruct mask; reflexivity).
  assert (Hsz_r : PIL.size (io.ensure_rgb rgb_img) = PIL.size rgb_img)
    by (destruct rgb_img; reflexivity).
  destruct (ensure_rgb_is_RGB rgb_img) as (s & px & Er).
  destruct (mode_L_inv _ (ensure_l_mode mask)) as (sm & mpx & El).
  assert (Hmerge : forall (m : Image) (inv : bool),
             PIL.mode m = "L"%string -> PIL.size m = s ->
             exists out,
               match PIL.split (PIL.ImgRGB s px) with
               | [r; g; b] =>
                   PIL.merge_RGBA [r; g; b; if inv then PIL.eval m (fun v => 255 - v)%Z else m]
               | _ => Raise ValueError
               end = Ok (PIL.ImgRGBA s out)).
  { intros m inv Hm Hs. destruct (mode_L_inv _ Hm) as (s' & p' & ->).
    simpl in Hs. subst s'. simpl. destruct inv; simpl; rewrite !Size_eqb_refl; simpl; eauto. }
  rewrite Er, El in *. simpl in Hsz_l, Hsz_r. subst sm s.
  unfold ops_combine.combine_alpha. rewrite Er, El. simpl PIL.size.
  split; [|split].
  - intros Hne ->. destruct (Size_eqb (PIL.size mask) (PIL.size rgb_img)) eqn:E.
    + apply Size_eqb_eq in E. contradiction.
    + reflexivity.
  - intros H. destruct (Size_eqb (PIL.size mask) (PIL.size rgb_img)) eqn:E.
    + apply Size_eqb_eq in E. simpl negb. cbv iota. cbn [bind].
      destruct (Hmerge (PIL.ImgL (PIL.size mask) mpx) invert eq_refl E) as (out & Ho).
      exists out. exact Ho.
    + destruct H as [H | H]; [apply Size_eqb_eq in H; congruence|].
      apply String.eqb_neq in H. simpl negb. cbv iota. rewrite H. cbn [bind].
      destruct (Hres (PIL.ImgL (PIL.size mask) mpx) (PIL.size rgb_img)
                  (ops_combine._resample_to_pil rs) eq_refl) as [Hm Hs].
      destruct (Hmerge _ invert Hm Hs) as (out & Ho). exists out. exact Ho.
  - intros Hne Hrm. apply String.eqb_neq in Hrm.
    destruct (Size_eqb (PIL.size mask) (PIL.size rgb_img)) eqn:E.
    + apply Size_eqb_eq in E. contradiction.
    + simpl negb. cbv iota. rewrite Hrm. cbn [bind].
      fold (ops_combine._resample_to_pil rs).
      destruct (Hres (PIL.ImgL (PIL.size mask) mpx) (PIL.size rgb_img)
                  (ops_combine._resample_to_pil rs) eq_refl) as [Hm Hs].
      destruct (mode_L_inv _ Hm) as (s' & p' & Ep). rewrite Ep in *. simpl in Hs. subst s'.
      unfold io.ensure_l. simpl. rewrite Size_eqb_refl. reflexivity.
Qed.

Lemma X11_combine_alpha_fails_only_on_size_mismatch_witness :
  ops_combine.combine_alpha (fun m sz _ => PIL.new_L sz (hd 0%Z (concat (PIL.pixels m))))
    (PIL.ImgRGB (2, 1)%nat [(1, 2, 3); (4, 5, 6)]%Z) (PIL.ImgL (1, 1)%nat [9%Z])
    false "error" "nearest"
  = Raise (AlphaIOError (Mask_size_does_not_match (1, 1)%nat (2, 1)%nat))
  /\ exists out,
       ops_combine.combine_alpha (fun m sz _ => PIL.new_L sz (hd 0%Z (concat (PIL.pixels m))))
         (PIL.ImgRGB (2, 1)%nat [(1, 2, 3); (4, 5, 6)]%Z) (PIL.ImgL (1, 1)%nat [9%Z])
         false "resize" "nearest"
       = Ok (PIL.ImgRGBA (2, 1)%nat out).
Proof.
  split.
  - apply (X11_combine_alpha_fails_only_on_size_mismatch
             (fun m sz _ => PIL.new_L sz (hd 0%Z (concat (PIL.pixels m))))
             (PIL.ImgRGB (2, 1)%nat [(1, 2, 3); (4, 5, 6)]%Z) (PIL.ImgL (1, 1)%nat [9%Z])
             false "error" "nearest").
    + intros m sz f _. split; reflexivity.
    + discriminate.
    + reflexivity.
  - apply (X11_combine_alpha_fails_only_on_size_mismatch
             (fun m sz _ => PIL.new_L sz (hd 0%Z (concat (PIL.pixels m))))
             (PIL.ImgRGB (2, 1)%nat [(1, 2, 3); (4, 5, 6)]%Z) (PIL.ImgL (1, 1)%nat [9%Z])
             false "resize" "nearest").
    + intros m sz f _. split; reflexivity.
    + right. discriminate.
Defined.

Lemma map_invert_twice (px : list Z) :
  map (fun v => 255 - v)%Z (map (fun v => 255 - v)%Z px) = px.
Proof.
  rewrite map_map. rewrite <- (map_id px) at 2. apply map_ext. intros v. lia.
Qed.

(** X12: inversion.  Inverting a mask twice gives the mask back (in its
    single-channel form); and [combine_alpha] with [invert] set is
    [combine_alpha] without it on the inverted mask, when the mask has
    the size of the RGB image or [resize_mode] is "error". *)
Theorem X12_invert_is_an_involution :
  forall (resize : Image -> Size -> PIL.Resampling -> Image)
         (rgb_img mask : Image) (resize_mode resample : string),
    ops_generate._maybe_invert (ops_generate._maybe_invert mask true) true
    = io.ensure_l mask
    /\ ops_generate._maybe_invert mask false = io.ensure_l mask
    /\ (PIL.size mask = PIL.size rgb_img \/ resize_mode = "error"%string ->
        ops_combine.combine_alpha resize rgb_img mask true resize_mode resample
        = ops_combine.combine_alpha resize rgb_img
            (ops_generate._maybe_invert mask true) false resize_mode resample).
Proof.
  intros resize rgb_img mask rm rs.
  destruct (mode_L_inv _ (ensure_l_mode mask)) as (sm & mpx & El).
  assert (Hsz_l : PIL.size (io.ensure_l mask) = PIL.size mask) by (destruct mask; reflexivity).
  unfold ops_generate._maybe_invert. simpl negb. cbv iota. rewrite El. simpl.
  split; [|split].
  - unfold io.ensure_l. simpl. now rewrite map_invert_twice.
  - reflexivity.
  - intros H. unfold ops_combine.combine_alpha. rewrite El.
    unfold io.ensure_l at 2. simpl.
    rewrite El in Hsz_l. simpl in Hsz_l. subst sm.
    destruct (Size_eqb (PIL.size mask) (PIL.size (io.ensure_rgb rgb_img))) eqn:E;
      simpl; [reflexivity|].
    destruct H as [H | ->]; [|reflexivity].
    exfalso. assert (Size_eqb (PIL.size mask) (PIL.size (io.ensure_rgb rgb_img)) = true);
      [|congruence].
    apply Size_eqb_eq. rewrite H. destruct rgb_img; reflexivity.
Qed.

Lemma X12_invert_is_an_involution_witness :
  ops_combine.combine_alpha (fun m _ _ => m) (PIL.ImgRGB (1, 1)%nat [(1, 2, 3)%Z])
    (PIL.ImgL (1, 1)%nat [40%Z]) true "resize" "nearest"
  = ops_combine.combine_alpha (fun m _ _ => m) (PIL.ImgRGB (1, 1)%nat [(1, 2, 3)%Z])
      (ops_generate._maybe_invert (PIL.ImgL (1, 1)%nat [40%Z]) true) false
      "resize" "nearest".
Proof.
  apply (X12_invert_is_an_involution (fun m _ _ => m) (PIL.ImgRGB (1, 1)%nat [(1, 2, 3)%Z])
           (PIL.ImgL (1, 1)%nat [40%Z]) "resize" "nearest").
  left. reflexivity.
Defined.

(** ** ops_generate.py: the generators *)

Lemma luminance_of_L (s : Size) (px : list Z) :
  ops_generate.generate_alpha_luminance (PIL.ImgL s px) = PIL.ImgL s px.
Proof.
  unfold ops_generate.generate_alpha_luminance, io.ensure_rgb. simpl.
  now rewrite map_map, map_luma_grey.
Qed.

Lemma luminance_size (img : Image) :
  PIL.size (ops_generate.generate_alpha_luminance img) = PIL.size img.
Proof. destruct img; reflexivity. Qed.

Lemma Forall2_map_same (A B : Type) (R : B -> B -> Prop) (P : A -> Prop)
    (f g : A -> B) (l : list A) :
  Forall P l -> (forall x, P x -> R (f x) (g x)) -> Forall2 R (map f l) (map g l).
Proof.
  intros H Hfg. induction H; simpl; constructor; auto.
Qed.

Lemma Forall2_map_right (A B : Type) (R : A -> B -> Prop) (P : A -> Prop)
    (g : A -> B) (l : list A) :
  Forall P l -> (forall x, P x -> R x (g x)) -> Forall2 R l (map g l).
Proof.
  intros H Hg. induction H; simpl; constructor; auto.
Qed.

(** the colour-key generator, on an image whose RGB form is [px] *)
Lemma colorkey_in_range (img : Image) (key : Z * Z * Z) (tol : Z) (s : Size)
    (px : list PIL.RGBpx) :
  PIL.wf_image img -> PIL.u8_rgb key -> (0 <= tol <= 255)%Z ->
  io.ensure_rgb img = PIL.ImgRGB s px ->
  ops_generate.generate_alpha_colorkey img key tol
  = Ok (PIL.ImgL s (map (fun c => if (chebyshev c key <=? tol)%Z then 0 else 255)%Z px)).
Proof.
  intros Hwf Hkey Ht E.
  apply ensure_rgb_wf in Hwf. rewrite E in Hwf. simpl in Hwf.
  unfold ops_generate.generate_alpha_colorkey.
  replace ((0 <=? tol)%Z && (tol <=? 255)%Z) with true
    by (symmetry; apply andb_true_iff; split; apply Z.leb_le; lia).
  simpl. rewrite E. destruct key as [[rk gk] bk].
  assert (Hfit : np.array_int16 (rk, gk, bk) = Ok [rk; gk; bk]).
  { unfold np.array_int16. unfold PIL.u8_rgb, PIL.u8 in Hkey.
    replace (forallb _ _) with true; [reflexivity|].
    symmetry. simpl. rewrite !andb_true_iff, !Z.leb_le. lia. }
  rewrite Hfit. simpl.
  unfold np.fromarray_L, np.where_, np.max_axis2, np.abs, np.sub_key, np.asarray_int16.
  simpl. destruct s as [w h]. simpl. do 2 f_equal.
  rewrite !map_map.
  apply map_ext_Forall with (P := PIL.u8_rgb); [exact Hwf|].
  intros [[r g] b] Hc.
  pose proof (zip_with_sub_key Hc Hkey) as Hd. simpl in Hd.
  simpl. rewrite Hd.
  now destruct (_ <=? tol)%Z.
Qed.

Lemma chebyshev_bytes (c key : Z * Z * Z) :
  PIL.u8_rgb c -> PIL.u8_rgb key -> (0 <= chebyshev c key <= 255)%Z.
Proof.
  destruct c as [[r g] b], key as [[rk gk] bk].
  unfold PIL.u8_rgb, PIL.u8, chebyshev. lia.
Qed.

Lemma chebyshev_self (c : Z * Z * Z) : chebyshev c c = 0%Z.
Proof.
  destruct c as [[r g] b]. unfold chebyshev. rewrite !Z.sub_diag. reflexivity.
Qed.

(** X13: thresholding is idempotent: the mask [generate_alpha_threshold]
    makes of an image (byte samples, threshold in [0, 255]) holds only 0
    and 255, and thresholding that mask again at the same threshold gives
    the same mask. *)
Theorem X13_threshold_is_idempotent :
  forall (img : Image) (t : Z),
    PIL.wf_image img -> (0 <= t <= 255)%Z ->
    exists mask,
      ops_generate.generate_alpha_threshold img t = Ok mask
      /\ binary_mask mask
      /\ PIL.size mask = PIL.size img
      /\ ops_generate.generate_alpha_threshold mask t = Ok mask.
Proof.
  intros img t Hwf Ht.
  destruct (luminance_is_L img) as (s & lum & E).
  pose proof (luminance_wf img Hwf) as Hl. rewrite E in Hl. simpl in Hl.
  pose proof (luminance_size img) as Hs. rewrite E in Hs. simpl in Hs.
  set (f := fun l : Z => if (l >=? t)%Z then 255%Z else 0%Z).
  assert (Hbin : Forall (fun v => v = 0 \/ v = 255)%Z (map f lum)).
  { apply Forall_map_any. intros l. unfold f. destruct (l >=? t)%Z; auto. }
  exists (PIL.ImgL s (map f lum)). split; [now apply threshold_in_range|].
  split; [exists s, (map f lum); auto|]. split; [exact Hs|].
  rewrite (@threshold_in_range (PIL.ImgL s (map f lum)) t s (map f lum)).
  - do 2 f_equal. rewrite map_map.
    apply map_ext_Forall with (P := PIL.u8); [exact Hl|].
    intros l [Hl0 _]. unfold f.
    destruct (l >=? t)%Z eqn:G; [destruct (255 >=? t)%Z eqn:G' | destruct (0 >=? t)%Z eqn:G'];
      try reflexivity; lia.
  - simpl. eapply Forall_impl; [|exact Hbin]. intros v [-> | ->]; unfold PIL.u8; lia.
  - exact Ht.
  - apply luminance_of_L.
Qed.

Lemma X13_threshold_is_idempotent_witness :
  exists mask,
    ops_generate.generate_alpha_threshold rgb_only 100 = Ok mask
    /\ binary_mask mask
    /\ PIL.size mask = PIL.size rgb_only
    /\ ops_generate.generate_alpha_threshold mask 100 = Ok mask.
Proof.
  apply (@X13_threshold_is_idempotent rgb_only 100).
  - unfold rgb_only. bytes.
  - lia.
Defined.

(** X14: raising the threshold can only turn mask pixels from 255 to 0:
    for thresholds [t1 <= t2] in range, the mask at [t2] is pointwise at
    most the mask at [t1]. *)
Theorem X14_threshold_is_monotone :
  forall (img : Image) (t1 t2 : Z),
    PIL.wf_image img -> (0 <= t1)%Z -> (t1 <= t2)%Z -> (t2 <= 255)%Z ->
    exists s m1 m2,
      ops_generate.generate_alpha_threshold img t1 = Ok (PIL.ImgL s m1)
      /\ ops_generate.generate_alpha_threshold img t2 = Ok (PIL.ImgL s m2)
      /\ Forall2 (fun a b => b <= a)%Z m1 m2.
Proof.
  intros img t1 t2 Hwf H0 H12 H2.
  destruct (luminance_is_L img) as (s & lum & E).
  pose proof (luminance_wf img Hwf) as Hl. rewrite E in Hl. simpl in Hl.
  eexists s, _, _.
  split; [apply threshold_in_range; [exact Hwf | lia | exact E]|].
  split; [apply threshold_in_range; [exact Hwf | lia | exact E]|].
  apply Forall2_map_same with (P := PIL.u8); [exact Hl|].
  intros l _. destruct (l >=? t1)%Z eqn:G1, (l >=? t2)%Z eqn:G2; lia.
Qed.

Lemma X14_threshold_is_monotone_witness :
  exists s m1 m2,
    ops_generate.generate_alpha_threshold rgb_only 50 = Ok (PIL.ImgL s m1)
    /\ ops_generate.generate_alpha_threshold rgb_only 200 = Ok (PIL.ImgL s m2)
    /\ Forall2 (fun a b => b <= a)%Z m1 m2.
Proof.
  apply (@X14_threshold_is_monotone rgb_only 50 200); [unfold rgb_only; bytes | lia..].
Defined.

(** X15: the colour key at its bounds.  On byte samples and a byte key:
    a pixel of exactly the key colour is transparent at every tolerance;
    at tolerance 255 the whole mask is transparent; and a larger
    tolerance can only turn pixels from 255 to 0. *)
Theorem X15_colorkey_bounds :
  forall (img : Image) (key_rgb : Z * Z * Z) (s : Size) (px : list PIL.RGBpx),
    PIL.wf_image img -> PIL.u8_rgb key_rgb ->
    io.ensure_rgb img = PIL.ImgRGB s px ->
    ops_generate.generate_alpha_colorkey img key_rgb 255
    = Ok (PIL.ImgL s (map (fun _ => 0%Z) px))
    /\ (forall tol, (0 <= tol <= 255)%Z ->
          exists m, ops_generate.generate_alpha_colorkey img key_rgb tol = Ok (PIL.ImgL s m)
                    /\ Forall2 (fun c v => (v = 0 \/ v = 255)%Z
                                           /\ (c = key_rgb -> v = 0%Z)) px m)
    /\ (forall tol1 tol2, (0 <= tol1)%Z -> (tol1 <= tol2)%Z -> (tol2 <= 255)%Z ->
          exists m1 m2,
            ops_generate.generate_alpha_colorkey img key_rgb tol1 = Ok (PIL.ImgL s m1)
            /\ ops_generate.generate_alpha_colorkey img key_rgb tol2 = Ok (PIL.ImgL s m2)
            /\ Forall2 (fun a b => b <= a)%Z m1 m2).
Proof.
  intros img key s px Hwf Hkey E.
  pose proof (ensure_rgb_wf img Hwf) as Hpx. rewrite E in Hpx. simpl in Hpx.
  split; [|split].
  - rewrite (@colorkey_in_range img key 255 s px) by (auto; lia). do 2 f_equal.
    apply map_ext_Forall with (P := PIL.u8_rgb); [exact Hpx|].
    intros c Hc. pose proof (chebyshev_bytes c key Hc Hkey).
    destruct (chebyshev c key <=? 255)%Z eqn:G; [reflexivity|]. lia.
  - intros tol Ht. eexists.
    split; [apply colorkey_in_range; [exact Hwf | exact Hkey | exact Ht | exact E]|].
    apply Forall2_map_right with (P := PIL.u8_rgb); [exact Hpx|].
    intros c Hc. split.
    + destruct (chebyshev c key <=? tol)%Z; auto.
    + intros ->. rewrite chebyshev_self.
      destruct (0 <=? tol)%Z eqn:G; [reflexivity|]. lia.
  - intros tol1 tol2 H0 H12 H2. eexists _, _.
    split; [apply colorkey_in_range; [exact Hwf | exact Hkey | lia | exact E]|].
    split; [apply colorkey_in_range; [exact Hwf | exact Hkey | lia | exact E]|].
    apply Forall2_map_same with (P := PIL.u8_rgb); [exact Hpx|].
    intros c _.
    destruct (chebyshev c key <=? tol1)%Z eqn:G1, (chebyshev c key <=? tol2)%Z eqn:G2; lia.
Qed.

Lemma X15_colorkey_bounds_witness :
  ops_generate.generate_alpha_colorkey rgb_only (10, 20, 30)%Z 255
  = Ok (PIL.ImgL (2, 1)%nat (map (fun _ => 0%Z) [(10, 20, 30); (200, 100, 0)]%Z))
  /\ exists m, ops_generate.generate_alpha_colorkey rgb_only (10, 20, 30)%Z 0
               = Ok (PIL.ImgL (2, 1)%nat m)
               /\ Forall2 (fun c v => (v = 0 \/ v = 255)%Z
                                      /\ (c = (10, 20, 30)%Z -> v = 0%Z))
                    [(10, 20, 30); (200, 100, 0)]%Z m.
Proof.
  destruct (@X15_colorkey_bounds rgb_only (10, 20, 30)%Z (2, 1)%nat
              [(10, 20, 30); (200, 100, 0)]%Z) as (H255 & Hkey & _).
  - unfold rgb_only. bytes.
  - bytes.
  - reflexivity.
  - split; [exact H255|]. apply Hkey. lia.
Defined.

(** X16: a generated mask fits its source.  The luminance, threshold
    and colour-key masks of an image (byte samples, parameters in range)
    have mode L, the size of the image and byte samples; and
    [combine_alpha] of the image with any mode-L mask of its size returns
    an RGBA image of that size under [resize_mode="error"]: generating a
    mask and combining it back cannot hit the size check. *)
Theorem X16_generated_mask_fits_its_source :
  forall img : Image,
    PIL.wf_image img ->
    (PIL.mode (ops_generate.generate_alpha_luminance img) = "L"%string
     /\ PIL.size (ops_generate.generate_alpha_luminance img) = PIL.size img
     /\ PIL.wf_image (ops_generate.generate_alpha_luminance img))
    /\ (forall t, (0 <= t <= 255)%Z ->
          exists m, ops_generate.generate_alpha_threshold img t = Ok m
                    /\ PIL.mode m = "L"%string /\ PIL.size m = PIL.size img
                    /\ PIL.wf_image m)
    /\ (forall key_rgb tol, PIL.u8_rgb key_rgb -> (0 <= tol <= 255)%Z ->
          exists m, ops_generate.generate_alpha_colorkey img key_rgb tol = Ok m
                    /\ PIL.mode m = "L"%string /\ PIL.size m = PIL.size img
                    /\ PIL.wf_image m)
    /\ (forall resize m invert resample,
          PIL.mode m = "L"%string -> PIL.size m = PIL.size img ->
          exists out,
            ops_combine.combine_alpha resize img m invert "error" resample
            = Ok (PIL.ImgRGBA (PIL.size img) out)).
Proof.
  intros img Hwf.
  destruct (luminance_is_L img) as (s & lum & E).
  pose proof (luminance_size img) as Hs. rewrite E in Hs. simpl in Hs.
  destruct (ensure_rgb_is_RGB img) as (s' & px & Er).
  assert (Hs' : s' = PIL.size img).
  { assert (H : PIL.size (io.ensure_rgb img) = PIL.size img) by (destruct img; reflexivity).
    now rewrite Er in H. }
  split; [|split; [|split]].
  - split; [now rewrite E|]. split; [apply luminance_size | now apply luminance_wf].
  - intros t Ht. eexists. split; [apply threshold_in_range; [exact Hwf | exact Ht | exact E]|].
    split; [reflexivity|]. split; [exact Hs|].
    simpl. apply Forall_map_any. intros l. unfold PIL.u8. destruct (l >=? t)%Z; lia.
  - intros key tol Hk Ht. eexists.
    split; [apply colorkey_in_range; [exact Hwf | exact Hk | exact Ht | exact Er]|].
    split; [reflexivity|]. split; [exact Hs'|].
    simpl. apply Forall_map_any. intros c. unfold PIL.u8.
    destruct (chebyshev c key <=? tol)%Z; lia.
  - intros resize m invert rs Hm Hsz. destruct (mode_L_inv _ Hm) as (sm & mpx & ->).
    simpl in Hsz. subst sm. unfold ops_combine.combine_alpha. rewrite Er.
    unfold io.ensure_l. simpl. rewrite Hs', Size_eqb_refl. simpl.
    destruct invert; simpl; rewrite !Size_eqb_refl; simpl; eauto.
Qed.

Lemma X16_generated_mask_fits_its_source_witness :
  exists m, ops_generate.generate_alpha_threshold rgb_only 128 = Ok m
            /\ PIL.mode m = "L"%string /\ PIL.size m = PIL.size rgb_only
            /\ PIL.wf_image m.
Proof.
  destruct (@X16_generated_mask_fits_its_source rgb_only) as (_ & H & _).
  - unfold rgb_only. bytes.
  - apply H. lia.
Defined.

(** ** The batch drivers *)

Lemma split_loop_never_raises (out_dir : Path) (rs als : string) (ow : bool) (oma : string)
    (pcb : bool) (cf : CancelFlag) (files : list Path) :
  forall i total outputs trace s,
    exists outs,
      b_result (ops_split.split_loop out_dir rs als ow oma true pcb cf
                  files i total outputs trace s) = Ok outs.
Proof.
  induction files as [|p rest IH]; intros i total outputs trace s; simpl; [eauto|].
  destruct (is_cancelled cf i); [simpl; eauto|].
  destruct (ops_split.split_alpha_file _ _ _ _ _ _) as [s' [u|e]]; simpl; apply IH.
Qed.

Lemma generate_loop_never_raises (out_dir : Path) (opts : ops_generate.GenerateOptions)
    (suf : string) (ow pcb : bool) (cf : CancelFlag) (files : list Path) :
  forall i total outputs trace s,
    exists outs,
      b_result (ops_generate.generate_loop out_dir opts suf ow true pcb cf
                  files i total outputs trace s) = Ok outs.
Proof.
  induction files as [|p rest IH]; intros i total outputs trace s; simpl; [eauto|].
  destruct (is_cancelled cf i); [simpl; eauto|].
  destruct (ops_generate.generate_alpha_file _ _ _ _ _) as [s' [u|e]]; simpl; apply IH.
Qed.

Lemma combine_loop_never_raises (resize : Image -> Size -> PIL.Resampling -> Image)
    (out_dir : Path) (suf : string) (inv : bool) (rm rsm : string) (ow pcb : bool)
    (cf : CancelFlag) (pairs : list (Path * Path)) :
  forall i total outputs trace s,
    exists outs,
      b_result (ops_combine.combine_loop resize out_dir suf inv rm rsm ow true pcb cf
                  pairs i total outputs trace s) = Ok outs.
Proof.
  induction pairs as [|[p a] rest IH]; intros i total outputs trace s; simpl; [eauto|].
  destruct (is_cancelled cf i); [simpl; eauto|].
  destruct (ops_combine.combine_alpha_file _ _ _ _ _ _ _ _ _) as [s' [u|e]];
    simpl; apply IH.
Qed.

Lemma validate_alpha_file_reads_only (F : Type) (fl : FloatOps F) (p : Path)
    (rules : ops_validate.ValidationRules F) (s : FileSystem) :
  fst (ops_validate.validate_alpha_file p rules s) = s.
Proof.
  unfold ops_validate.validate_alpha_file, bindIO, io.load_image, lift, ret.
  destruct (fs.open_image s p) as [img|]; [|reflexivity].
  destruct (ops_validate._alpha_array img) as [[a|]|]; try reflexivity.
  destruct (ops_validate.compute_alpha_stats a) as [st|]; [|reflexivity].
  destruct (ops_validate.rule_opaque rules st),
           (ops_validate.rule_transparent rules st),
           (ops_validate.rule_constant rules st); reflexivity.
Qed.

Lemma validate_loop_never_raises (F : Type) (fl : FloatOps F)
    (rules : ops_validate.ValidationRules F) (pcb : bool) (cf : CancelFlag)
    (files : list Path) :
  forall i total results trace s,
    exists out,
      b_result (ops_validate.validate_loop rules true pcb cf
                  files i total results trace s) = Ok (results ++ out)
      /\ (length out <= length files)%nat
      /\ (cf = None -> length out = length files).
Proof.
  induction files as [|p rest IH]; intros i total results trace s; simpl.
  - exists []. rewrite app_nil_r. auto.
  - destruct (is_cancelled cf i) eqn:C.
    { exists []. rewrite app_nil_r. simpl. split; [reflexivity|]. split; [lia|].
      intros ->. discriminate. }
    destruct (ops_validate.validate_alpha_file p rules s) as [s' [res|e]]; simpl;
      match goal with
      | |- context [ops_validate.validate_loop _ _ _ _ _ _ _ (results ++ [?r]) ?t ?s0] =>
          destruct (IH (S i) total (results ++ [r]) t s0) as (out & E & L1 & L2);
          exists (r :: out); rewrite E, <- app_assoc; simpl;
          split; [reflexivity|]; split; [lia|]; intros H; rewrite (L2 H); reflexivity
      end.
Qed.

Lemma validate_loop_reads_only (F : Type) (fl : FloatOps F)
    (rules : ops_validate.ValidationRules F) (coe pcb : bool) (cf : CancelFlag)
    (files : list Path) :
  forall i total results trace s,
    b_fs (ops_validate.validate_loop rules coe pcb cf files i total results trace s) = s.
Proof.
  induction files as [|p rest IH]; intros i total results trace s; simpl; [reflexivity|].
  destruct (is_cancelled cf i); [reflexivity|].
  pose proof (@validate_alpha_file_reads_only F fl p rules s) as R.
  destruct (ops_validate.validate_alpha_file p rules s) as [s' [res|e]]; simpl in R; subst s'.
  - apply IH.
  - destruct coe; simpl; [apply IH | reflexivity].
Qed.

(** X17: with [continue_on_error] left at its default, no failure on an
    item ends a batch.  [combine_alpha_files] and [validate_alpha_files]
    never raise, whatever the inputs, the file system and the
    cancellation flag; [validate_alpha_files] returns at most one result
    per path, and one per path when nothing cancels.  The loops of
    [split_alpha_files] and [generate_alpha_files] never raise either, on
    whatever list of files Path Expansion has returned; Path Expansion
    itself runs before the loop, outside its [try]. *)
Theorem X17_continue_on_error_never_raises :
  forall (s : FileSystem) (progress_cb : bool) (cancel_flag : CancelFlag),
    (forall out_dir rgb_suffix alpha_suffix overwrite on_missing_alpha files,
        exists outs,
          b_result (ops_split.split_loop out_dir rgb_suffix alpha_suffix overwrite
                      on_missing_alpha true progress_cb cancel_flag
                      files 1 (length files) [] [] s) = Ok outs)
    /\ (forall resize out_dir out_suffix invert resize_mode resample overwrite pairs,
        exists outs,
          b_result (ops_combine.combine_alpha_files resize out_dir out_suffix invert
                      resize_mode resample overwrite true progress_cb cancel_flag pairs s)
          = Ok outs)
    /\ (forall out_dir opts out_suffix overwrite files,
        exists outs,
          b_result (ops_generate.generate_loop out_dir opts out_suffix overwrite
                      true progress_cb cancel_flag files 1 (length files) [] [] s)
          = Ok outs)
    /\ (forall (F : Type) (fl : FloatOps F) (rules : ops_validate.ValidationRules F) paths,
        exists results,
          b_result (ops_validate.validate_alpha_files rules true progress_cb cancel_flag
                      paths s) = Ok results
          /\ (length results <= length paths)%nat
          /\ (cancel_flag = None -> length results = length paths)).
Proof.
  intros s pcb cf. split; [|split; [|split]].
  - intros. apply split_loop_never_raises.
  - intros. apply combine_loop_never_raises.
  - intros. apply generate_loop_never_raises.
  - intros F fl rules paths. unfold ops_validate.validate_alpha_files.
    destruct (@validate_loop_never_raises F fl rules pcb cf paths 1 (length paths) [] [] s)
      as (out & E & L1 & L2).
    exists out. split; [exact E|]. split; [exact L1 | exact L2].
Qed.

(** X18: the validate batch only reads: whatever it returns or raises,
    it leaves the file system exactly as it found it; and a path that
    cannot be loaded as an image is reported, under [continue_on_error],
    as a FAIL result without alpha and without statistics. *)
Theorem X18_validate_only_reads :
  forall (F : Type) (fl : FloatOps F) (rules : ops_validate.ValidationRules F)
         (continue_on_error progress_cb : bool) (cancel_flag : CancelFlag)
         (paths : list Path) (s : FileSystem),
    b_fs (ops_validate.validate_alpha_files rules continue_on_error progress_cb
            cancel_flag paths s) = s
    /\ (forall p, fst (ops_validate.validate_alpha_file p rules s) = s)
    /\ (forall p, fs.open_image s p = None ->
          ops_validate.validate_alpha_file p rules s
          = (s, Raise (AlphaIOError (Failed_to_load_image p)))
          /\ b_result (ops_validate.validate_alpha_files rules true progress_cb None [p] s)
             = Ok [ops_validate.mkResult (pathlib.str p) false ops_validate.FAIL
                     [ops_validate.Error_reading_or_processing_file F
                        (AlphaIOError (Failed_to_load_image p))] None]).
Proof.
  intros F fl rules coe pcb cf paths s. split; [|split].
  - apply validate_loop_reads_only.
  - intros p. apply (@validate_alpha_file_reads_only F fl).
  - intros p Hp.
    assert (E : ops_validate.validate_alpha_file p rules s
                = (s, Raise (AlphaIOError (Failed_to_load_image p)))).
    { unfold ops_validate.validate_alpha_file, bindIO, io.load_image. now rewrite Hp. }
    split; [exact E|].
    unfold ops_validate.validate_alpha_files. simpl. rewrite E. reflexivity.
Qed.

Lemma X18_validate_only_reads_witness :
  ops_validate.validate_alpha_file ["in"; "notes.txt"]%string
    (ops_validate.default_rules (fl := binary64)) scenario_fs
  = (scenario_fs, Raise (AlphaIOError (Failed_to_load_image ["in"; "notes.txt"]%string)))
  /\ b_result (ops_validate.validate_alpha_files (ops_validate.default_rules (fl := binary64))
                 true true None [["in"; "notes.txt"]%string] scenario_fs)
     = Ok [ops_validate.mkResult "in/notes.txt" false ops_validate.FAIL
             [ops_validate.Error_reading_or_processing_file PrimFloat.float
                (AlphaIOError (Failed_to_load_image ["in"; "notes.txt"]%string))] None].
Proof.
  destruct (@X18_validate_only_reads PrimFloat.float binary64 ops_validate.default_rules
              true true None [] scenario_fs) as (_ & _ & H).
  apply (H ["in"; "notes.txt"]%string). reflexivity.
Defined.






(** *** Joining a name to the output directory *)

Lemma length_append (a b : string) :
  String.length (String.append a b) = (String.length a + String.length b)%nat.
Proof.
  induction a as [|c t IH]; simpl; [reflexivity | now rewrite IH].
Qed.







Example joinpath_parses_the_name :
  pathlib.joinpath ["out"%string] "a_rgb.png" = ["out"; "a_rgb.png"]%string
  /\ pathlib.joinpath ["out"%string] "a//b/./c.png" = ["out"; "a"; "b"; "c.png"]%string
  /\ pathlib.joinpath ["out"%string] "../c.png" = ["out"; ".."; "c.png"]%string
  /\ pathlib.joinpath ["out"%string] "/tmp/c.png" = ["/"; "tmp"; "c.png"]%string
  /\ pathlib.joinpath ["out"%string] "//tmp/c.png" = ["//"; "tmp"; "c.png"]%string
  /\ pathlib.joinpath ["out"%string] "///tmp/c.png" = ["/"; "tmp"; "c.png"]%string
  /\ pathlib.joinpath ["out"%string] "." = ["out"%string].
Proof. repeat split. Qed.

(** with a [/] in the suffix the output is not an entry of [out_dir]:
    it lies in a directory below, or wherever [..] leads *)
Example suffix_with_slash_leaves_out_dir :
  io.infer_output_path ["in"; "a.png"]%string ["out"%string] "/x" ".png"
  = ["out"; "a"; "x.png"]%string
  /\ io.infer_output_path ["in"; "a.png"]%string ["out"%string] "/../../x" ".png"
     = ["out"; "a"; ".."; ".."; "x.png"]%string.
Proof. split; reflexivity. Qed.














Lemma in_report (pcb : bool) (trace : list ProgressCall) (d t : nat) (p : Path)
    (msg : string) (c : ProgressCall) :
  In c (report pcb trace d t p msg) -> In c trace \/ c = mkProgress d t p msg.
Proof.
  unfold report. destruct pcb; [|auto]. intros H. apply in_app_or in H.
  destruct H as [H | [H | []]]; auto.
Qed.

Ltac progress_stop Hi :=
  let c := fresh "c" in
  let Hc := fresh "Hc" in
  intros c Hc;
  repeat (apply in_report in Hc; destruct Hc as [Hc | ->]); auto;
  right; simpl in *; lia.

Ltac progress_rec IH Hi :=
  let c := fresh "c" in
  let Hc := fresh "Hc" in
  intros c Hc; apply IH in Hc; [|lia | simpl in Hi; lia];
  destruct Hc as [Hc | Hc]; [|auto];
  repeat (apply in_report in Hc; destruct Hc as [Hc | ->]); auto;
  right; simpl in *; lia.

Lemma split_loop_progress (out_dir : Path) (rs als : string) (ow : bool) (oma : string)
    (coe pcb : bool) (cf : CancelFlag) (files : list Path) :
  forall i total outputs trace s,
    (1 <= i)%nat -> (i + length files = S total)%nat ->
    forall c,
      In c (b_trace (ops_split.split_loop out_dir rs als ow oma coe pcb cf
                       files i total outputs trace s)) ->
      In c trace \/ (pc_total c = total /\ pc_done c <= total /\ 0 < total)%nat.
Proof.
  induction files as [|p rest IH]; intros i total outputs trace s H1 Hi; simpl.
  - auto.
  - destruct (is_cancelled cf i); [simpl; auto|].
    destruct (ops_split.split_alpha_file _ _ _ _ _ _) as [s' [u|e]];
      [|destruct coe; simpl]; [progress_rec IH Hi | progress_rec IH Hi | progress_stop Hi].
Qed.

Lemma generate_loop_progress (out_dir : Path) (opts : ops_generate.GenerateOptions)
    (suf : string) (ow coe pcb : bool) (cf : CancelFlag) (files : list Path) :
  forall i total outputs trace s,
    (1 <= i)%nat -> (i + length files = S total)%nat ->
    forall c,
      In c (b_trace (ops_generate.generate_loop out_dir opts suf ow coe pcb cf
                       files i total outputs trace s)) ->
      In c trace \/ (pc_total c = total /\ pc_done c <= total /\ 0 < total)%nat.
Proof.
  induction files as [|p rest IH]; intros i total outputs trace s H1 Hi; simpl.
  - auto.
  - destruct (is_cancelled cf i); [simpl; auto|].
    destruct (ops_generate.generate_alpha_file _ _ _ _ _) as [s' [u|e]];
      [|destruct coe; simpl]; [progress_rec IH Hi | progress_rec IH Hi | progress_stop Hi].
Qed.

Lemma combine_loop_progress (resize : Image -> Size -> PIL.Resampling -> Image)
    (out_dir : Path) (suf : string) (inv : bool) (rm rsm : string) (ow coe pcb : bool)
    (cf : CancelFlag) (pairs : list (Path * Path)) :
  forall i total outputs trace s,
    (1 <= i)%nat -> (i + length pairs = S total)%nat ->
    forall c,
      In c (b_trace (ops_combine.combine_loop resize out_dir suf inv rm rsm ow coe pcb cf
                       pairs i total outputs trace s)) ->
      In c trace \/ (pc_total c = total /\ pc_done c <= total /\ 0 < total)%nat.
Proof.
  induction pairs as [|[p a] rest IH]; intros i total outputs trace s H1 Hi; simpl.
  - auto.
  - destruct (is_cancelled cf i); [simpl; auto|].
    destruct (ops_combine.combine_alpha_file _ _ _ _ _ _ _ _ _) as [s' [u|e]];
      [|destruct coe; simpl]; [progress_rec IH Hi | progress_rec IH Hi | progress_stop Hi].
Qed.

Lemma validate_loop_progress (F : Type) (fl : FloatOps F)
    (rules : ops_validate.ValidationRules F) (coe pcb : bool) (cf : CancelFlag)
    (files : list Path) :
  forall i total results trace s,
    (1 <= i)%nat -> (i + length files = S total)%nat ->
    forall c,
      In c (b_trace (ops_validate.validate_loop rules coe pcb cf
                       files i total results trace s)) ->
      In c trace \/ (pc_total c = total /\ pc_done c <= total /\ 0 < total)%nat.
Proof.
  induction files as [|p rest IH]; intros i total results trace s H1 Hi; simpl.
  - auto.
  - destruct (is_cancelled cf i); [simpl; auto|].
    destruct (ops_validate.validate_alpha_file p rules s) as [s' [u|e]];
      [|destruct coe; simpl]; [progress_rec IH Hi | progress_rec IH Hi | progress_stop Hi].
Qed.

(** X21: the progress reports are well formed.  Every call a batch makes
    to [progress_cb] carries as [total] the number of items of the batch
    (the expanded inputs, the pairs, or the paths), which is then
    positive, and a [done] count between 0 and [total]. *)
Theorem X21_progress_is_within_bounds :
  forall (s : FileSystem) (continue_on_error progress_cb : bool)
         (cancel_flag : CancelFlag) (c : ProgressCall),
    (forall out_dir rgb_suffix alpha_suffix overwrite on_missing_alpha in_paths,
        In c (b_trace (ops_split.split_alpha_files out_dir rgb_suffix alpha_suffix
                         overwrite on_missing_alpha continue_on_error progress_cb
                         cancel_flag in_paths s)) ->
        pc_total c = length (io.expand_inputs s in_paths)
        /\ (pc_done c <= pc_total c)%nat /\ (0 < pc_total c)%nat)
    /\ (forall resize out_dir out_suffix invert resize_mode resample overwrite pairs,
        In c (b_trace (ops_combine.combine_alpha_files resize out_dir out_suffix invert
                         resize_mode resample overwrite continue_on_error progress_cb
                         cancel_flag pairs s)) ->
        pc_total c = length pairs
        /\ (pc_done c <= pc_total c)%nat /\ (0 < pc_total c)%nat)
    /\ (forall out_dir opts out_suffix overwrite in_paths,
        In c (b_trace (ops_generate.generate_alpha_files out_dir opts out_suffix overwrite
                         continue_on_error progress_cb cancel_flag in_paths s)) ->
        pc_total c = length (io.expand_inputs s in_paths)
        /\ (pc_done c <= pc_total c)%nat /\ (0 < pc_total c)%nat)
    /\ (forall (F : Type) (fl : FloatOps F) (rules : ops_validate.ValidationRules F) paths,
        In c (b_trace (ops_validate.validate_alpha_files rules continue_on_error
                         progress_cb cancel_flag paths s)) ->
        pc_total c = length paths
        /\ (pc_done c <= pc_total c)%nat /\ (0 < pc_total c)%nat).
Proof.
  intros s coe pcb cf c. split; [|split; [|split]].
  - intros out_dir rs als ow oma in_paths Hc.
    apply split_loop_progress in Hc; [|lia | simpl; lia].
    destruct Hc as [[] | (-> & H1 & H2)]. auto.
  - intros resize out_dir suf inv rm rsm ow pairs Hc.
    apply combine_loop_progress in Hc; [|lia | simpl; lia].
    destruct Hc as [[] | (-> & H1 & H2)]. auto.
  - intros out_dir opts suf ow in_paths Hc.
    apply generate_loop_progress in Hc; [|lia | simpl; lia].
    destruct Hc as [[] | (-> & H1 & H2)]. auto.
  - intros F fl rules paths Hc.
    apply validate_loop_progress in Hc; [|lia | simpl; lia].
    destruct Hc as [[] | (-> & H1 & H2)]. auto.
Qed.

Lemma X21_progress_is_within_bounds_witness :
  pc_total (mkProgress 1 1 ["in"; "a.png"]%string "Done")
  = length (io.expand_inputs scenario_fs [["in"]%string])
  /\ (pc_done (mkProgress 1 1 ["in"; "a.png"]%string "Done")
      <= pc_total (mkProgress 1 1 ["in"; "a.png"]%string "Done"))%nat
  /\ (0 < pc_total (mkProgress 1 1 ["in"; "a.png"]%string "Done"))%nat.
Proof.
  destruct (X21_progress_is_within_bounds scenario_fs true true None
              (mkProgress 1 1 ["in"; "a.png"]%string "Done")) as (H & _).
  apply (H ["out"%string] "_rgb"%string "_alpha"%string false "opaque"%string
           [["in"]%string]).
  right. left. reflexivity.
Defined.

Lemma expand_inputs_fixed (s : FileSystem) (l : list Path) :
  (forall p, In p l -> io.is_image_file s p = true) ->
  NoDup (map (fs.resolve s) l) ->
  io.expand_inputs s l = l.
Proof.
  intros Himg Hnd. unfold io.expand_inputs.
  assert (Hflat : flat_map (fun p => if fs.is_dir s p
                               then filter (io.is_image_file s)
                                      (sorted pathlib.leb (fs.rglob s p))
                               else if io.is_image_file s p then [p] else []) l = l).
  { clear Hnd. induction l as [|p l IH]; simpl; [reflexivity|].
    rewrite (image_file_is_not_dir s p), (Himg p) by (apply Himg || idtac; now left).
    simpl. f_equal. apply IH. intros q Hq. apply Himg. now right. }
  rewrite Hflat. apply unique_stable_fixed; [exact Hnd|]. intros p _ [].
Qed.

Lemma NoDup_firstn (A : Type) (n : nat) (l : list A) : NoDup l -> NoDup (firstn n l).
Proof.
  intros H. rewrite <- (firstn_skipn n l) in H. now apply NoDup_app_remove_r in H.
Qed.

Lemma In_firstn (A : Type) (n : nat) (l : list A) (x : A) : In x (firstn n l) -> In x l.
Proof.
  intros H. rewrite <- (firstn_skipn n l). apply in_or_app. now left.
Qed.

Lemma expand_inputs_prefix (s : FileSystem) (paths : list Path) (n : nat) :
  io.expand_inputs s (firstn n (io.expand_inputs s paths))
  = firstn n (io.expand_inputs s paths).
Proof.
  destruct (expand_inputs_spec s paths) as [Himg Hnd].
  apply expand_inputs_fixed.
  - intros p Hp. apply Himg. eapply In_firstn, Hp.
  - rewrite <- firstn_map. now apply NoDup_firstn.
Qed.


Lemma split_loop_cancel (out_dir : Path) (rs als : string) (ow : bool) (oma : string)
    (coe : bool) (f : nat -> bool) (files : list Path) :
  forall n i total total' outputs trace trace' pcb pcb' s,
    (forall j, i <= j < i + n -> f j = false)%nat ->
    f (i + n)%nat = true ->
    same_outcome
      (ops_split.split_loop out_dir rs als ow oma coe pcb (Some f)
         files i total outputs trace s)
      (ops_split.split_loop out_dir rs als ow oma coe pcb' None
         (firstn n files) i total' outputs trace' s).
Proof.
  induction files as [|p rest IH]; intros n i total total' outputs trace trace' pcb pcb' s
    Hlow Hk.
  - rewrite firstn_nil. split; reflexivity.
  - destruct n as [|m].
    + simpl. rewrite Nat.add_0_r in Hk. rewrite Hk. split; reflexivity.
    + simpl. rewrite (Hlow i) by lia.
      destruct (ops_split.split_alpha_file _ _ _ _ _ _) as [s' [u|e]];
        [|destruct coe; simpl; [|split; reflexivity]];
        (apply IH; [intros j Hj; apply Hlow; lia | now rewrite <- Nat.add_succ_comm in Hk]).
Qed.

Lemma generate_loop_cancel (out_dir : Path) (opts : ops_generate.GenerateOptions)
    (suf : string) (ow coe : bool) (f : nat -> bool) (files : list Path) :
  forall n i total total' outputs trace trace' pcb pcb' s,
    (forall j, i <= j < i + n -> f j = false)%nat ->
    f (i + n)%nat = true ->
    same_outcome
      (ops_generate.generate_loop out_dir opts suf ow coe pcb (Some f)
         files i total outputs trace s)
      (ops_generate.generate_loop out_dir opts suf ow coe pcb' None
         (firstn n files) i total' outputs trace' s).
Proof.
  induction files as [|p rest IH]; intros n i total total' outputs trace trace' pcb pcb' s
    Hlow Hk.
  - rewrite firstn_nil. split; reflexivity.
  - destruct n as [|m].
    + simpl. rewrite Nat.add_0_r in Hk. rewrite Hk. split; reflexivity.
    + simpl. rewrite (Hlow i) by lia.
      destruct (ops_generate.generate_alpha_file _ _ _ _ _) as [s' [u|e]];
        [|destruct coe; simpl; [|split; reflexivity]];
        (apply IH; [intros j Hj; apply Hlow; lia | now rewrite <- Nat.add_succ_comm in Hk]).
Qed.

Lemma combine_loop_cancel (resize : Image -> Size -> PIL.Resampling -> Image)
    (out_dir : Path) (suf : string) (inv : bool) (rm rsm : string) (ow coe : bool)
    (f : nat -> bool) (pairs : list (Path * Path)) :
  forall n i total total' outputs trace trace' pcb pcb' s,
    (forall j, i <= j < i + n -> f j = false)%nat ->
    f (i + n)%nat = true ->
    same_outcome
      (ops_combine.combine_loop resize out_dir suf inv rm rsm ow coe pcb (Some f)
         pairs i total outputs trace s)
      (ops_combine.combine_loop resize out_dir suf inv rm rsm ow coe pcb' None
         (firstn n pairs) i total' outputs trace' s).
Proof.
  induction pairs as [|[p a] rest IH];
    intros n i total total' outputs trace trace' pcb pcb' s Hlow Hk.
  - rewrite firstn_nil. split; reflexivity.
  - destruct n as [|m].
    + simpl. rewrite Nat.add_0_r in Hk. rewrite Hk. split; reflexivity.
    + simpl. rewrite (Hlow i) by lia.
      destruct (ops_combine.combine_alpha_file _ _ _ _ _ _ _ _ _) as [s' [u|e]];
        [|destruct coe; simpl; [|split; reflexivity]];
        (apply IH; [intros j Hj; apply Hlow; lia | now rewrite <- Nat.add_succ_comm in Hk]).
Qed.

Lemma validate_loop_cancel (F : Type) (fl : FloatOps F)
    (rules : ops_validate.ValidationRules F) (coe : bool) (f : nat -> bool)
    (files : list Path) :
  forall n i total total' results trace trace' pcb pcb' s,
    (forall j, i <= j < i + n -> f j = false)%nat ->
    f (i + n)%nat = true ->
    same_outcome
      (ops_validate.validate_loop rules coe pcb (Some f) files i total results trace s)
      (ops_validate.validate_loop rules coe pcb' None (firstn n files) i total'
         results trace' s).
Proof.
  induction files as [|p rest IH]; intros n i total total' results trace trace' pcb pcb' s
    Hlow Hk.
  - rewrite firstn_nil. split; reflexivity.
  - destruct n as [|m].
    + simpl. rewrite Nat.add_0_r in Hk. rewrite Hk. split; reflexivity.
    + simpl. rewrite (Hlow i) by lia.
      destruct (ops_validate.validate_alpha_file p rules s) as [s' [u|e]];
        [|destruct coe; simpl; [|split; reflexivity]];
        (apply IH; [intros j Hj; apply Hlow; lia | now rewrite <- Nat.add_succ_comm in Hk]).
Qed.

(** X22: cancellation keeps what was done and does nothing more.  If the
    cancellation flag is first found set before item [n+1], each batch
    returns the list, and leaves the file system, of the same batch run
    without cancellation on the first [n] items of its work list: no
    error, no further item touched. *)
Theorem X22_cancelled_batch_is_the_batch_on_a_prefix :
  forall (s : FileSystem) (f : nat -> bool) (n : nat)
         (continue_on_error progress_cb : bool),
    (forall j, (1 <= j < 1 + n)%nat -> f j = false) ->
    f (1 + n)%nat = true ->
    (forall out_dir rgb_suffix alpha_suffix overwrite on_missing_alpha in_paths,
        same_outcome
          (ops_split.split_alpha_files out_dir rgb_suffix alpha_suffix overwrite
             on_missing_alpha continue_on_error progress_cb (Some f) in_paths s)
          (ops_split.split_alpha_files out_dir rgb_suffix alpha_suffix overwrite
             on_missing_alpha continue_on_error progress_cb None
             (firstn n (io.expand_inputs s in_paths)) s))
    /\ (forall resize out_dir out_suffix invert resize_mode resample overwrite pairs,
        same_outcome
          (ops_combine.combine_alpha_files resize out_dir out_suffix invert resize_mode
             resample overwrite continue_on_error progress_cb (Some f) pairs s)
          (ops_combine.combine_alpha_files resize out_dir out_suffix invert resize_mode
             resample overwrite continue_on_error progress_cb None (firstn n pairs) s))
    /\ (forall out_dir opts out_suffix overwrite in_paths,
        same_outcome
          (ops_generate.generate_alpha_files out_dir opts out_suffix overwrite
             continue_on_error progress_cb (Some f) in_paths s)
          (ops_generate.generate_alpha_files out_dir opts out_suffix overwrite
             continue_on_error progress_cb None
             (firstn n (io.expand_inputs s in_paths)) s))
    /\ (forall (F : Type) (fl : FloatOps F) (rules : ops_validate.ValidationRules F) paths,
        same_outcome
          (ops_validate.validate_alpha_files rules continue_on_error progress_cb
             (Some f) paths s)
          (ops_validate.validate_alpha_files rules continue_on_error progress_cb
             None (firstn n paths) s)).
Proof.
  intros s f n coe pcb Hlow Hk. split; [|split; [|split]].
  - intros. unfold ops_split.split_alpha_files. rewrite expand_inputs_prefix.
    now apply split_loop_cancel.
  - intros. unfold ops_combine.combine_alpha_files. now apply combine_loop_cancel.
  - intros. unfold ops_generate.generate_alpha_files. rewrite expand_inputs_prefix.
    now apply generate_loop_cancel.
  - intros. unfold ops_validate.validate_alpha_files. now apply validate_loop_cancel.
Qed.

Lemma X22_cancelled_batch_is_the_batch_on_a_prefix_witness :
  same_outcome
    (ops_split.split_alpha_files ["out"%string] "_rgb" "_alpha" false "opaque" true true
       (Some (fun j => Nat.leb 1 j)) [["in"]%string] scenario_fs)
    (ops_split.split_alpha_files ["out"%string] "_rgb" "_alpha" false "opaque" true true
       None (firstn 0 (io.expand_inputs scenario_fs [["in"]%string])) scenario_fs).
Proof.
  destruct (@X22_cancelled_batch_is_the_batch_on_a_prefix scenario_fs
              (fun j => Nat.leb 1 j) 0 true true) as (H & _).
  - intros j Hj. lia.
  - reflexivity.
  - apply H.
Defined.

(** ** ops_validate.py: what a result can say *)

Lemma alpha_array_of (img : Image) :
  exists px,
    io.ensure_rgba img = PIL.ImgRGBA (PIL.size img) px
    /\ ops_validate._alpha_array img
       = Ok (Some (np.mk_array2 (snd (PIL.size img), fst (PIL.size img))
                     (map np.uint8 (map (fun c : PIL.RGBApx => snd c) px)))).
Proof.
  destruct (mode_RGBA_inv _ (ensure_rgba_mode img)) as (s & px & E).
  pose proof (ensure_rgba_size img) as Hs. rewrite E in Hs. simpl in Hs. subst s.
  exists px. split; [exact E|].
  unfold ops_validate._alpha_array. rewrite E. simpl.
  unfold np.asarray_uint8. simpl. now rewrite concat_singletons.
Qed.

Lemma uint8_is_byte (z : Z) : PIL.u8 (np.uint8 z).
Proof.
  unfold PIL.u8, np.uint8. pose proof (Z.mod_pos_bound z 256). lia.
Qed.

(** X23: [validate_alpha_file] never reports a missing alpha channel.
    The alpha plane is read after [ensure_rgba], so it is there for every
    image: a result always has [has_alpha] true, statistics, and a status
    other than FAIL; and the rule [fail_no_alpha] changes nothing. *)
Theorem X23_validation_never_sees_a_missing_alpha :
  forall (F : Type) (fl : FloatOps F) (p : Path) (rules : ops_validate.ValidationRules F)
         (s : FileSystem),
    (forall img, exists arr, ops_validate._alpha_array img = Ok (Some arr))
    /\ (forall b,
          ops_validate.validate_alpha_file p
            (ops_validate.mkRules (ops_validate.warn_pct_255 rules)
               (ops_validate.warn_pct_zero rules) (ops_validate.warn_std_lt rules)
               (ops_validate.warn_range_le rules) b) s
          = ops_validate.validate_alpha_file p rules s)
    /\ (forall s' res,
          ops_validate.validate_alpha_file p rules s = (s', Ok res) ->
          ops_validate.has_alpha res = true
          /\ ops_validate.status res <> ops_validate.FAIL
          /\ ops_validate.messages res <> [ops_validate.No_alpha_channel F]
          /\ exists st, ops_validate.stats res = Some st).
Proof.
  intros F fl p rules s. split; [apply alpha_array_defined|]. split.
  - intros b. unfold ops_validate.validate_alpha_file, bindIO, io.load_image, lift, ret.
    destruct (fs.open_image s p) as [img|]; [|reflexivity].
    destruct (alpha_array_defined img) as [arr ->]. reflexivity.
  - intros s' res.
    unfold ops_validate.validate_alpha_file, bindIO, io.load_image, lift, ret.
    destruct (fs.open_image s p) as [img|]; [|discriminate].
    destruct (alpha_array_defined img) as [arr ->].
    destruct (ops_validate.compute_alpha_stats arr) as [st|]; [|discriminate].
    destruct (ops_validate.rule_opaque rules st),
             (ops_validate.rule_transparent rules st),
             (ops_validate.rule_constant rules st);
      intros E; injection E as _ <-; simpl;
      repeat split; try discriminate; eauto.
Qed.

Lemma X23_validation_never_sees_a_missing_alpha_witness :
  ops_validate.has_alpha
    (ops_validate.mkResult "in/a.png" true ops_validate.WARN
       [ops_validate.Alpha_is_all_opaque (float_of_Z 100);
        ops_validate.Alpha_is_near_constant (float_of_Z 0) 0]
       (Some (ops_validate.mkStats 2 1 255 255 (float_of_Z 255) (float_of_Z 0)
                (float_of_Z 0) (float_of_Z 100) (float_of_Z 0)))) = true.
Proof.
  destruct (@X23_validation_never_sees_a_missing_alpha PrimFloat.float binary64
              ["in"; "a.png"]%string
              (ops_validate.mkRules (float_of_Z 99) (float_of_Z 99) (float_of_Z 1) 2 true)
              scenario_fs) as (_ & _ & H).
  apply (H scenario_fs). vm_compute. reflexivity.
Defined.

(** X24: the statistics describe the alpha plane.  For the alpha plane
    of an image, [compute_alpha_stats] reports the width and height of
    the image, and a minimum and a maximum that are samples of the plane,
    lie in [0, 255] and bound every sample. *)
Theorem X24_stats_describe_the_alpha_plane :
  forall (F : Type) (fl : FloatOps F) (img : Image) (arr : np.array2)
         (st : ops_validate.AlphaStats F),
    ops_validate._alpha_array img = Ok (Some arr) ->
    ops_validate.compute_alpha_stats arr = Ok st ->
    ops_validate.width st = fst (PIL.size img)
    /\ ops_validate.height st = snd (PIL.size img)
    /\ (0 <= ops_validate.min st)%Z
    /\ (ops_validate.min st <= ops_validate.max st)%Z
    /\ (ops_validate.max st <= 255)%Z
    /\ In (ops_validate.min st) (np.data2 arr)
    /\ In (ops_validate.max st) (np.data2 arr)
    /\ Forall (fun v => ops_validate.min st <= v <= ops_validate.max st)%Z (np.data2 arr).
Proof.
  intros F fl img arr st Ha Hst.
  destruct (alpha_array_of img) as (px & _ & Ha'). rewrite Ha' in Ha.
  injection Ha as <-.
  set (data := map np.uint8 (map (fun c : PIL.RGBApx => snd c) px)) in *.
  assert (Hb : Forall PIL.u8 data).
  { unfold data. apply Forall_map_any. intros z. apply uint8_is_byte. }
  unfold ops_validate.compute_alpha_stats, np.min, np.max in Hst. simpl in Hst.
  fold data in Hst. destruct data as [|x l] eqn:D; [discriminate|].
  simpl in Hst. injection Hst as <-. simpl.
  destruct (fold_min_le l x) as [Hm1 Hm2], (fold_max_ge l x) as [HM1 HM2].
  pose proof (fold_min_in l x) as Imin. pose proof (fold_max_in l x) as Imax.
  rewrite Forall_forall in Hb.
  pose proof (Hb _ Imin) as [B1 _]. pose proof (Hb _ Imax) as [_ B2].
  repeat split; try assumption; try lia.
  constructor; [lia|].
  rewrite Forall_forall in Hm2, HM2 |- *. intros v Hv.
  split; [now apply Hm2 | now apply HM2].
Qed.

Lemma X24_stats_describe_the_alpha_plane_witness :
  ops_validate.width (ops_validate.mkStats 2 1 255 255 (float_of_Z 255) (float_of_Z 0)
                        (float_of_Z 0) (float_of_Z 100) (float_of_Z 0))
  = fst (PIL.size rgb_only).
Proof.
  apply (@X24_stats_describe_the_alpha_plane PrimFloat.float binary64 rgb_only
           (np.mk_array2 (1, 2)%nat [255; 255]%Z)
           (ops_validate.mkStats 2 1 255 255 (float_of_Z 255) (float_of_Z 0)
              (float_of_Z 0) (float_of_Z 100) (float_of_Z 0))).
  - reflexivity.
  - vm_compute. reflexivity.
Defined.

Lemma all_255_sum (l : list Z) :
  Forall (fun v => v = 255%Z) l -> np.sum l = (255 * Z.of_nat (length l))%Z.
Proof.
  induction 1 as [|x l -> _ IH]; [reflexivity|].
  rewrite sum_cons, IH. cbn [length]. lia.
Qed.

Lemma all_255_counts (l : list Z) :
  Forall (fun v => v = 255%Z) l ->
  filter (fun v => v =? 255)%Z l = l /\ filter (fun v => v =? 0)%Z l = [].
Proof.
  induction 1 as [|x l -> _ [IH1 IH2]]; [auto|]. simpl. now rewrite IH1, IH2.
Qed.

Lemma all_255_fold (l : list Z) :
  Forall (fun v => v = 255%Z) l ->
  fold_left Z.min l 255%Z = 255%Z /\ fold_left Z.max l 255%Z = 255%Z.
Proof.
  induction 1 as [|x l -> _ [IH1 IH2]]; [auto|]. simpl. auto.
Qed.

Lemma fsum_zeros_rounded (l : list Z) :
  Forall (fun v => v = 255%Z) l ->
  fold_left (fadd (FloatOps := rounded))
    (map (fun x => fmul (FloatOps := rounded)
                     (fsub (FloatOps := rounded) (of_int (FloatOps := rounded) x) 255%R)
                     (fsub (FloatOps := rounded) (of_int (FloatOps := rounded) x) 255%R)) l)
    0%R = 0%R.
Proof.
  induction 1 as [|x l -> _ IH]; [reflexivity|].
  cbn [map fold_left]. cbn [fadd fmul fsub of_int rounded] in *.
  rewrite (@rnd_IZR 255) by (cbv; split; congruence).
  replace (255 - 255)%R with 0%R by ring.
  rewrite rnd_0, Rmult_0_l, rnd_0, Rplus_0_l, rnd_0. exact IH.
Qed.

(** the statistics of a plane that is 255 everywhere, in double
    arithmetic: no rounding occurs *)
Lemma stats_of_opaque_plane (arr : np.array2) :
  np.data2 arr <> [] -> Forall (fun v => v = 255%Z) (np.data2 arr) ->
  (Z.of_nat (np.size arr) < 2 ^ 45)%Z ->
  exists st,
    ops_validate.compute_alpha_stats (fl := rounded) arr = Ok st
    /\ ops_validate.min st = 255%Z /\ ops_validate.max st = 255%Z
    /\ ops_validate.mean st = 255%R /\ ops_validate.std st = 0%R
    /\ ops_validate.pct_zero st = 0%R /\ ops_validate.pct_255 st = 100%R
    /\ ops_validate.pct_mid st = 0%R.
Proof.
  intros Hne Hall Hsize.
  assert (P45 : (2 ^ 45 = 35184372088832)%Z) by reflexivity.
  assert (P53 : (2 ^ 53 = 9007199254740992)%Z) by reflexivity.
  assert (Hn : (0 < Z.of_nat (np.size arr))%Z).
  { unfold np.size. destruct (np.data2 arr); [congruence | simpl; lia]. }
  assert (HnR : (0 < IZR (Z.of_nat (np.size arr)))%R) by now apply IZR_lt.
  destruct (all_255_counts Hall) as [C255 C0].
  assert (R255 : fp.rnd 255 = 255%R) by (apply (@rnd_IZR 255); lia).
  assert (R100 : fp.rnd 100 = 100%R) by (apply (@rnd_IZR 100); lia).
  assert (Hmean : np.mean (fl := rounded) arr = 255%R).
  { unfold np.mean. cbn [fdiv of_int rounded]. rewrite (all_255_sum Hall).
    fold (np.size arr). rewrite !rnd_IZR by lia. rewrite mult_IZR.
    replace (255 * IZR (Z.of_nat (np.size arr)) / IZR (Z.of_nat (np.size arr)))%R
      with 255%R by (field; lra).
    exact R255. }
  assert (Hstd : np.std (fl := rounded) arr = 0%R).
  { unfold np.std. rewrite Hmean. unfold np.fsum.
    replace (of_int (FloatOps := rounded) 0) with 0%R by (symmetry; apply rnd_0).
    rewrite (fsum_zeros_rounded Hall). cbn [fdiv fsqrt of_int rounded].
    rewrite rnd_IZR by lia. unfold Rdiv. rewrite Rmult_0_l, rnd_0, sqrt_0.
    apply rnd_0. }
  unfold ops_validate.compute_alpha_stats, np.min, np.max.
  destruct (np.data2 arr) as [|x l] eqn:D; [congruence|].
  inversion Hall as [|? ? Hx Hl]; subst.
  destruct (all_255_fold Hl) as [Fmin Fmax]. rewrite Fmin, Fmax.
  destruct (np.shape2 arr) as [h w]. cbn [bind].
  eexists. split; [reflexivity|].
  cbn [ops_validate.min ops_validate.max ops_validate.mean ops_validate.std
       ops_validate.pct_zero ops_validate.pct_255 ops_validate.pct_mid].
  split; [reflexivity|]. split; [reflexivity|]. split; [exact Hmean|].
  split; [exact Hstd|].
  unfold np.count. rewrite D.
  assert (Cmid : filter (fun v => (0 <? v) && (v <? 255))%Z (255%Z :: l) = []).
  { clear -Hl. simpl. induction Hl as [|y l -> _ IH]; [reflexivity|]. simpl in *. exact IH. }
  rewrite Cmid, C255, C0.
  assert (Hsz : np.size arr = length (255%Z :: l)) by (unfold np.size; now rewrite D).
  rewrite <- Hsz. cbn [length Z.of_nat].
  set (n := Z.of_nat (np.size arr)) in *.
  rewrite (@rounded_ratio 0 100 n), (@rounded_ratio n 100 n) by lia.
  assert (Z0 : fp.rnd (IZR (0 * 100) / IZR n) = 0%R).
  { rewrite Z.mul_0_l. unfold Rdiv. rewrite Rmult_0_l. apply rnd_0. }
  assert (Z1 : fp.rnd (IZR (n * 100) / IZR n) = 100%R).
  { rewrite mult_IZR. replace (IZR n * 100 / IZR n)%R with 100%R by (field; lra).
    exact R100. }
  rewrite Z0, Z1. auto.
Qed.

(** X25: an alpha plane that is 255 everywhere is flagged.  With the
    default rules, in double arithmetic, a file whose image has such a
    plane (at least one pixel, fewer than 2^45) gets status WARN with the
    near-all-opaque message (pct_255 = 100.0) followed by the
    near-constant message (std = 0.0, range = 0), and not the
    near-all-transparent one: on such a plane no operation rounds. *)
Theorem X25_opaque_plane_is_flagged :
  forall (p : Path) (s : FileSystem) (img : Image) (arr : np.array2),
    fs.open_image s p = Some img ->
    ops_validate._alpha_array img = Ok (Some arr) ->
    np.data2 arr <> [] ->
    Forall (fun v => v = 255%Z) (np.data2 arr) ->
    (Z.of_nat (np.size arr) < 2 ^ 45)%Z ->
    exists st,
      ops_validate.validate_alpha_file (fl := rounded) p
        (ops_validate.default_rules (fl := rounded)) s
      = (s, Ok (ops_validate.mkResult (pathlib.str p) true ops_validate.WARN
                  [ops_validate.Alpha_is_all_opaque (ops_validate.pct_255 st);
                   ops_validate.Alpha_is_near_constant (ops_validate.std st) 0]
                  (Some st)))
      /\ ops_validate.pct_255 st = 100%R
      /\ ops_validate.pct_zero st = 0%R
      /\ ops_validate.std st = 0%R
      /\ ops_validate.min st = 255%Z /\ ops_validate.max st = 255%Z.
Proof.
  intros p s img arr Hop Ha Hne Hall Hsize.
  assert (P53 : (2 ^ 53 = 9007199254740992)%Z) by reflexivity.
  destruct (stats_of_opaque_plane arr Hne Hall Hsize)
    as (st & Hst & Hmin & Hmax & Hmean & Hstd & Hz & H255 & Hmid).
  exists st.
  unfold ops_validate.validate_alpha_file, bindIO, io.load_image, lift, ret.
  rewrite Hop, Ha, Hst.
  (* the threshold 99.9 as a double: between 99 and 100 *)
  assert (T : (99 <= fdiv (FloatOps := rounded) (of_int (FloatOps := rounded) 999)
                      (of_int (FloatOps := rounded) 10) <= 100)%R).
  { cbn [fdiv of_int rounded]. rewrite !rnd_IZR by lia.
    assert (B : (999 / 10 < fp.bpow 53)%R).
    { rewrite bpow_nonneg_IZR, P53 by lia. lra. }
    split; [apply (@rnd_ge_int _ 99) | apply (@rnd_le_int _ 100)]; lra. }
  assert (R1 : ops_validate.rule_opaque (fl := rounded)
                 (ops_validate.default_rules (fl := rounded)) st = true).
  { unfold ops_validate.rule_opaque. cbn [ops_validate.warn_pct_255
      ops_validate.default_rules]. rewrite H255. cbn [fleb rounded].
    match goal with |- (if ?d then _ else _) = _ => destruct d end;
      [reflexivity | exfalso; lra]. }
  assert (R2 : ops_validate.rule_transparent (fl := rounded)
                 (ops_validate.default_rules (fl := rounded)) st = false).
  { unfold ops_validate.rule_transparent. cbn [ops_validate.warn_pct_zero
      ops_validate.default_rules]. rewrite Hz. cbn [fleb rounded].
    match goal with |- (if ?d then _ else _) = _ => destruct d end;
      [exfalso; lra | reflexivity]. }
  assert (R3 : ops_validate.rule_constant (fl := rounded)
                 (ops_validate.default_rules (fl := rounded)) st = true).
  { unfold ops_validate.rule_constant. cbn [ops_validate.warn_std_lt
      ops_validate.warn_range_le ops_validate.default_rules fltb of_int rounded].
    rewrite Hstd, Hmin, Hmax, (@rnd_IZR 1) by lia.
    destruct (Rlt_dec 0 1); [reflexivity|]. exfalso. lra. }
  rewrite R1, R2, R3. simpl. rewrite Hmin, Hmax. simpl.
  repeat split; assumption.
Qed.

Lemma X25_opaque_plane_is_flagged_witness :
  exists st,
    ops_validate.validate_alpha_file (fl := rounded) ["in"; "a.png"]%string
      (ops_validate.default_rules (fl := rounded)) scenario_fs
    = (scenario_fs,
       Ok (ops_validate.mkResult (pathlib.str ["in"; "a.png"]%string) true ops_validate.WARN
             [ops_validate.Alpha_is_all_opaque (ops_validate.pct_255 st);
              ops_validate.Alpha_is_near_constant (ops_validate.std st) 0]
             (Some st)))
    /\ ops_validate.pct_255 st = 100%R
    /\ ops_validate.pct_zero st = 0%R
    /\ ops_validate.std st = 0%R
    /\ ops_validate.min st = 255%Z /\ ops_validate.max st = 255%Z.
Proof.
  apply (@X25_opaque_plane_is_flagged ["in"; "a.png"]%string scenario_fs rgb_only
           (np.mk_array2 (1, 2)%nat [255; 255]%Z)).
  - reflexivity.
  - reflexivity.
  - discriminate.
  - repeat constructor.
  - reflexivity.
Defined.

(** ** naming.py: what [build_pairs] returns *)

Lemma get_app (d e : naming.Dict) (k : string) :
  naming.get (d ++ e) k
  = match naming.get d k with Some v => Some v | None => naming.get e k end.
Proof.
  induction d as [|[k' v] d IH]; simpl; [reflexivity|].
  destruct (String.eqb k' k); [reflexivity | exact IH].
Qed.

Lemma get_setdefault (d : naming.Dict) (k0 k : string) (p : Path) :
  naming.get (naming.setdefault d k0 p) k
  = match naming.get d k with
    | Some v => Some v
    | None => if String.eqb k0 k then Some p else None
    end.
Proof.
  unfold naming.setdefault, naming.contains.
  destruct (naming.get d k0) as [v0|] eqn:G0.
  - destruct (naming.get d k) as [v|] eqn:G; [reflexivity|].
    destruct (String.eqb k0 k) eqn:E; [|reflexivity].
    apply String.eqb_eq in E. subst k0. congruence.
  - rewrite get_app. simpl. reflexivity.
Qed.

(** the entry of a key after the loop that fills a map: the entry it
    had, else the first image file with that key *)
Lemma fill_map_get (s : FileSystem) (rule : naming.PairingRule) (is_alpha : bool)
    (paths : list Path) :
  forall (d d' : naming.Dict) (k : string),
    naming.fill_map s rule is_alpha paths d = Ok d' ->
    naming.get d' k
    = match naming.get d k with
      | Some v => Some v
      | None => first_with_key s rule is_alpha paths k
      end.
Proof.
  induction paths as [|p rest IH]; intros d d' k H; simpl in H.
  - injection H as <-. unfold first_with_key. simpl. now destruct (naming.get d k).
  - unfold first_with_key. simpl. destruct (io.is_image_file s p) eqn:Himg.
    + unfold has_key.
      destruct (naming._key_for_path p rule is_alpha) as [k0|e] eqn:Hk;
        simpl in H; [|discriminate H].
      rewrite (IH _ _ k H), get_setdefault. simpl.
      destruct (naming.get d k); [reflexivity|].
      destruct (String.eqb k0 k); reflexivity.
    + simpl. exact (IH _ _ k H).
Qed.

Lemma get_iff_In (d : naming.Dict) (k : string) (v : Path) :
  NoDup (map fst d) -> (naming.get d k = Some v <-> In (k, v) d).
Proof.
  intros N. split; [apply get_In | now apply get_of_NoDup].
Qed.

Lemma contains_false_get (d : naming.Dict) (k : string) :
  naming.contains d k = false <-> naming.get d k = None.
Proof.
  unfold naming.contains. destruct (naming.get d k); split; congruence.
Qed.

Lemma in_pairs_iff (alpha_map items : naming.Dict) (p a : Path) :
  In (p, a) (flat_map (pair_of alpha_map) items)
  <-> exists k, In (k, p) items /\ naming.get alpha_map k = Some a.
Proof.
  rewrite in_flat_map. split.
  - intros ([k p'] & Hin & H). unfold pair_of in H. simpl in H.
    destruct (naming.get alpha_map k) as [a'|] eqn:G; [|destruct H].
    destruct H as [H | []]. injection H as -> ->. eauto.
  - intros (k & Hin & G). exists (k, p). split; [exact Hin|].
    unfold pair_of. simpl. rewrite G. now left.
Qed.

Lemma in_unpaired_iff (d e : naming.Dict) (p : Path) :
  In p (map snd (filter (fun kp => negb (naming.contains e (fst kp))) d))
  <-> exists k, In (k, p) d /\ naming.get e k = None.
Proof.
  rewrite in_map_iff. split.
  - intros ([k p'] & Hp & Hin). simpl in Hp. subst p'.
    apply filter_In in Hin. destruct Hin as [Hin Hc]. simpl in Hc.
    exists k. split; [exact Hin|]. apply contains_false_get.
    now destruct (naming.contains e k).
  - intros (k & Hin & G). exists (k, p). split; [reflexivity|].
    apply filter_In. split; [exact Hin|]. simpl.
    apply contains_false_get in G. now rewrite G.
Qed.

(** the three lists before they are sorted, in terms of the two maps *)
Lemma build_pairs_unsorted (s : FileSystem) (rgb_paths alpha_paths : list Path)
    (rule : naming.PairingRule) :
  exists rm am,
    naming.fill_map s rule false rgb_paths [] = Ok rm
    /\ naming.fill_map s rule true alpha_paths [] = Ok am
    /\ NoDup (map fst rm) /\ NoDup (map fst am)
    /\ (forall k p, In (k, p) rm -> naming._key_for_path p rule false = Ok k)
    /\ (forall k p, In (k, p) am -> naming._key_for_path p rule true = Ok k)
    /\ naming.build_pairs s rgb_paths alpha_paths rule
       = Ok (sort_by_str fst (flat_map (pair_of am) rm),
             sort_by_str (fun p => p)
               (map snd (filter (fun kp => negb (naming.contains am (fst kp))) rm)),
             sort_by_str (fun p => p)
               (map snd (filter (fun kp => negb (naming.contains rm (fst kp))) am))).
Proof.
  destruct (@fill_map_spec s rule false rgb_paths [] (NoDup_nil _))
    as (rm & Erm & Nrm & Krm & _); [intros k p []|].
  destruct (@fill_map_spec s rule true alpha_paths [] (NoDup_nil _))
    as (am & Eam & Nam & Kam & _); [intros k p []|].
  destruct (match_loop_spec am rm [] []) as (used & Eml & Hused).
  exists rm, am. repeat (split; [assumption|]).
  unfold naming.build_pairs. rewrite Erm, Eam. cbn [bind]. rewrite Eml. cbn [app].
  do 2 f_equal; [f_equal|]; f_equal; f_equal; apply filter_ext_in; intros [k p] Hin; simpl.
  - assert (E : naming.mem used k = naming.contains am k).
    { apply bool_eq_of_iff. rewrite Hused. split.
      - intros [H | [_ H]]; [discriminate H | exact H].
      - intros H. right. split; [now apply in_entry_key with p | exact H]. }
    rewrite E. now destruct (naming.contains am k).
  - f_equal. apply bool_eq_of_iff. rewrite Hused, !contains_keys. split.
    + intros [H | [H _]]; [discriminate H | exact H].
    + intros H. right. split; [exact H | now apply in_entry_key with p].
Qed.

(** X26: [build_pairs] keeps, for every key, the first image file of
    each list that has it: the pairs are the keys found on both sides (the
    first RGB file with the first alpha file), the unpaired RGB paths the
    first files of the keys found among the RGB files only, the unpaired
    alpha paths the first files of the keys found among the alpha files
    only.  Later files with a key already seen appear nowhere. *)
Theorem X26_build_pairs_keeps_the_first_file_of_each_key :
  forall (s : FileSystem) (rgb_paths alpha_paths : list Path) (rule : naming.PairingRule),
    exists pairs unpaired_rgb unpaired_alpha,
      naming.build_pairs s rgb_paths alpha_paths rule
      = Ok (pairs, unpaired_rgb, unpaired_alpha)
      /\ (forall r a,
             In (r, a) pairs
             <-> exists k, first_with_key s rule false rgb_paths k = Some r
                           /\ first_with_key s rule true alpha_paths k = Some a)
      /\ (forall r,
             In r unpaired_rgb
             <-> exists k, first_with_key s rule false rgb_paths k = Some r
                           /\ first_with_key s rule true alpha_paths k = None)
      /\ (forall a,
             In a unpaired_alpha
             <-> exists k, first_with_key s rule true alpha_paths k = Some a
                           /\ first_with_key s rule false rgb_paths k = None).
Proof.
  intros s rgb_paths alpha_paths rule.
  destruct (build_pairs_unsorted s rgb_paths alpha_paths rule)
    as (rm & am & Erm & Eam & Nrm & Nam & _ & _ & E).
  assert (Gr : forall k, naming.get rm k = first_with_key s rule false rgb_paths k).
  { intros k. now rewrite (fill_map_get _ _ _ _ _ k Erm). }
  assert (Ga : forall k, naming.get am k = first_with_key s rule true alpha_paths k).
  { intros k. now rewrite (fill_map_get _ _ _ _ _ k Eam). }
  do 3 eexists. split; [exact E|]. split; [|split].
  - intros r a. split.
    + intros H. apply (Permutation_in _ (sort_by_str_perm _ _)) in H.
      apply in_pairs_iff in H. destruct H as (k & Hin & G).
      exists k. rewrite <- Gr, <- Ga. split; [now apply get_iff_In | exact G].
    + intros (k & H1 & H2). apply (Permutation_in _ (Permutation_sym (sort_by_str_perm _ _))).
      apply in_pairs_iff. exists k. rewrite <- Gr in H1. rewrite <- Ga in H2.
      split; [now apply get_iff_In in H1 | exact H2].
  - intros r. split.
    + intros H. apply (Permutation_in _ (sort_by_str_perm _ _)) in H.
      apply in_unpaired_iff in H. destruct H as (k & Hin & G).
      exists k. rewrite <- Gr, <- Ga. split; [now apply get_iff_In | exact G].
    + intros (k & H1 & H2). apply (Permutation_in _ (Permutation_sym (sort_by_str_perm _ _))).
      apply in_unpaired_iff. exists k. rewrite <- Gr in H1. rewrite <- Ga in H2.
      split; [now apply get_iff_In in H1 | exact H2].
  - intros a. split.
    + intros H. apply (Permutation_in _ (sort_by_str_perm _ _)) in H.
      apply in_unpaired_iff in H. destruct H as (k & Hin & G).
      exists k. rewrite <- Gr, <- Ga. split; [now apply get_iff_In | exact G].
    + intros (k & H1 & H2). apply (Permutation_in _ (Permutation_sym (sort_by_str_perm _ _))).
      apply in_unpaired_iff. exists k. rewrite <- Gr in H2. rewrite <- Ga in H1.
      split; [now apply get_iff_In in H1 | exact H2].
Qed.

Section SortingFacts.
Variable A : Type.
Variable le : A -> A -> bool.
Hypothesis le_total : forall x y, le x y = true \/ le y x = true.

Lemma insert_sorted_HdRel (a x : A) (l : list A) :
  le a x = true -> HdRel (fun x y => le x y = true) a l ->
  HdRel (fun x y => le x y = true) a (insert_sorted le x l).
Proof.
  intros Hax H. destruct l as [|y t]; simpl.
  - now constructor.
  - inversion H; subst. destruct (le y x); now constructor.
Qed.

Lemma insert_sorted_Sorted (x : A) (l : list A) :
  Sorted (fun x y => le x y = true) l ->
  Sorted (fun x y => le x y = true) (insert_sorted le x l).
Proof.
  induction 1 as [|y t Ht IH Hhd]; simpl.
  - repeat constructor.
  - destruct (le y x) eqn:E.
    + constructor; [exact IH | now apply insert_sorted_HdRel].
    + constructor; [now constructor|]. constructor.
      destruct (le_total x y) as [H | H]; [exact H | congruence].
Qed.

Lemma sort_acc_Sorted (l : list A) :
  forall acc, Sorted (fun x y => le x y = true) acc ->
              Sorted (fun x y => le x y = true) (sort_acc le l acc).
Proof.
  induction l as [|x t IH]; intros acc H; simpl; [exact H|].
  apply IH. now apply insert_sorted_Sorted.
Qed.

End SortingFacts.

Lemma sort_by_str_ascending (A : Type) (f : A -> Path) (l : list A) :
  ascending f (sort_by_str f l).
Proof.
  unfold ascending, sort_by_str, sorted.
  apply (@sort_acc_Sorted A
           (fun x y => String.leb (pathlib.str (f x)) (pathlib.str (f y)))).
  - intros x y. apply String.leb_total.
  - constructor.
Qed.

Lemma NoDup_map_filter (A B : Type) (g : A -> B) (c : A -> bool) (l : list A) :
  NoDup (map g l) -> NoDup (map g (filter c l)).
Proof.
  induction l as [|x t IH]; simpl; intros H; [constructor|].
  inversion H as [|? ? Hn Ht]; subst. destruct (c x); simpl; [|now apply IH].
  constructor; [|now apply IH]. intros Hin. apply Hn.
  apply in_map_iff in Hin. destruct Hin as (y & Hy & Hin).
  apply in_map_iff. exists y. split; [exact Hy|]. now apply filter_In in Hin.
Qed.

(** a map whose entries carry the key of their path holds no path twice *)
Lemma dict_paths_NoDup (rule : naming.PairingRule) (is_alpha : bool) (d : naming.Dict) :
  NoDup (map fst d) ->
  (forall k p, In (k, p) d -> naming._key_for_path p rule is_alpha = Ok k) ->
  NoDup (map snd d).
Proof.
  induction d as [|[k p] t IH]; simpl; intros N K; [constructor|].
  inversion N as [|? ? Hn Nt]; subst. constructor.
  - intros Hin. apply in_map_iff in Hin. destruct Hin as ([k' p'] & Hp & Hin).
    simpl in Hp. subst p'. apply Hn.
    assert (E : Ok k' = Ok k :> result string).
    { rewrite <- (K k' p (or_intror Hin)). apply K. now left. }
    injection E as <-. now apply in_entry_key with p.
  - apply IH; [exact Nt|]. intros k' p' H. apply K. now right.
Qed.

Lemma pairs_fst (alpha_map items : naming.Dict) :
  map fst (flat_map (pair_of alpha_map) items)
  = map snd (filter (fun kp => naming.contains alpha_map (fst kp)) items).
Proof.
  induction items as [|[k p] t IH]; simpl; [reflexivity|].
  unfold pair_of at 1, naming.contains. simpl.
  destruct (naming.get alpha_map k); simpl; now rewrite IH.
Qed.

Lemma pairs_snd_NoDup (rule : naming.PairingRule) (alpha_map items : naming.Dict) :
  NoDup (map fst items) ->
  (forall k a, In (k, a) alpha_map -> naming._key_for_path a rule true = Ok k) ->
  NoDup (map snd (flat_map (pair_of alpha_map) items)).
Proof.
  intros N K. induction items as [|[k p] t IH]; simpl; [constructor|].
  inversion N as [|? ? Hn Nt]; subst.
  unfold pair_of at 1. simpl. destruct (naming.get alpha_map k) as [a|] eqn:G; simpl;
    [|now apply IH].
  constructor; [|now apply IH]. intros Hin.
  apply in_map_iff in Hin. destruct Hin as ([p' a'] & Ha & Hin). simpl in Ha. subst a'.
  apply in_pairs_iff in Hin. destruct Hin as (k' & Hin & G').
  assert (E : Ok k' = Ok k :> result string).
  { rewrite <- (K k' a (get_In _ _ G')). apply K. now apply get_In. }
  injection E as <-. apply Hn. now apply in_entry_key with p'.
Qed.

(** X27: the three lists [build_pairs] returns are in ascending order
    of the path strings (the pairs by their RGB path), and no path occurs
    twice: not among the RGB paths of the pairs, not among their alpha
    paths, not in either list of unpaired paths. *)
Theorem X27_build_pairs_lists_are_sorted_without_duplicates :
  forall (s : FileSystem) (rgb_paths alpha_paths : list Path) (rule : naming.PairingRule),
    exists pairs unpaired_rgb unpaired_alpha,
      naming.build_pairs s rgb_paths alpha_paths rule
      = Ok (pairs, unpaired_rgb, unpaired_alpha)
      /\ ascending fst pairs
      /\ ascending (fun p => p) unpaired_rgb
      /\ ascending (fun p => p) unpaired_alpha
      /\ NoDup (map fst pairs) /\ NoDup (map snd pairs)
      /\ NoDup unpaired_rgb /\ NoDup unpaired_alpha.
Proof.
  intros s rgb_paths alpha_paths rule.
  destruct (build_pairs_unsorted s rgb_paths alpha_paths rule)
    as (rm & am & _ & _ & Nrm & Nam & Krm & Kam & E).
  do 3 eexists. split; [exact E|].
  split; [apply sort_by_str_ascending|].
  split; [apply sort_by_str_ascending|].
  split; [apply sort_by_str_ascending|].
  pose proof (dict_paths_NoDup rule false rm Nrm Krm) as Pr.
  pose proof (dict_paths_NoDup rule true am Nam Kam) as Pa.
  split; [|split; [|split]].
  - apply (Permutation_NoDup (Permutation_map fst (Permutation_sym (sort_by_str_perm _ _)))).
    rewrite pairs_fst. now apply NoDup_map_filter.
  - apply (Permutation_NoDup (Permutation_map snd (Permutation_sym (sort_by_str_perm _ _)))).
    now apply pairs_snd_NoDup with rule.
  - apply (Permutation_NoDup (Permutation_sym (sort_by_str_perm _ _))).
    now apply NoDup_map_filter.
  - apply (Permutation_NoDup (Permutation_sym (sort_by_str_perm _ _))).
    now apply NoDup_map_filter.
Qed.

(** ** naming.py: the keys of the suffix and folder rules *)

Lemma str_append_assoc (a b c : string) :
  String.append (String.append a b) c = String.append a (String.append b c).
Proof.
  induction a as [|x t IH]; simpl; [reflexivity | now rewrite IH].
Qed.

Lemma str_append_nil_r (a : string) : String.append a EmptyString = a.
Proof.
  induction a as [|x t IH]; simpl; [reflexivity | now rewrite IH].
Qed.

Lemma rev_acc_append (s acc : string) :
  pystr.rev_acc s acc = String.append (pystr.rev_acc s EmptyString) acc.
Proof.
  revert acc. induction s as [|c t IH]; intros acc; simpl; [reflexivity|].
  rewrite (IH (String c acc)), (IH (String c EmptyString)).
  rewrite str_append_assoc. reflexivity.
Qed.

Lemma rev_append (a b : string) :
  pystr.rev (String.append a b) = String.append (pystr.rev b) (pystr.rev a).
Proof.
  unfold pystr.rev. induction a as [|c t IH]; simpl.
  - now rewrite str_append_nil_r.
  - rewrite (rev_acc_append (String.append t b) (String c EmptyString)), IH.
    rewrite (rev_acc_append t (String c EmptyString)).
    now rewrite str_append_assoc.
Qed.

Lemma prefix_append (a b : string) : String.prefix a (String.append a b) = true.
Proof.
  induction a as [|c t IH]; simpl; [now destruct b|].
  destruct (ascii_dec c c); [exact IH | congruence].
Qed.

Lemma endswith_append (s suf : string) :
  pystr.endswith (String.append s suf) suf = true.
Proof.
  unfold pystr.endswith. rewrite rev_append. apply prefix_append.
Qed.

Lemma substring_append (a b : string) :
  String.substring 0 (String.length a) (String.append a b) = a.
Proof.
  induction a as [|c t IH]; simpl.
  - now destruct b.
  - now rewrite IH.
Qed.

Lemma drop_last_append (s suf : string) :
  pystr.drop_last (String.length suf) (String.append s suf) = s.
Proof.
  unfold pystr.drop_last. rewrite length_append.
  replace (String.length s + String.length suf - String.length suf)%nat
    with (String.length s) by lia.
  apply substring_append.
Qed.

Lemma rfind_dot_append (n e : string) :
  pystr.rfind "."%char e = None ->
  pystr.rfind "."%char (String.append n (String "."%char e)) = Some (String.length n).
Proof.
  intros He. induction n as [|c t IH]; simpl.
  - now rewrite He.
  - now rewrite IH.
Qed.

Lemma name_last (d : Path) (x : string) :
  x <> "/"%string -> pathlib.name (d ++ [x]) = x.
Proof.
  intros Hx. unfold pathlib.name.
  destruct d as [|a d]; simpl.
  - destruct x as [|c t]; [reflexivity|].
    destruct t as [|c' t']; [|destruct c as [[] [] [] [] [] [] [] []]; reflexivity].
    destruct c as [[] [] [] [] [] [] [] []]; try reflexivity. congruence.
  - assert (L : last (a :: d ++ [x]) ""%string = x).
    { change (a :: d ++ [x]) with ((a :: d) ++ [x]). apply last_last. }
    destruct (d ++ [x]) as [|b r] eqn:E.
    + destruct d; discriminate.
    + rewrite <- L. destruct a as [|c t]; [reflexivity|].
      destruct t as [|c' t']; [|destruct c as [[] [] [] [] [] [] [] []]; reflexivity].
      destruct c as [[] [] [] [] [] [] [] []]; reflexivity.
Qed.

Lemma dotted_is_not_root (n e : string) :
  n <> EmptyString -> String.append n (String "."%char e) <> "/"%string.
Proof.
  intros Hn H. destruct n as [|c t]; [congruence|].
  simpl in H. injection H as _ H. destruct t; discriminate.
Qed.

(** the stem of [n.e] is [n], for a non-empty [n] and a non-empty
    extension without a dot *)
Lemma stem_file_in (d : Path) (n e : string) :
  n <> EmptyString -> e <> EmptyString -> pystr.rfind "."%char e = None ->
  pathlib.stem (file_in d n e) = n.
Proof.
  intros Hn He Hr. unfold pathlib.stem, file_in.
  rewrite (@name_last d _ (@dotted_is_not_root n e Hn)).
  unfold pathlib.suffix_start. rewrite (@rfind_dot_append n e Hr).
  rewrite length_append. simpl String.length.
  assert (L1 : (0 < String.length n)%nat) by (destruct n; [congruence | simpl; lia]).
  assert (L2 : (0 < String.length e)%nat) by (destruct e; [congruence | simpl; lia]).
  replace (0 <? String.length n)%nat with true by (symmetry; apply Nat.ltb_lt; lia).
  replace (String.length n <? String.length n + S (String.length e) - 1)%nat with true
    by (symmetry; apply Nat.ltb_lt; lia).
  simpl. apply substring_append.
Qed.

Lemma append_not_empty (a b : string) :
  a <> EmptyString -> String.append a b <> EmptyString.
Proof.
  destruct a; [congruence | discriminate].
Qed.

(** in suffix mode a suffix is stripped where there is one *)
Lemma strip_suffix (n suf : string) :
  (if pystr.truthy suf && pystr.endswith (String.append n suf) suf
   then pystr.drop_last (String.length suf) (String.append n suf)
   else String.append n suf) = n.
Proof.
  rewrite endswith_append, andb_true_r. destruct suf as [|c t]; simpl pystr.truthy.
  - apply str_append_nil_r.
  - apply drop_last_append.
Qed.

Lemma key_suffix_rule (rule : naming.PairingRule) (is_alpha : bool) (d : Path)
    (n e : string) :
  naming.mode rule = "suffix"%string ->
  n <> EmptyString -> e <> EmptyString -> pystr.rfind "."%char e = None ->
  naming._key_for_path
    (file_in d (String.append n (if is_alpha then naming.alpha_suffix rule
                                 else naming.rgb_suffix rule)) e) rule is_alpha
  = Ok (naming._norm n (naming.case_sensitive rule)).
Proof.
  intros Hm Hn He Hr. unfold naming._key_for_path. rewrite Hm. simpl String.eqb.
  rewrite (@stem_file_in d _ e (@append_not_empty n _ Hn) He Hr).
  destruct is_alpha; cbn [negb andb].
  - now rewrite strip_suffix.
  - now rewrite strip_suffix.
Qed.

(** one RGB file and one alpha file with the same key make one pair *)
Lemma build_pairs_one_pair (s : FileSystem) (rule : naming.PairingRule)
    (r a : Path) (k : string) :
  io.is_image_file s r = true -> io.is_image_file s a = true ->
  naming._key_for_path r rule false = Ok k ->
  naming._key_for_path a rule true = Ok k ->
  naming.build_pairs s [r] [a] rule = Ok ([(r, a)], [], []).
Proof.
  intros Ir Ia Kr Ka. unfold naming.build_pairs. simpl.
  rewrite Ir, Ia, Kr, Ka. simpl.
  unfold naming.setdefault, naming.contains. simpl.
  rewrite String.eqb_refl. simpl.
  unfold naming.add, naming.mem. simpl. rewrite String.eqb_refl. simpl.
  reflexivity.
Qed.

(** X28: under the suffix rule an image file [n<rgb_suffix>.e1] and an
    image file [n<alpha_suffix>.e2] (any directories, any extensions, a
    non-empty [n]) both have the key [n] (lower-cased unless the rule is
    case sensitive), and [build_pairs] pairs them, leaving nothing
    unpaired. *)
Theorem X28_suffix_rule_pairs_a_name_with_its_mask :
  forall (s : FileSystem) (rule : naming.PairingRule) (d1 d2 : Path) (n e1 e2 : string),
    naming.mode rule = "suffix"%string ->
    n <> EmptyString ->
    e1 <> EmptyString -> pystr.rfind "."%char e1 = None ->
    e2 <> EmptyString -> pystr.rfind "."%char e2 = None ->
    io.is_image_file s (file_in d1 (String.append n (naming.rgb_suffix rule)) e1) = true ->
    io.is_image_file s (file_in d2 (String.append n (naming.alpha_suffix rule)) e2) = true ->
    naming._key_for_path (file_in d1 (String.append n (naming.rgb_suffix rule)) e1)
      rule false
    = Ok (naming._norm n (naming.case_sensitive rule))
    /\ naming._key_for_path (file_in d2 (String.append n (naming.alpha_suffix rule)) e2)
         rule true
       = Ok (naming._norm n (naming.case_sensitive rule))
    /\ naming.build_pairs s
         [file_in d1 (String.append n (naming.rgb_suffix rule)) e1]
         [file_in d2 (String.append n (naming.alpha_suffix rule)) e2] rule
       = Ok ([(file_in d1 (String.append n (naming.rgb_suffix rule)) e1,
               file_in d2 (String.append n (naming.alpha_suffix rule)) e2)], [], []).
Proof.
  intros s rule d1 d2 n e1 e2 Hm Hn He1 Hr1 He2 Hr2 I1 I2.
  pose proof (@key_suffix_rule rule false d1 n e1 Hm Hn He1 Hr1) as K1.
  pose proof (@key_suffix_rule rule true d2 n e2 Hm Hn He2 Hr2) as K2.
  cbv iota in K1, K2.
  split; [exact K1|]. split; [exact K2|].
  exact (@build_pairs_one_pair s rule _ _ _ I1 I2 K1 K2).
Qed.

Lemma X28_suffix_rule_pairs_a_name_with_its_mask_witness :
  naming._key_for_path ["in"; "Cat.png"]%string naming.default_rule false = Ok "cat"%string
  /\ naming._key_for_path ["masks"; "Cat_alpha.tga"]%string naming.default_rule true
     = Ok "cat"%string
  /\ naming.build_pairs
       (fs.mkFS [(["in"; "Cat.png"], fs.File (fs.Encoded rgb_only));
                 (["masks"; "Cat_alpha.tga"], fs.File (fs.Encoded rgb_only))]%string
          pathlib.str)
       [["in"; "Cat.png"]]%string [["masks"; "Cat_alpha.tga"]]%string naming.default_rule
     = Ok ([(["in"; "Cat.png"], ["masks"; "Cat_alpha.tga"])]%string, [], []).
Proof.
  apply (@X28_suffix_rule_pairs_a_name_with_its_mask
           (fs.mkFS [(["in"; "Cat.png"], fs.File (fs.Encoded rgb_only));
                     (["masks"; "Cat_alpha.tga"], fs.File (fs.Encoded rgb_only))]%string
              pathlib.str)
           naming.default_rule ["in"%string] ["masks"%string]
           "Cat"%string "png"%string "tga"%string).
  - reflexivity.
  - discriminate.
  - discriminate.
  - reflexivity.
  - discriminate.
  - reflexivity.
  - reflexivity.
  - reflexivity.
Defined.

Lemma index_first (d t : list string) (x : string) :
  ~ In x d -> naming.index (d ++ x :: t) x = Some (length d).
Proof.
  induction d as [|y d IH]; simpl; intros H.
  - now rewrite String.eqb_refl.
  - destruct (String.eqb y x) eqn:E.
    + apply String.eqb_eq in E. exfalso. apply H. now left.
    + rewrite IH; [reflexivity|]. intros Hin. apply H. now right.
Qed.

Lemma index_absent (d : list string) (x : string) :
  ~ In x d -> naming.index d x = None.
Proof.
  induction d as [|y d IH]; simpl; intros H; [reflexivity|].
  destruct (String.eqb y x) eqn:E.
  - apply String.eqb_eq in E. exfalso. apply H. now left.
  - rewrite IH; [reflexivity|]. intros Hin. apply H. now right.
Qed.

Lemma skipn_past (d t : list string) (x : string) :
  skipn (length d + 1) (d ++ x :: t) = t.
Proof.
  induction d as [|y d IH]; simpl; [reflexivity | exact IH].
Qed.

Lemma name_file_in (d : Path) (n e : string) :
  n <> EmptyString -> pathlib.name (file_in d n e) = String.append n (String "."%char e).
Proof.
  intros Hn. unfold file_in. apply name_last. now apply dotted_is_not_root.
Qed.

(** [with_suffix("")] takes the extension off the last part *)
Lemma with_suffix_empty_file_in (d : Path) (n e : string) :
  n <> EmptyString -> e <> EmptyString -> pystr.rfind "."%char e = None ->
  pathlib.with_suffix_empty (file_in d n e) = Some (d ++ [n]).
Proof.
  intros Hn He Hr. unfold pathlib.with_suffix_empty.
  rewrite (@name_file_in d n e Hn), (@stem_file_in d n e Hn He Hr).
  destruct n as [|c t]; [congruence|]. simpl pystr.truthy. cbv iota.
  unfold file_in. now rewrite removelast_last.
Qed.

(** the key of the folder rule below the directory the rule names *)
Lemma key_folder_rule (rule : naming.PairingRule) (is_alpha : bool) (d rel : Path)
    (n e : string) :
  naming.mode rule = "folder"%string ->
  n <> EmptyString -> e <> EmptyString -> pystr.rfind "."%char e = None ->
  ~ In (if is_alpha then naming.alpha_dir_name rule else naming.rgb_dir_name rule) d ->
  naming._key_for_path
    (file_in (d ++ (if is_alpha then naming.alpha_dir_name rule
                    else naming.rgb_dir_name rule) :: rel) n e) rule is_alpha
  = Ok (naming._norm (pathlib.str (rel ++ [n])) (naming.case_sensitive rule)).
Proof.
  intros Hm Hn He Hr Hd. unfold naming._key_for_path. rewrite Hm. simpl String.eqb.
  cbv iota. unfold file_in. rewrite <- !app_assoc. simpl app.
  rewrite (@index_first d _ _ Hd).
  rewrite skipn_past.
  change (rel ++ [String.append n (String "."%char e)]) with (file_in rel n e).
  now rewrite (@with_suffix_empty_file_in rel n e Hn He Hr).
Qed.

(** X29: under the folder rule an image file [<rgb_dir_name>/rel/n.e1]
    and an image file [<alpha_dir_name>/rel/n.e2], each below any
    directories that do not have the name the rule looks for, both have
    the key [rel/n] (lower-cased unless the rule is case sensitive), and
    [build_pairs] pairs them, leaving nothing unpaired. *)
Theorem X29_folder_rule_pairs_by_relative_path :
  forall (s : FileSystem) (rule : naming.PairingRule) (d1 d2 rel : Path)
         (n e1 e2 : string),
    naming.mode rule = "folder"%string ->
    n <> EmptyString ->
    e1 <> EmptyString -> pystr.rfind "."%char e1 = None ->
    e2 <> EmptyString -> pystr.rfind "."%char e2 = None ->
    ~ In (naming.rgb_dir_name rule) d1 ->
    ~ In (naming.alpha_dir_name rule) d2 ->
    io.is_image_file s (file_in (d1 ++ naming.rgb_dir_name rule :: rel) n e1) = true ->
    io.is_image_file s (file_in (d2 ++ naming.alpha_dir_name rule :: rel) n e2) = true ->
    naming._key_for_path (file_in (d1 ++ naming.rgb_dir_name rule :: rel) n e1) rule false
    = Ok (naming._norm (pathlib.str (rel ++ [n])) (naming.case_sensitive rule))
    /\ naming._key_for_path (file_in (d2 ++ naming.alpha_dir_name rule :: rel) n e2)
         rule true
       = Ok (naming._norm (pathlib.str (rel ++ [n])) (naming.case_sensitive rule))
    /\ naming.build_pairs s
         [file_in (d1 ++ naming.rgb_dir_name rule :: rel) n e1]
         [file_in (d2 ++ naming.alpha_dir_name rule :: rel) n e2] rule
       = Ok ([(file_in (d1 ++ naming.rgb_dir_name rule :: rel) n e1,
               file_in (d2 ++ naming.alpha_dir_name rule :: rel) n e2)], [], []).
Proof.
  intros s rule d1 d2 rel n e1 e2 Hm Hn He1 Hr1 He2 Hr2 Hd1 Hd2 I1 I2.
  pose proof (@key_folder_rule rule false d1 rel n e1 Hm Hn He1 Hr1 Hd1) as K1.
  pose proof (@key_folder_rule rule true d2 rel n e2 Hm Hn He2 Hr2 Hd2) as K2.
  cbv iota in K1, K2.
  split; [exact K1|]. split; [exact K2|].
  exact (@build_pairs_one_pair s rule _ _ _ I1 I2 K1 K2).
Qed.

Lemma X29_folder_rule_pairs_by_relative_path_witness :
  naming._key_for_path ["/"; "work"; "rgb"; "Props"; "crate.png"]%string
    (naming.mkRule "folder" "_alpha" "" "rgb" "alpha" false) false
  = Ok "props/crate"%string
  /\ naming._key_for_path ["/"; "out"; "alpha"; "Props"; "crate.tga"]%string
       (naming.mkRule "folder" "_alpha" "" "rgb" "alpha" false) true
     = Ok "props/crate"%string
  /\ naming.build_pairs
       (fs.mkFS [(["/"; "work"; "rgb"; "Props"; "crate.png"]%string,
                  fs.File (fs.Encoded rgb_only));
                 (["/"; "out"; "alpha"; "Props"; "crate.tga"]%string,
                  fs.File (fs.Encoded rgb_only))] pathlib.str)
       [["/"; "work"; "rgb"; "Props"; "crate.png"]%string]
       [["/"; "out"; "alpha"; "Props"; "crate.tga"]%string]
       (naming.mkRule "folder" "_alpha" "" "rgb" "alpha" false)
     = Ok ([(["/"; "work"; "rgb"; "Props"; "crate.png"]%string,
             ["/"; "out"; "alpha"; "Props"; "crate.tga"]%string)], [], []).
Proof.
  apply (@X29_folder_rule_pairs_by_relative_path
           (fs.mkFS [(["/"; "work"; "rgb"; "Props"; "crate.png"]%string,
                      fs.File (fs.Encoded rgb_only));
                     (["/"; "out"; "alpha"; "Props"; "crate.tga"]%string,
                      fs.File (fs.Encoded rgb_only))] pathlib.str)
           (naming.mkRule "folder" "_alpha" "" "rgb" "alpha" false)
           ["/"; "work"]%string ["/"; "out"]%string ["Props"%string]
           "crate"%string "png"%string "tga"%string).
  - reflexivity.
  - discriminate.
  - discriminate.
  - reflexivity.
  - discriminate.
  - reflexivity.
  - simpl. intros [H | [H | []]]; discriminate H.
  - simpl. intros [H | [H | []]]; discriminate H.
  - reflexivity.
  - reflexivity.
Defined.

(** X30: under the folder rule a file [n.e] with no directory of the
    name the rule looks for above it falls back to the key of its stem
    [n] (lower-cased unless the rule is case sensitive); this holds also
    when the file itself has the name the rule looks for. *)
Theorem X30_folder_rule_falls_back_to_the_stem :
  forall (rule : naming.PairingRule) (is_alpha : bool) (d : Path) (n e : string),
    naming.mode rule = "folder"%string ->
    n <> EmptyString -> n <> "/"%string ->
    e <> EmptyString -> pystr.rfind "."%char e = None ->
    ~ In (if is_alpha then naming.alpha_dir_name rule else naming.rgb_dir_name rule) d ->
    naming._key_for_path (file_in d n e) rule is_alpha
    = Ok (naming._norm n (naming.case_sensitive rule)).
Proof.
  intros rule is_alpha d n e Hm Hn Hroot He Hr Hd.
  unfold naming._key_for_path. rewrite Hm. simpl String.eqb. cbv iota.
  rewrite (@with_suffix_empty_file_in d n e Hn He Hr).
  set (dir := if is_alpha then naming.alpha_dir_name rule else naming.rgb_dir_name rule)
    in *.
  assert (Htry :
    match naming.index (file_in d n e) dir with
    | Some idx =>
        option_map pathlib.str
          (pathlib.with_suffix_empty (skipn (idx + 1) (file_in d n e)))
    | None => None
    end = None).
  { unfold file_in.
    destruct (String.eqb (String.append n (String "."%char e)) dir) eqn:E.
    - apply String.eqb_eq in E. rewrite E.
      rewrite (@index_first d [] dir Hd), skipn_past. reflexivity.
    - rewrite index_absent; [reflexivity|]. intros Hin. apply in_app_or in Hin.
      destruct Hin as [Hin | [Hin | []]]; [now apply Hd|].
      rewrite Hin, String.eqb_refl in E. discriminate E. }
  rewrite Htry. now rewrite (@name_last d n Hroot).
Qed.

Lemma X30_folder_rule_falls_back_to_the_stem_witness :
  naming._key_for_path ["textures"; "rgb.PNG"]%string
    (naming.mkRule "folder" "_alpha" "" "rgb.PNG" "alpha" false) false
  = Ok "rgb"%string.
Proof.
  apply (@X30_folder_rule_falls_back_to_the_stem
           (naming.mkRule "folder" "_alpha" "" "rgb.PNG" "alpha" false) false
           ["textures"%string] "rgb"%string "PNG"%string).
  - reflexivity.
  - discriminate.
  - discriminate.
  - discriminate.
  - reflexivity.
  - simpl. intros [H | []]. discriminate H.
Defined.
